(** * Intibot: the monitoring and decision loop of [intibot.py]

    A shallow embedding of [intibot.py]: the credentials and the
    settings resolution that run at import time, the score-to-intensity
    function, the keyword classification, the actuation pulse and the
    [main] coroutine.

    Conventions of the embedding.
    - A Python [int] is a [Z]; a Python [float] is a binary64 value, a
      primitive [float] of Rocq, whose operations the kernel computes
      and [FloatAxioms] specifies through [SpecFloat].
    - A Python [str] is a [string], one element for each character,
      over the characters with code points below 256 (Latin-1), which
      the string operations of the program keep among themselves;
      [str.lower], [in], [str.split] and slicing are Python's on them.
    - A call that may raise returns a [result]; the exception carries
      whether [except Exception] catches it.
    - The external collaborators (the device client, the Reddit client,
      the [json] module, the clock) are not part of the repository: a
      [world] record scripts what each of their calls answers, and the
      program is a function of that script that produces the trace of
      its calls and printed lines. *)

From Stdlib Require Import ZArith Ascii String Floats Reals Lra Lia Psatz.
From stdpp Require Import gmap strings list.

#[local] Set Warnings "-inexact-float,-register-all".

(** ** Python values the program handles *)

(** Exceptions, as far as the program tells them apart: [except
    Exception] catches every class but the [BaseException]-only ones
    ([KeyboardInterrupt], [asyncio.CancelledError]). *)
Inductive exn :=
| ZeroDivisionError
| OverflowError
| JSONDecodeError
| AttributeError
| OtherException (msg : string)
| KeyboardInterrupt
| CancelledError.

Definition is_Exception (e : exn) : bool :=
  match e with
  | KeyboardInterrupt | CancelledError => false
  | _ => true
  end.

Inductive result (A : Type) :=
| Ok (a : A)
| Raise (e : exn).
Arguments Ok {A} a.
Arguments Raise {A} e.

(** ** Strings: [str.lower], [in], [str.split] *)

Module Str.

(** The characters that [str.lower] changes: the capitals [A]-[Z]
    (65-90) and the accented capitals from 192 to 222, the
    multiplication sign (215) apart. *)
Definition is_upper (c : ascii) : bool :=
  let n := nat_of_ascii c in
  ((65 <=? n)%nat && (n <=? 90)%nat) ||
  ((192 <=? n)%nat && (n <=? 222)%nat && negb (n =? 215)%nat).

(** The lowercase of a capital is 32 places further. *)
Definition lower_char (c : ascii) : ascii :=
  if is_upper c then ascii_of_nat (nat_of_ascii c + 32) else c.

(** [s.lower()]: character by character (no character below 256
    depends on its neighbours or lowers to several characters). *)
Fixpoint lower (s : string) : string :=
  match s with
  | EmptyString => EmptyString
  | String c rest => String (lower_char c) (lower rest)
  end.

(** [hay.startswith(needle)] *)
Fixpoint startswith (needle hay : string) : bool :=
  match needle, hay with
  | EmptyString, _ => true
  | String _ _, EmptyString => false
  | String a n', String b h' => if decide (a = b) then startswith n' h' else false
  end.

(** [needle in hay]: [needle] occurs in [hay] as a contiguous run. *)
Fixpoint contains (needle hay : string) : bool :=
  startswith needle hay ||
  match hay with
  | EmptyString => false
  | String _ rest => contains needle rest
  end.

(** [s.split(sep)] for a one-character separator: every occurrence
    of [sep] cuts, and empty pieces are kept. *)
Fixpoint split (sep : ascii) (s : string) : list string :=
  match s with
  | EmptyString => [EmptyString]
  | String c rest =>
      if decide (c = sep) then EmptyString :: split sep rest
      else match split sep rest with
           | piece :: pieces => String c piece :: pieces
           | [] => [String c EmptyString]
           end
  end.

(** [s[:n]] *)
Definition take (n : nat) (s : string) : string := substring 0 n s.

End Str.

(** ** Settings: cache file, overrides and resolution (lines 19-76) *)

(** What [json.load] returns and [json.dump] accepts. *)
Inductive json :=
| JNull
| JBool (b : bool)
| JInt (z : Z)
| JFloat (f : float)
| JStr (s : string)
| JArr (l : list json)
| JObj (d : gmap string json).

(** The file [settings_cache.json] as [json.load] sees it: absent, not
    parseable, or holding a document. [json.dump] followed by
    [json.load] gives back the dumped value, which is how the file is
    modelled once written. *)
Inductive cache_file :=
| Missing
| Malformed
| Holds (doc : json).

(** The parsed command line ([argparse], lines 24-44): an option that
    was not given is [None]. *)
Record Args := {
  arg_id : option string;
  arg_minimum : option float;
  arg_max_upvotes : option Z;
  arg_reset : bool;
  arg_keywords : option string;
  arg_multiplier : option float
}.

Definition no_overrides : Args :=
  {| arg_id := None; arg_minimum := None; arg_max_upvotes := None;
     arg_reset := false; arg_keywords := None; arg_multiplier := None |}.

(** The five module-level globals of lines 64-68, with the values
    Python holds in them (whatever the cache held, when it came from
    the cache). *)
Record settings := {
  POST_ID : json;
  MIN_INTENSITY : json;
  MAX_UPVOTES : json;
  KEYWORD_LIST : json;
  KEYWORD_INTENSITY_MULTIPLIER : json
}.

#[global] Instance result_ret : MRet result := fun _ a => Ok a.
#[global] Instance result_bind : MBind result := fun _ _ f m =>
  match m with
  | Ok a => f a
  | Raise e => Raise e
  end.
#[global] Instance result_fmap : FMap result := fun _ _ f m =>
  match m with
  | Ok a => Ok (f a)
  | Raise e => Raise e
  end.

(** [load_cached_settings()] (lines 47-51): [json.load] raises on
    content that is not JSON, and nothing here catches it. *)
Definition load_cached_settings (fs : cache_file) : result json :=
  match fs with
  | Holds doc => Ok doc
  | Malformed => Raise JSONDecodeError
  | Missing => Ok (JObj ∅)
  end.

(** [save_cached_settings(settings)] (lines 53-55): the file is
    overwritten with the dumped dictionary. *)
Definition save_cached_settings (doc : json) : cache_file := Holds doc.

(** [cached.get(key, default)]: defined on dictionaries only. *)
Definition dict_get (cached : json) (key : string) (default : json) : result json :=
  match cached with
  | JObj d => Ok (match d !! key with Some v => v | None => default end)
  | _ => Raise AttributeError
  end.

(** Truth value of an optional string: [None] and [""] are false. *)
Definition truthy_str (o : option string) : option string :=
  match o with
  | Some EmptyString => None
  | other => other
  end.

Definition default_keywords : json :=
  JArr [JStr "knot"; JStr "puppy"; JStr "gock"; JStr "stupid"; JStr "choke"].

(** The dictionary of lines 70-76. *)
Definition settings_doc (s : settings) : json :=
  JObj (<["post_id" := POST_ID s]>
       (<["min_intensity" := MIN_INTENSITY s]>
       (<["max_upvotes" := MAX_UPVOTES s]>
       (<["keywords" := KEYWORD_LIST s]>
       (<["multiplier" := KEYWORD_INTENSITY_MULTIPLIER s]> ∅))))).

(** Lines 58-76, run once at import: reset, load, resolve each field
    (override, else cache, else default), save. The cache is only
    consulted for the fields that need it. *)
Definition load_or_reset_settings (args : Args) (fs : cache_file)
    : result (settings * cache_file) :=
  let fs := if arg_reset args then Missing else fs in
  cached ← load_cached_settings fs;
  post_id ← match truthy_str (arg_id args) with
            | Some p => Ok (JStr p)
            | None => dict_get cached "post_id" (JStr "gxvdih")
            end;
  min_intensity ← match arg_minimum args with
                  | Some m => Ok (JFloat m)
                  | None => dict_get cached "min_intensity" (JFloat 0.2)
                  end;
  max_upvotes ← match arg_max_upvotes args with
                | Some u => Ok (JInt u)
                | None => dict_get cached "max_upvotes" (JInt 100)
                end;
  keyword_list ← match truthy_str (arg_keywords args) with
                 | Some k => Ok (JArr (JStr <$> Str.split "," k))
                 | None => dict_get cached "keywords" default_keywords
                 end;
  multiplier ← match arg_multiplier args with
               | Some x => Ok (JFloat x)
               | None => dict_get cached "multiplier" (JFloat 1.5)
               end;
  let s := {| POST_ID := post_id; MIN_INTENSITY := min_intensity;
              MAX_UPVOTES := max_upvotes; KEYWORD_LIST := keyword_list;
              KEYWORD_INTENSITY_MULTIPLIER := multiplier |} in
  Ok (s, save_cached_settings (settings_doc s)).

(** The settings as the rest of the program uses them: a thread id, a
    float, an integer, a list of strings and a float. Settings of
    other shapes (a hand-edited cache) are outside the model of the
    loop. *)
Record config := {
  post_id : string;
  min_intensity : float;
  max_upvotes : Z;
  keywords : list string;
  multiplier : float
}.

Definition as_str (j : json) : option string :=
  match j with JStr s => Some s | _ => None end.

Definition as_config (s : settings) : option config :=
  match POST_ID s, MIN_INTENSITY s, MAX_UPVOTES s, KEYWORD_LIST s,
        KEYWORD_INTENSITY_MULTIPLIER s with
  | JStr p, JFloat m, JInt u, JArr ks, JFloat x =>
      ks' ← mapM as_str ks;
      Some {| post_id := p; min_intensity := m; max_upvotes := u;
              keywords := ks'; multiplier := x |}
  | _, _, _, _, _ => None
  end.

Definition default_config : config :=
  {| post_id := "gxvdih"; min_intensity := 0.2; max_upvotes := 100;
     keywords := ["knot"; "puppy"; "gock"; "stupid"; "choke"];
     multiplier := 1.5 |}.

Example first_run_defaults :
  (fun r => match r with Ok (s, _) => as_config s | Raise _ => None end)
    (load_or_reset_settings no_overrides Missing) = Some default_config.
Proof. reflexivity. Qed.

(** ** Credentials: [config.json] (lines 8-16 and 79-82) *)

(** The exception classes the start-up code meets beside those above:
    [Exception]s, told apart by their class and message. *)
Definition FileNotFoundError (msg : string) : exn :=
  OtherException ("FileNotFoundError: " +:+ msg).
Definition KeyError (key : string) : exn := OtherException ("KeyError: " +:+ key).
Definition TypeError : exn := OtherException "TypeError".

(** [load_config()] (lines 10-14), on the file [config.json] as
    [json.load] sees it. *)
Definition load_config (fs : cache_file) : result json :=
  match fs with
  | Missing => Raise (FileNotFoundError "Missing config.json. Please create it.")
  | Malformed => Raise JSONDecodeError
  | Holds doc => Ok doc
  end.

(** [config[key]] with a string key: defined on dictionaries that hold
    the key. *)
Definition subscript (config : json) (key : string) : result json :=
  match config with
  | JObj d =>
      match d !! key with
      | Some v => Ok v
      | None => Raise (KeyError key)
      end
  | _ => Raise TypeError
  end.

(** The four module-level globals of lines 79-82. *)
Record credentials := {
  BUTTPLUG_SERVER_URL : json;
  REDDIT_CLIENT_ID : json;
  REDDIT_SECRET : json;
  REDDIT_USER_AGENT : json
}.

(** Lines 79-82: the server address has a default, the three Reddit
    entries are required. *)
Definition read_credentials (config : json) : result credentials :=
  url ← dict_get config "buttplug_server_url" (JStr "ws://localhost:12345");
  client_id ← subscript config "reddit_client_id";
  secret ← subscript config "reddit_secret";
  user_agent ← subscript config "reddit_user_agent";
  Ok {| BUTTPLUG_SERVER_URL := url; REDDIT_CLIENT_ID := client_id;
        REDDIT_SECRET := secret; REDDIT_USER_AGENT := user_agent |}.

(** The module body before the functions are defined (lines 16-91),
    in the order it runs at import, the command line being the parsed
    one: [load_config()] (line 16), the settings (lines 58-76), the
    credentials (lines 79-82), then the construction of the Reddit
    client from the three Reddit entries (lines 85-89). The client
    class is not part of the repository: [praw_Reddit] is what its
    constructor answers for the values it is given. The set of line 91
    is the empty set a run starts from. [startup] returns the cache
    file the import leaves and what it has resolved, or the exception
    that ends it. *)
Definition startup (args : Args) (config_file cache : cache_file)
    (praw_Reddit : json -> json -> json -> result unit)
    : cache_file * result (settings * credentials) :=
  match load_config config_file with
  | Raise e => (cache, Raise e)
  | Ok config =>
      match load_or_reset_settings args cache with
      | Raise e => (cache, Raise e)
      | Ok (s, cache') =>
          (cache',
           c ← read_credentials config;
           praw_Reddit (REDDIT_CLIENT_ID c) (REDDIT_SECRET c) (REDDIT_USER_AGENT c);;
           Ok (s, c))
      end
  end.

(** ** Keyword classification ([main], lines 151-156) *)

(** [any(keyword in comment_text for keyword in KEYWORD_LIST)] *)
Definition any_keyword (cfg : config) (comment_text : string) : bool :=
  existsb (fun keyword => Str.contains keyword comment_text) (keywords cfg).

(** The multiplier chosen for a comment body. *)
Definition classify (cfg : config) (body : string) : float :=
  let comment_text := Str.lower body in
  if any_keyword cfg comment_text then multiplier cfg else 1.0%float.

Example split_plain : Str.split "," "knot,choke,gock" = ["knot"; "choke"; "gock"].
Proof. reflexivity. Qed.

Example split_trailing : Str.split "," "knot," = ["knot"; ""].
Proof. reflexivity. Qed.

Example lower_mixed : Str.lower "Tie a KNOT, Puppy!" = "tie a knot, puppy!".
Proof. reflexivity. Qed.

(** [chr(201)] is the capital E with an acute accent, [chr(233)] its
    lowercase; the sign [chr(215)] and the sharp s [chr(223)] stay. *)
Example lower_accented :
  Str.lower (String (ascii_of_nat 201) (String (ascii_of_nat 215) (String (ascii_of_nat 223) "")))
  = String (ascii_of_nat 233) (String (ascii_of_nat 215) (String (ascii_of_nat 223) "")).
Proof. reflexivity. Qed.

Example classify_accented :
  classify {| post_id := "gxvdih"; min_intensity := 0.2; max_upvotes := 100;
              keywords := [String (ascii_of_nat 233) ""]; multiplier := 1.5 |}
    (String (ascii_of_nat 201) "") = 1.5%float.
Proof. reflexivity. Qed.

Example classify_upper : classify default_config "what a KNOT" = 1.5%float.
Proof. reflexivity. Qed.

Example classify_none : classify default_config "nothing here" = 1.0%float.
Proof. reflexivity. Qed.

(** ** Intensity calculation (lines 94-97) *)

(** A Python [int] as an exact binary number (mantissa, exponent 0). *)
Definition Z2SF (z : Z) : spec_float :=
  match z with
  | Z0 => S754_zero false
  | Zpos p => S754_finite false p 0
  | Zneg p => S754_finite true p 0
  end.

(** [a / b] on two [int]s: the quotient rounded once, to nearest-even,
    whatever the size of the operands; [ZeroDivisionError] on a zero
    divisor and [OverflowError] when the quotient exceeds the floats. *)
Definition int_truediv (a b : Z) : result float :=
  if decide (b = 0%Z) then Raise ZeroDivisionError
  else match SF64div (Z2SF a) (Z2SF b) with
       | S754_infinity _ => Raise OverflowError
       | q => Ok (SF2Prim q)
       end.

(** [min(a, b)] on two floats: [b] when [b < a], else [a]. *)
Definition py_min (a b : float) : float :=
  if (b <? a)%float then b else a.

(** [calculate_intensity(post_score, multiplier)] *)
Definition calculate_intensity (cfg : config) (post_score : Z) (multiplier : float)
    : result float :=
  scaled ← int_truediv post_score (max_upvotes cfg);
  let base_intensity :=
    (min_intensity cfg + (1.0 - min_intensity cfg) * scaled)%float in
  Ok (py_min (base_intensity * multiplier)%float 1.0%float).

Example intensity_full_score : calculate_intensity default_config 100 1.0 = Ok 1.0%float.
Proof. reflexivity. Qed.

Example intensity_no_votes :
  calculate_intensity default_config 1 1.0 = Ok 0.20800000000000002%float.
Proof. reflexivity. Qed.

Example intensity_zero_divisor cfg s m :
  max_upvotes cfg = 0%Z -> calculate_intensity cfg s m = Raise ZeroDivisionError.
Proof. intros H. unfold calculate_intensity, int_truediv. rewrite H. reflexivity. Qed.

(** ** The world outside the program *)

Record comment := {
  comment_id : string;
  comment_author : option string;
  comment_body : string
}.

(** What [submission._fetch()] and [submission.comments.list()] leave
    in the submission object: its score and its comments. *)
Record submission := {
  score : Z;
  comments : list comment
}.

Definition actuator := nat.
Record device := { actuators : list actuator }.

(** The answers of the device client during one [send_vibration]. *)
Record pulse_io := {
  client_devices : list device;
  command_on : result unit;
  hold : result unit;
  command_off : result unit
}.

(** The answers of the outside during one turn of [while True]: the
    refresh of the thread, the pulse of the k-th new comment, the
    one-second sleep. *)
Record cycle_io := {
  fetch : result submission;
  pulses : nat -> pulse_io;
  pause : result unit
}.

(** A run of [main] against the outside: what each awaited call
    answers, in program order. The loop never ends by itself; a run is
    observed for as many turns as [cycles] scripts. *)
Record world := {
  connect : result unit;
  start_scanning : result unit;
  scan_sleep : result unit;
  stop_scanning : result unit;
  title : result string;
  cycles : list cycle_io;
  disconnect : result unit
}.

(** ** Traces *)

(** The lines the program prints. *)
Inductive line :=
| CouldNotConnect (e : exn)
| MonitoringPost (title : string)
| MaxUpvotes (u : Z)
| MinIntensity (m : float)
| KeywordTriggers (ks : list string)
| KeywordMultiplier (x : float)
| NewComment (author : option string) (body80 : string)
| KeywordDetected (multiplier : float)
| PostScore (post_score : Z) (intensity : float)
| SentVibration (intensity : float) (seconds : float)
| NoActuators
| NoDevices
| RuntimeError (e : exn)
| BotShutDown.

(** What a run does, in order: the calls on the collaborators, the
    updates of [seen_comment_ids], the calls of [calculate_intensity]
    and the printed lines. *)
Inductive event :=
| Connect
| StartScanning
| StopScanning
| Sleep (seconds : float)
| FetchTitle
| GetNewComments (seen_ids : gset string) (returned : result (list comment))
| SeenAdd (i : string)
| CalculateIntensity (post_score : Z) (multiplier : float)
| Command (a : actuator) (level : float)
| Disconnect
| Printed (l : line).

(** How a piece of program ends: with a value, with an exception, or
    not yet ([Pending]: the script of the outside ran out while the
    program was waiting for it). *)
Inductive outcome (A : Type) :=
| Done (a : A)
| Raised (e : exn)
| Pending.
Arguments Done {A} a.
Arguments Raised {A} e.
Arguments Pending {A}.

(** A piece of program: from the current [seen_comment_ids] to the
    events it produces, the set it leaves and how it ends. *)
Definition M (A : Type) : Type :=
  gset string -> list event * gset string * outcome A.

#[global] Instance M_ret : MRet M := fun _ a seen => ([], seen, Done a).
#[global] Instance M_bind : MBind M := fun _ _ f m seen =>
  match m seen with
  | (t, seen', Done a) =>
      match f a seen' with
      | (t', seen'', o) => (t ++ t', seen'', o)
      end
  | (t, seen', Raised e) => (t, seen', Raised e)
  | (t, seen', Pending) => (t, seen', Pending)
  end.

Definition emit (e : event) : M unit := fun seen => ([e], seen, Done tt).

Definition print (l : line) : M unit := emit (Printed l).

Definition of_result {A} (r : result A) : M A := fun seen =>
  match r with
  | Ok a => ([], seen, Done a)
  | Raise e => ([], seen, Raised e)
  end.

(** A call on a collaborator: the event, then what the outside answers. *)
Definition call {A} (e : event) (answer : result A) : M A :=
  emit e ;; of_result answer.

Definition pending {A} : M A := fun seen => ([], seen, Pending).

Definition get_seen : M (gset string) := fun seen => ([], seen, Done seen).

(** [seen_comment_ids.add(i)] *)
Definition seen_add (i : string) : M unit := fun seen =>
  ([SeenAdd i], {[i]} ∪ seen, Done tt).

(** [try: body / except Exception as e: handler(e)] *)
Definition try_except {A} (body : M A) (handler : exn -> M A) : M A := fun seen =>
  match body seen with
  | (t, seen', Raised e) =>
      if is_Exception e then
        match handler e seen' with
        | (t', seen'', o) => (t ++ t', seen'', o)
        end
      else (t, seen', Raised e)
  | other => other
  end.

(** [try: body / finally: cleanup]: the cleanup runs however the body
    ends; an exception of the cleanup replaces the body's. *)
Definition try_finally {A} (body : M A) (cleanup : M unit) : M A := fun seen =>
  match body seen with
  | (t, seen', Pending) => (t, seen', Pending)
  | (t, seen', o) =>
      match cleanup seen' with
      | (t', seen'', Done _) => (t ++ t', seen'', o)
      | (t', seen'', Raised e) => (t ++ t', seen'', Raised e)
      | (t', seen'', Pending) => (t ++ t', seen'', Pending)
      end
  end.

(** ** The program *)

Definition VIBRATION_DURATION : float := 2.0.

(** [get_new_comments(submission, seen_ids)] (lines 100-104): refresh
    the submission, then keep the comments whose id is not in
    [seen_ids]. The refreshed submission is returned with the list,
    where Python mutates the object. *)
Definition get_new_comments (refresh : result submission) (seen_ids : gset string)
    : result (submission * list comment) :=
  sub ← refresh;
  Ok (sub, filter (fun comment => comment_id comment ∉ seen_ids) (comments sub)).

(** [send_vibration(client, intensity)] (lines 107-119) *)
Definition send_vibration (io : pulse_io) (intensity : float) : M unit :=
  match client_devices io with
  | device :: _ =>
      match actuators device with
      | actuator :: _ =>
          call (Command actuator intensity) (command_on io);;
          print (SentVibration intensity VIBRATION_DURATION);;
          call (Sleep VIBRATION_DURATION) (hold io);;
          call (Command actuator 0.0) (command_off io)
      | [] => print NoActuators
      end
  | [] => print NoDevices
  end.

(** [x or 1] on an [int]: [1] when [x] is zero, else [x]. *)
Definition or_1 (x : Z) : Z := if decide (x = 0%Z) then 1%Z else x.

(** The body of [for comment in new_comments] (lines 147-162). *)
Definition handle_comment (cfg : config) (sub : submission) (io : pulse_io)
    (comment : comment) : M unit :=
  seen_add (comment_id comment);;
  print (NewComment (comment_author comment) (Str.take 80 (comment_body comment)));;
  let comment_text := Str.lower (comment_body comment) in
  let multiplier := classify cfg (comment_body comment) in
  (if any_keyword cfg comment_text then print (KeywordDetected multiplier) else mret tt);;
  let post_score := or_1 (score sub) in
  emit (CalculateIntensity post_score multiplier);;
  intensity ← of_result (calculate_intensity cfg post_score multiplier);
  print (PostScore post_score intensity);;
  send_vibration io intensity.

(** [for comment in new_comments: ...], the k-th comment pulsing
    against [pulses k]. *)
Fixpoint for_comments (cfg : config) (sub : submission) (pulses : nat -> pulse_io)
    (k : nat) (new_comments : list comment) : M unit :=
  match new_comments with
  | [] => mret tt
  | comment :: rest =>
      handle_comment cfg sub (pulses k) comment;;
      for_comments cfg sub pulses (S k) rest
  end.

(** One turn of [while True] (lines 144-164). *)
Definition cycle (cfg : config) (io : cycle_io) : M unit :=
  seen_comment_ids ← get_seen;
  let answer := get_new_comments (fetch io) seen_comment_ids in
  '(sub, new_comments) ←
    call (GetNewComments seen_comment_ids (snd <$> answer)) answer;
  for_comments cfg sub (pulses io) 0 new_comments;;
  call (Sleep 1) (pause io).

(** [while True: ...] against the scripted turns; when the script is
    used up the loop is still running. *)
Fixpoint monitor (cfg : config) (turns : list cycle_io) : M unit :=
  match turns with
  | [] => pending
  | io :: rest => cycle cfg io;; monitor cfg rest
  end.

(** The [try] statement of lines 142-170: the loop, the handler of
    [Exception] and the [finally] clause. *)
Definition monitoring (cfg : config) (turns : list cycle_io) (bye : result unit)
    : M unit :=
  try_finally
    (try_except (monitor cfg turns) (fun e => print (RuntimeError e)))
    (call Disconnect bye;; print BotShutDown).

(** [main()] (lines 122-170) *)
Definition main (cfg : config) (w : world) : M unit :=
  connected ← try_except
    (call Connect (connect w);;
     call StartScanning (start_scanning w);;
     call (Sleep 1) (scan_sleep w);;
     call StopScanning (stop_scanning w);;
     mret true)
    (fun e => print (CouldNotConnect e);; mret false);
  if connected : bool then
    submission_title ← call FetchTitle (title w);
    print (MonitoringPost submission_title);;
    print (MaxUpvotes (max_upvotes cfg));;
    print (MinIntensity (min_intensity cfg));;
    print (KeywordTriggers (keywords cfg));;
    print (KeywordMultiplier (multiplier cfg));;
    monitoring cfg (cycles w) (disconnect w)
  else mret tt.

(** A run of the program: [seen_comment_ids = set()] at line 91, then
    [asyncio.run(main())]. *)
Definition run (cfg : config) (w : world) : list event * gset string * outcome unit :=
  main cfg w ∅.

Definition trace_of {A} (r : list event * gset string * outcome A) : list event :=
  r.1.1.
Definition seen_of {A} (r : list event * gset string * outcome A) : gset string :=
  r.1.2.
Definition outcome_of {A} (r : list event * gset string * outcome A) : outcome A :=
  r.2.

(** * Properties *)

(** ** Strings *)

Module StrFacts.
Import Str.

(** [needle] occurs in [hay]: the specification of [in]. *)
Definition occurs (needle hay : string) : Prop :=
  exists pre post, hay = pre +:+ needle +:+ post.

Lemma append_cons (c : ascii) (a b : string) :
  String c a +:+ b = String c (a +:+ b).
Proof. reflexivity. Qed.

Lemma append_nil_l (b : string) : "" +:+ b = b.
Proof. reflexivity. Qed.


Lemma startswith_spec (needle hay : string) :
  startswith needle hay = true <-> exists post, hay = needle +:+ post.
Proof.
  revert hay. induction needle as [|a n IH]; intros hay; simpl.
  - split; [intros _; now exists hay | reflexivity].
  - destruct hay as [|b h].
    + split; [discriminate | intros [post H]; discriminate].
    + destruct (decide (a = b)) as [->|Hne].
      * rewrite IH. split; intros [post H]; exists post.
        -- now rewrite append_cons, H.
        -- rewrite append_cons in H. now injection H.
      * split; [discriminate|]. intros [post H].
        rewrite append_cons in H. injection H as H1 _. congruence.
Qed.

Lemma contains_spec (needle hay : string) :
  contains needle hay = true <-> occurs needle hay.
Proof.
  unfold occurs. induction hay as [|b h IH].
  - simpl. rewrite orb_false_r, startswith_spec. split.
    + intros [post H]. now exists "", post.
    + intros [[|x pre] [post H]]; [now exists post | discriminate].
  - cbn [contains]. rewrite orb_true_iff, IH, startswith_spec. split.
    + intros [[post H]|[pre [post H]]].
      * now exists "", post.
      * exists (String b pre), post. now rewrite append_cons, H.
    + intros [[|x pre] [post H]].
      * left. now exists post.
      * right. rewrite append_cons in H. injection H as _ H. now exists pre, post.
Qed.

Lemma contains_empty (hay : string) : contains "" hay = true.
Proof. destruct hay; reflexivity. Qed.

(** A string that ends with the separator splits into pieces the last
    of which is empty. *)
Lemma split_trailing_sep (sep : ascii) (s : string) :
  exists piece pieces, split sep (s +:+ String sep "") = piece :: pieces ++ [""].
Proof.
  induction s as [|c s (piece & pieces & IH)].
  - rewrite append_nil_l. simpl. rewrite decide_True by reflexivity.
    now exists "", [].
  - rewrite append_cons. simpl. rewrite IH. destruct (decide (c = sep)).
    + now exists "", (piece :: pieces).
    + now exists (String c piece), pieces.
Qed.

Lemma split_trailing_has_empty (sep : ascii) (s : string) :
  "" ∈ split sep (s +:+ String sep "").
Proof.
  destruct (split_trailing_sep sep s) as (piece & pieces & ->).
  apply elem_of_cons. right. apply elem_of_app. right. apply list_elem_of_singleton.
  reflexivity.
Qed.

End StrFacts.

(** ** Keyword classification *)

Section Classification.
Import StrFacts.

Lemma any_keyword_spec (cfg : config) (text : string) :
  any_keyword cfg text = true <-> exists k, k ∈ keywords cfg /\ occurs k text.
Proof.
  unfold any_keyword. rewrite existsb_exists. split.
  - intros (k & Hin & Hk). exists k. split.
    + now apply list_elem_of_In.
    + now apply contains_spec.
  - intros (k & Hin & Hk). exists k. split.
    + now apply list_elem_of_In.
    + now apply contains_spec.
Qed.

Lemma classify_hit (cfg : config) (body : string) :
  (exists k, k ∈ keywords cfg /\ occurs k (Str.lower body)) ->
  classify cfg body = multiplier cfg.
Proof.
  intros H. apply any_keyword_spec in H. unfold classify. now rewrite H.
Qed.




(** C10. A trigger list that contains the empty string boosts every
    comment: [""] occurs in every lowercased body. Such a list is
    reachable from the command line, since the keyword override is
    split on commas and empty pieces are kept: whenever the override
    ends with a comma, the resolved triggers contain [""] and every
    body is classified with the keyword multiplier. *)
Theorem empty_trigger_boosts_everything :
  (forall (cfg : config) (body : string),
     "" ∈ keywords cfg -> classify cfg body = multiplier cfg) /\
  (forall (args : Args) (fs fs' : cache_file) (s : settings) (k : string),
     arg_keywords args = Some (k +:+ ",") ->
     load_or_reset_settings args fs = Ok (s, fs') ->
     exists ks, KEYWORD_LIST s = JArr (JStr <$> ks) /\ "" ∈ ks /\
       forall cfg body, as_config s = Some cfg ->
         keywords cfg = ks /\ classify cfg body = multiplier cfg).
Proof.
  assert (Hall : forall cfg body, "" ∈ keywords cfg -> classify cfg body = multiplier cfg).
  { intros cfg body Hin. apply classify_hit. exists "". split; [assumption|].
    apply contains_spec, contains_empty. }
  split; [exact Hall|].
  intros args fs fs' s k Hk Hrun.
  assert (Hlist : KEYWORD_LIST s = JArr (JStr <$> Str.split "," (k +:+ ","))).
  { unfold load_or_reset_settings in Hrun. rewrite Hk in Hrun.
    assert (Ht : truthy_str (Some (k +:+ ",")) = Some (k +:+ ",")).
    { destruct k; reflexivity. }
    rewrite Ht in Hrun.
    repeat match type of Hrun with
           | (mbind _ ?m) = _ => destruct m; [cbn [mbind result_bind] in Hrun | discriminate Hrun]
           | (?m ≫= _) = _ => destruct m; [cbn [mbind result_bind] in Hrun | discriminate Hrun]
           end.
    injection Hrun as <- _. reflexivity. }
  exists (Str.split "," (k +:+ ",")). split; [exact Hlist|].
  split; [apply split_trailing_has_empty|].
  intros cfg body Hcfg.
  assert (Hks : keywords cfg = Str.split "," (k +:+ ",")).
  { unfold as_config in Hcfg. rewrite Hlist in Hcfg.
    destruct (POST_ID s), (MIN_INTENSITY s), (MAX_UPVOTES s),
      (KEYWORD_INTENSITY_MULTIPLIER s); try discriminate Hcfg.
    destruct (mapM as_str (JStr <$> Str.split "," (k +:+ ","))) as [ks'|] eqn:E;
      [|discriminate Hcfg].
    injection Hcfg as <-. cbn [keywords].
    apply mapM_Some in E. clear -E.
    revert ks' E. induction (Str.split "," (k +:+ ",")) as [|x l IH]; intros ks' E.
    - now inversion E.
    - inversion E as [|? y ? l' Hx Hl]; subst. injection Hx as <-. f_equal. now apply IH. }
  split; [exact Hks|]. apply Hall. rewrite Hks. apply split_trailing_has_empty.
Qed.

Lemma empty_trigger_boosts_everything_witness :
  "" ∈ Str.split "," "knot," /\
  classify {| post_id := "gxvdih"; min_intensity := 0.2; max_upvotes := 100;
              keywords := Str.split "," "knot,"; multiplier := 1.5 |}
    "no keyword at all" = 1.5%float.
Proof.
  split.
  - apply elem_of_cons. right. apply elem_of_cons. now left.
  - apply (proj1 empty_trigger_boosts_everything).
    apply elem_of_cons. right. apply elem_of_cons. now left.
Defined.

End Classification.

(** ** Settings *)

Section Settings.

(** The saved document has the five keys and no other. *)
Lemma settings_doc_keys (s : settings) :
  exists d, settings_doc s = JObj d /\
    dom d = ({["post_id"; "min_intensity"; "max_upvotes"; "keywords"; "multiplier"]}
             : gset string).
Proof.
  eexists. split; [reflexivity|].
  rewrite !dom_insert_L, dom_empty_L. set_solver.
Qed.

(** Every run that resolves saves what it resolved. *)
Lemma load_or_reset_settings_saves (args : Args) (fs fs1 : cache_file) (s : settings) :
  load_or_reset_settings args fs = Ok (s, fs1) -> fs1 = Holds (settings_doc s).
Proof.
  unfold load_or_reset_settings. intros Hrun.
  repeat match type of Hrun with
         | (?m ≫= _) = _ => destruct m; [cbn [mbind result_bind] in Hrun | discriminate Hrun]
         end.
  now injection Hrun as <- <-.
Qed.

(** Resolving without overrides against a saved document gives the
    saved settings back. *)
Lemma load_or_reset_settings_reload (s : settings) :
  load_or_reset_settings no_overrides (Holds (settings_doc s))
  = Ok (s, Holds (settings_doc s)).
Proof. destruct s. reflexivity. Qed.

Lemma override_minimum (args : Args) (fs fs1 : cache_file) (s : settings) (m : float) :
  arg_minimum args = Some m ->
  load_or_reset_settings args fs = Ok (s, fs1) -> MIN_INTENSITY s = JFloat m.
Proof.
  unfold load_or_reset_settings. intros Hm Hrun. rewrite Hm in Hrun.
  repeat match type of Hrun with
         | (?m ≫= _) = _ => destruct m; [cbn [mbind result_bind] in Hrun | discriminate Hrun]
         end.
  now injection Hrun as <- _.
Qed.

(** C6. Settings round-trip. A run that resolves its settings writes
    all five fields to the cache, whichever came from overrides; the
    next run, with no overrides and no reset, resolves the same five
    values and leaves the same cache. In particular a first run with
    the override [minimum = m] (the spec's [0.3]) makes the second run
    resolve [MIN_INTENSITY = m]. *)
Theorem settings_round_trip (args : Args) (fs fs1 : cache_file) (s : settings) :
  load_or_reset_settings args fs = Ok (s, fs1) ->
  fs1 = Holds (settings_doc s) /\
  (exists d, settings_doc s = JObj d /\
     d !! "post_id" = Some (POST_ID s) /\
     d !! "min_intensity" = Some (MIN_INTENSITY s) /\
     d !! "max_upvotes" = Some (MAX_UPVOTES s) /\
     d !! "keywords" = Some (KEYWORD_LIST s) /\
     d !! "multiplier" = Some (KEYWORD_INTENSITY_MULTIPLIER s) /\
     dom d = ({["post_id"; "min_intensity"; "max_upvotes"; "keywords"; "multiplier"]}
              : gset string)) /\
  load_or_reset_settings no_overrides fs1 = Ok (s, fs1) /\
  (forall m, arg_minimum args = Some m ->
     exists s2 fs2, load_or_reset_settings no_overrides fs1 = Ok (s2, fs2) /\
       MIN_INTENSITY s2 = JFloat m).
Proof.
  intros Hrun. pose proof (load_or_reset_settings_saves _ _ _ _ Hrun) as ->.
  split; [reflexivity|]. split.
  - destruct (settings_doc_keys s) as (d & Hd & Hdom).
    exists d. split; [exact Hd|].
    injection Hd as <-. repeat split; first [reflexivity | exact Hdom].
  - split; [apply load_or_reset_settings_reload|].
    intros m Hm. exists s, (Holds (settings_doc s)).
    split; [apply load_or_reset_settings_reload|].
    exact (override_minimum _ _ _ _ _ Hm Hrun).
Qed.

(** The spec's example: a first run with [--minimum 0.3] on a machine
    without cache, then a run without options. *)
Definition minimum_0_3 : Args :=
  {| arg_id := None; arg_minimum := Some 0.3%float; arg_max_upvotes := None;
     arg_reset := false; arg_keywords := None; arg_multiplier := None |}.

Lemma settings_round_trip_witness :
  exists s fs1, load_or_reset_settings minimum_0_3 Missing = Ok (s, fs1) /\
    exists s2 fs2, load_or_reset_settings no_overrides fs1 = Ok (s2, fs2) /\
      MIN_INTENSITY s2 = JFloat 0.3.
Proof.
  eexists _, _. split; [reflexivity|].
  refine (proj2 (proj2 (proj2 (settings_round_trip minimum_0_3 Missing _ _ eq_refl)))
            0.3%float eq_refl).
Defined.

(** A missing cache resolves every field from its override or, without
    one, from the default. *)
Lemma resolve_missing (args : Args) :
  exists s, load_or_reset_settings args Missing = Ok (s, Holds (settings_doc s)) /\
    POST_ID s = match truthy_str (arg_id args) with
                | Some p => JStr p | None => JStr "gxvdih" end /\
    MIN_INTENSITY s = match arg_minimum args with
                      | Some m => JFloat m | None => JFloat 0.2 end /\
    MAX_UPVOTES s = match arg_max_upvotes args with
                    | Some u => JInt u | None => JInt 100 end /\
    KEYWORD_LIST s = match truthy_str (arg_keywords args) with
                     | Some k => JArr (JStr <$> Str.split "," k)
                     | None => default_keywords end /\
    KEYWORD_INTENSITY_MULTIPLIER s = match arg_multiplier args with
                                     | Some x => JFloat x | None => JFloat 1.5 end.
Proof.
  destruct args as [i m u r k x]. unfold load_or_reset_settings. cbn [arg_reset].
  replace (if r then Missing else Missing) with Missing by now destruct r.
  cbn [load_cached_settings mbind result_bind arg_id arg_minimum arg_max_upvotes
       arg_keywords arg_multiplier].
  destruct (truthy_str i), m, u, (truthy_str k), x;
    cbn; eexists; (split; [reflexivity|]); cbn; repeat split.
Qed.

(** C8, as the code has it. A missing cache file is loaded as the empty
    dictionary, without an exception, and resolution then takes every
    field that is not overridden from the defaults (the cache is then
    written). Content that is not JSON is not treated as an empty
    cache: [json.load] raises and the start-up stops, unless the run
    resets the cache first. *)
Theorem missing_cache_is_empty_malformed_raises :
  load_cached_settings Missing = Ok (JObj ∅) /\
  (forall args : Args,
     exists s, load_or_reset_settings args Missing = Ok (s, Holds (settings_doc s)) /\
       (arg_id args = None -> POST_ID s = JStr "gxvdih") /\
       (arg_minimum args = None -> MIN_INTENSITY s = JFloat 0.2) /\
       (arg_max_upvotes args = None -> MAX_UPVOTES s = JInt 100) /\
       (arg_keywords args = None -> KEYWORD_LIST s = default_keywords) /\
       (arg_multiplier args = None -> KEYWORD_INTENSITY_MULTIPLIER s = JFloat 1.5)) /\
  load_cached_settings Malformed = Raise JSONDecodeError /\
  (forall args : Args,
     load_or_reset_settings args Malformed =
       if arg_reset args then load_or_reset_settings args Missing
       else Raise JSONDecodeError).
Proof.
  split; [reflexivity|]. split.
  - intros args. destruct (resolve_missing args) as (s & Hs & H1 & H2 & H3 & H4 & H5).
    exists s. split; [exact Hs|].
    repeat split; intros E; rewrite E in *; assumption.
  - split; [reflexivity|].
    intros args. unfold load_or_reset_settings. now destruct (arg_reset args).
Qed.

(** The claim fails on malformed content: loading raises, and so does
    the resolution of a run without options. *)
Lemma malformed_cache_is_fatal :
  load_cached_settings Malformed = Raise JSONDecodeError /\
  load_cached_settings Malformed <> Ok (JObj ∅) /\
  load_or_reset_settings no_overrides Malformed = Raise JSONDecodeError.
Proof. repeat split. discriminate. Qed.

Definition reset_only : Args :=
  {| arg_id := None; arg_minimum := None; arg_max_upvotes := None;
     arg_reset := true; arg_keywords := None; arg_multiplier := None |}.

(** X1. Reset clears what earlier runs cached: a run with the reset flag
    resolves as if there were no cache file, whatever the file held
    (malformed content included), and with no other option it resolves
    and saves the built-in defaults. *)
Theorem reset_ignores_the_cache :
  (forall (args : Args) (fs : cache_file),
     arg_reset args = true ->
     load_or_reset_settings args fs = load_or_reset_settings args Missing) /\
  (forall fs : cache_file,
     exists s fs', load_or_reset_settings reset_only fs = Ok (s, fs') /\
       as_config s = Some default_config /\ fs' = Holds (settings_doc s)).
Proof.
  split.
  - intros args fs Hreset. unfold load_or_reset_settings. now rewrite Hreset.
  - intros fs. eexists _, _. split; [reflexivity|]. split; reflexivity.
Qed.

End Settings.

(** ** Reasoning about pieces of program *)

Section Programs.

Lemma bind_unfold {A B} (m : M A) (f : A -> M B) (seen : gset string) :
  (m ≫= f) seen =
  match m seen with
  | (t, seen', Done a) =>
      match f a seen' with
      | (t', seen'', o) => (t ++ t', seen'', o)
      end
  | (t, seen', Raised e) => (t, seen', Raised e)
  | (t, seen', Pending) => (t, seen', Pending)
  end.
Proof. reflexivity. Qed.

Lemma call_unfold {A} (e : event) (answer : result A) (seen : gset string) :
  call e answer seen =
  ([e], seen, match answer with Ok a => Done a | Raise x => Raised x end).
Proof. unfold call. rewrite bind_unfold. cbn. now destruct answer. Qed.

Lemma call_done {A} (e : event) (answer : result A) (seen : gset string) (a : A) :
  outcome_of (call e answer seen) = Done a -> answer = Ok a.
Proof. rewrite call_unfold. destruct answer; cbn; congruence. Qed.

(** Every event a piece of program produces satisfies [P]. *)
Definition always {A} (P : event -> Prop) (m : M A) : Prop :=
  forall seen, Forall P (trace_of (m seen)).

Context (P : event -> Prop).

Lemma always_ret {A} (a : A) : always P (mret a).
Proof. intros seen. constructor. Qed.

Lemma always_pending {A} : always P (@pending A).
Proof. intros seen. constructor. Qed.

Lemma always_get_seen : always P get_seen.
Proof. intros seen. constructor. Qed.

Lemma always_of_result {A} (r : result A) : always P (of_result r).
Proof. intros seen. destruct r; constructor. Qed.

Lemma always_emit (e : event) : P e -> always P (emit e).
Proof. intros H seen. now repeat constructor. Qed.

Lemma always_print (l : line) : P (Printed l) -> always P (print l).
Proof. apply always_emit. Qed.

Lemma always_seen_add (i : string) : P (SeenAdd i) -> always P (seen_add i).
Proof. intros H seen. now repeat constructor. Qed.

Lemma always_bind {A B} (m : M A) (f : A -> M B) :
  always P m ->
  (forall a seen, outcome_of (m seen) = Done a -> always P (f a)) ->
  always P (m ≫= f).
Proof.
  intros Hm Hf seen. rewrite bind_unfold.
  specialize (Hm seen).
  destruct (m seen) as [[t seen'] [a| |]] eqn:E; cbn in *; try assumption.
  pose proof (Hf a seen) as Hf'. rewrite E in Hf'. specialize (Hf' eq_refl seen').
  destruct (f a seen') as [[t' seen''] o]. cbn in *.
  apply Forall_app. now split.
Qed.

Lemma always_call {A} (e : event) (answer : result A) : P e -> always P (call e answer).
Proof.
  intros H seen. rewrite call_unfold. now repeat constructor.
Qed.

Lemma always_try_except {A} (body : M A) (handler : exn -> M A) :
  always P body -> (forall e, always P (handler e)) -> always P (try_except body handler).
Proof.
  intros Hb Hh seen. unfold try_except. specialize (Hb seen).
  destruct (body seen) as [[t seen'] [a|e|]]; cbn in *; try assumption.
  destruct (is_Exception e); cbn; [|assumption].
  specialize (Hh e seen'). destruct (handler e seen') as [[t' seen''] o]. cbn in *.
  apply Forall_app. now split.
Qed.

Lemma always_try_finally {A} (body : M A) (cleanup : M unit) :
  always P body -> always P cleanup -> always P (try_finally body cleanup).
Proof.
  intros Hb Hc seen. unfold try_finally. specialize (Hb seen).
  destruct (body seen) as [[t seen'] [a|e|]]; cbn in *; try assumption;
    specialize (Hc seen'); destruct (cleanup seen') as [[t' seen''] [[]|e'|]]; cbn in *;
    apply Forall_app; now split.
Qed.

End Programs.

(** A piece of program that never waits beyond the scripted answers. *)
Definition settles {A} (m : M A) : Prop :=
  forall seen, outcome_of (m seen) <> Pending.

Lemma settles_ret {A} (a : A) : settles (mret a).
Proof. intros seen. discriminate. Qed.

Lemma settles_emit (e : event) : settles (emit e).
Proof. intros seen. discriminate. Qed.

Lemma settles_seen_add (i : string) : settles (seen_add i).
Proof. intros seen. discriminate. Qed.

Lemma settles_get_seen : settles get_seen.
Proof. intros seen. discriminate. Qed.

Lemma settles_of_result {A} (r : result A) : settles (of_result r).
Proof. intros seen. destruct r; discriminate. Qed.

Lemma settles_call {A} (e : event) (answer : result A) : settles (call e answer).
Proof. intros seen. rewrite call_unfold. destruct answer; discriminate. Qed.

Lemma settles_bind {A B} (m : M A) (f : A -> M B) :
  settles m -> (forall a, settles (f a)) -> settles (m ≫= f).
Proof.
  intros Hm Hf seen. rewrite bind_unfold. specialize (Hm seen).
  destruct (m seen) as [[t seen'] [a|e|]]; cbn in *; try discriminate; [|congruence].
  specialize (Hf a seen'). now destruct (f a seen') as [[t' seen''] o].
Qed.

Lemma send_vibration_settles (io : pulse_io) (x : float) : settles (send_vibration io x).
Proof.
  unfold send_vibration, print. destruct (client_devices io) as [|d ?].
  - apply settles_emit.
  - destruct (actuators d) as [|a ?]; [apply settles_emit|].
    repeat first [apply settles_call | apply settles_emit
                 | apply settles_bind; [|intros ?]].
Qed.

Lemma for_comments_settles (cfg : config) (sub : submission) (pulses : nat -> pulse_io)
    (k : nat) (new_comments : list comment) :
  settles (for_comments cfg sub pulses k new_comments).
Proof.
  revert k. induction new_comments as [|c rest IH]; intros k; cbn [for_comments].
  - apply settles_ret.
  - apply settles_bind; [|intros ?; apply IH].
    unfold handle_comment, print.
    repeat first [ apply settles_seen_add | apply settles_emit | apply settles_of_result
                 | apply send_vibration_settles
                 | apply settles_bind; [|intros ?] ].
    destruct (any_keyword cfg _); [apply settles_emit | apply settles_ret].
Qed.

Lemma cycle_settles (cfg : config) (io : cycle_io) : settles (cycle cfg io).
Proof.
  unfold cycle.
  apply settles_bind; [apply settles_get_seen | intros seen_ids].
  apply settles_bind; [apply settles_call | intros [sub new_comments]].
  apply settles_bind; [apply for_comments_settles | intros ?; apply settles_call].
Qed.

(** One step through a sequence: the head on the first goal, the rest
    of the sequence on the second. *)
Ltac always_seq :=
  repeat lazymatch goal with
         | |- always _ (_ ≫= _) => apply always_bind; [|intros ? ? _]
         end.

(** ** The score handed to [calculate_intensity] *)

Section ScoreSubstitution.

Lemma or_1_spec (x : Z) :
  or_1 x <> 0%Z /\ (x = 0%Z -> or_1 x = 1%Z) /\ (x <> 0%Z -> or_1 x = x).
Proof. unfold or_1. destruct (decide (x = 0%Z)); repeat split; intros; congruence. Qed.

(** The calls of [calculate_intensity] pass the fetched score of some
    scripted turn through [or 1]. *)
Definition passes_fetched_score (turns : list cycle_io) (e : event) : Prop :=
  match e with
  | CalculateIntensity post_score _ =>
      exists io sub, io ∈ turns /\ fetch io = Ok sub /\ post_score = or_1 (score sub)
  | _ => True
  end.

Lemma send_vibration_passes (turns : list cycle_io) (io : pulse_io) (x : float) :
  always (passes_fetched_score turns) (send_vibration io x).
Proof.
  unfold send_vibration. destruct (client_devices io) as [|d ?].
  - now apply always_print.
  - destruct (actuators d) as [|a ?]; [now apply always_print|].
    always_seq; first [now apply always_call | now apply always_print].
Qed.

Lemma for_comments_passes (turns : list cycle_io) (cfg : config) (io : cycle_io)
    (sub : submission) (k : nat) (new_comments : list comment) :
  io ∈ turns -> fetch io = Ok sub ->
  always (passes_fetched_score turns) (for_comments cfg sub (pulses io) k new_comments).
Proof.
  intros Hin Hsub. revert k.
  induction new_comments as [|c rest IH]; intros k; cbn [for_comments].
  - apply always_ret.
  - apply always_bind; [|intros ? ? _; apply IH].
    unfold handle_comment.
    always_seq;
      try first [ now apply always_seen_add | now apply always_print
                | apply always_of_result | apply send_vibration_passes ].
    + destruct (any_keyword cfg _); [now apply always_print | apply always_ret].
    + apply always_emit. now exists io, sub.
Qed.

Lemma cycle_passes (turns : list cycle_io) (cfg : config) (io : cycle_io) :
  io ∈ turns -> always (passes_fetched_score turns) (cycle cfg io).
Proof.
  intros Hin. unfold cycle.
  apply always_bind; [apply always_get_seen|]. intros seen_ids ? _.
  apply always_bind; [now apply always_call|]. intros [sub new_comments] seen0 Hdone.
  apply call_done in Hdone.
  assert (Hsub : fetch io = Ok sub).
  { unfold get_new_comments in Hdone. destruct (fetch io); [|discriminate Hdone].
    cbn in Hdone. now injection Hdone as <- _. }
  apply always_bind; [now apply for_comments_passes|].
  intros ? ? _. now apply always_call.
Qed.

Lemma monitor_passes (turns : list cycle_io) (cfg : config) (todo : list cycle_io) :
  todo ⊆ turns -> always (passes_fetched_score turns) (monitor cfg todo).
Proof.
  induction todo as [|io rest IH]; intros Hsub; cbn [monitor].
  - apply always_pending.
  - apply always_bind.
    + apply cycle_passes. apply Hsub. now left.
    + intros ? ? _. apply IH. intros x Hx. apply Hsub. now right.
Qed.

Lemma main_passes (cfg : config) (w : world) :
  always (passes_fetched_score (cycles w)) (main cfg w).
Proof.
  unfold main. apply always_bind.
  - apply always_try_except.
    + always_seq; first [now apply always_call | apply always_ret].
    + intros e. apply always_bind; [now apply always_print | intros ? ? _; apply always_ret].
  - intros [|] ? _; [|apply always_ret].
    always_seq; try first [now apply always_call | now apply always_print].
    unfold monitoring. apply always_try_finally.
    + apply always_try_except; [now apply monitor_passes|].
      intros e. now apply always_print.
    + apply always_bind; [now apply always_call | intros ? ? _; now apply always_print].
Qed.

Lemma calls_pass_score_or_1 (cfg : config) (w : world)
    (post_score : Z) (multiplier : float) :
  CalculateIntensity post_score multiplier ∈ trace_of (run cfg w) ->
  exists io sub, io ∈ cycles w /\ fetch io = Ok sub /\ post_score = or_1 (score sub).
Proof.
  intros Hin. pose proof (main_passes cfg w ∅) as Hall.
  rewrite Forall_forall in Hall. exact (Hall _ Hin).
Qed.

(** C2, as the code has it. In every run, each call of
    [calculate_intensity] receives [score or 1] for the score fetched
    in some turn: a zero score is replaced by 1, any other score,
    negative ones included, is passed unchanged; so the intensity
    function is only ever called with a non-zero score. *)
Theorem intensity_called_with_score_or_1 (cfg : config) (w : world)
    (post_score : Z) (multiplier : float) :
  CalculateIntensity post_score multiplier ∈ trace_of (run cfg w) ->
  post_score <> 0%Z /\
  exists io sub, io ∈ cycles w /\ fetch io = Ok sub /\
    (score sub = 0%Z -> post_score = 1%Z) /\
    (score sub <> 0%Z -> post_score = score sub).
Proof.
  intros Hin. apply calls_pass_score_or_1 in Hin as (io & sub & Hio & Hsub & ->).
  destruct (or_1_spec (score sub)) as (Hnz & Hz & Hid).
  split; [exact Hnz|]. now exists io, sub.
Qed.

Definition steady_pulse : pulse_io :=
  {| client_devices := [ {| actuators := [0%nat] |} ];
     command_on := Ok tt; hold := Ok tt; command_off := Ok tt |}.

Definition turn (s : Z) (cs : list comment) : cycle_io :=
  {| fetch := Ok {| score := s; comments := cs |};
     pulses := fun _ => steady_pulse; pause := Ok tt |}.

Definition calm_world (turns : list cycle_io) : world :=
  {| connect := Ok tt; start_scanning := Ok tt; scan_sleep := Ok tt;
     stop_scanning := Ok tt; title := Ok "thread"; cycles := turns;
     disconnect := Ok tt |}.

Definition plain_comment : comment :=
  {| comment_id := "c1"; comment_author := Some "ann"; comment_body := "first" |}.

(** A thread without votes: the score 0 reaches the intensity function
    as 1. *)
Lemma intensity_called_with_score_or_1_witness :
  CalculateIntensity 1 1.0
    ∈ trace_of (run default_config (calm_world [turn 0 [plain_comment]])) /\
  (1 <> 0)%Z.
Proof.
  assert (Hin : CalculateIntensity 1 1.0
      ∈ trace_of (run default_config (calm_world [turn 0 [plain_comment]]))).
  { vm_compute. repeat first [apply list_elem_of_here | apply list_elem_of_further]. }
  split; [exact Hin|].
  exact (proj1 (intensity_called_with_score_or_1 _ _ _ _ Hin)).
Defined.

(** The claim fails on a negative score: a thread at -5 has its
    intensity computed from -5, not from 1. *)
Lemma negative_score_is_not_substituted :
  or_1 (-5) = (-5)%Z /\
  CalculateIntensity (-5) 1.0
    ∈ trace_of (run default_config (calm_world [turn (-5) [plain_comment]])) /\
  CalculateIntensity 1 1.0
    ∉ trace_of (run default_config (calm_world [turn (-5) [plain_comment]])).
Proof.
  split; [reflexivity|]. split.
  - vm_compute. repeat first [apply list_elem_of_here | apply list_elem_of_further].
  - intros Hin. apply calls_pass_score_or_1 in Hin as (io & sub & Hio & Hsub & H).
    cbn in Hio. apply list_elem_of_singleton in Hio as ->. cbn in Hsub.
    injection Hsub as <-. discriminate H.
Qed.

End ScoreSubstitution.

(** ** Exceptions in the loop, and the shutdown *)

Section Shutdown.

(** Turns that ran through are followed by the next ones. *)
Lemma monitor_app (cfg : config) (before rest : list cycle_io)
    (seen seen1 : gset string) (t0 : list event) :
  monitor cfg before seen = (t0, seen1, Pending) ->
  monitor cfg (before ++ rest) seen =
    match monitor cfg rest seen1 with
    | (t, seen2, o) => (t0 ++ t, seen2, o)
    end.
Proof.
  revert seen t0. induction before as [|io before IH]; intros seen t0 H.
  - cbn in H. injection H as <- <-. cbn [app].
    now destruct (monitor cfg rest seen) as [[t s] o].
  - cbn [app monitor] in *. rewrite bind_unfold in *.
    pose proof (cycle_settles cfg io seen) as Hsettles.
    destruct (cycle cfg io seen) as [[t seen'] [[]| |]]; try discriminate H;
      [|now destruct Hsettles].
    destruct (monitor cfg before seen') as [[t' seen''] o] eqn:E.
    injection H as Ht Hs Ho. subst t0 seen'' o. rewrite (IH _ _ E).
    destruct (monitor cfg rest seen1) as [[t2 s2] o2]. now rewrite app_assoc.
Qed.

(** A turn that raises ends the loop with that exception. *)
Lemma monitor_raises (cfg : config) (io : cycle_io) (after : list cycle_io)
    (seen seen2 : gset string) (t1 : list event) (e : exn) :
  cycle cfg io seen = (t1, seen2, Raised e) ->
  monitor cfg (io :: after) seen = (t1, seen2, Raised e).
Proof. intros H. cbn [monitor]. rewrite bind_unfold. now rewrite H. Qed.

(** The end of a run whose loop raised [e], an [Exception]. *)
Definition shutdown_after (e : exn) (bye : result unit) : list event :=
  Printed (RuntimeError e) :: Disconnect ::
  match bye with Ok _ => [Printed BotShutDown] | Raise _ => [] end.

(** C3, as the code has it. No exception is handled per comment or
    per turn: the only handler is the one around the whole loop. When
    a turn raises an [Exception] at any point (fetching, classifying
    or actuating), after earlier turns that ran through, the error is
    printed once, the disconnect is attempted and [main] is left: the
    trace ends there and the turns scripted after it never run. *)
Theorem exception_in_turn_ends_monitoring (cfg : config) (before after : list cycle_io)
    (io : cycle_io) (bye : result unit) (seen seen1 seen2 : gset string)
    (t0 t1 : list event) (e : exn) :
  monitor cfg before seen = (t0, seen1, Pending) ->
  cycle cfg io seen1 = (t1, seen2, Raised e) ->
  is_Exception e = true ->
  monitoring cfg (before ++ io :: after) bye seen =
    (t0 ++ t1 ++ shutdown_after e bye, seen2,
     match bye with Ok _ => Done tt | Raise e' => Raised e' end).
Proof.
  intros Hbefore Hio He. unfold monitoring, try_finally, try_except.
  rewrite (monitor_app _ _ _ _ _ _ Hbefore), (monitor_raises _ _ _ _ _ _ _ Hio), He.
  unfold shutdown_after.
  change (print (RuntimeError e) seen2) with ([Printed (RuntimeError e)], seen2, Done tt).
  cbv beta iota. rewrite bind_unfold, call_unfold.
  destruct bye as [[]|e']; cbn; rewrite <- ?app_assoc; reflexivity.
Qed.

(** Whenever the [try] statement of the loop is left, the disconnect
    has been attempted. *)
Lemma monitoring_exit_disconnects (cfg : config) (turns : list cycle_io)
    (bye : result unit) (seen : gset string) :
  outcome_of (monitoring cfg turns bye seen) <> Pending ->
  Disconnect ∈ trace_of (monitoring cfg turns bye seen).
Proof.
  unfold monitoring, try_finally.
  destruct (try_except _ _ seen) as [[t seen'] o].
  rewrite bind_unfold, call_unfold.
  destruct o as [[]|e|]; cbn; intros H; try (now destruct H);
    destruct bye as [[]|e']; cbn; apply elem_of_app; right; apply list_elem_of_here.
Qed.

Definition fetch_fails (e : exn) : cycle_io :=
  {| fetch := Raise e; pulses := fun _ => steady_pulse; pause := Ok tt |}.

Definition second_comment : comment :=
  {| comment_id := "c2"; comment_author := None; comment_body := "second" |}.

(** A turn whose first pulse fails when the level is sent. *)
Definition command_fails (s : Z) (cs : list comment) (e : exn) : cycle_io :=
  {| fetch := Ok {| score := s; comments := cs |};
     pulses := fun _ => {| client_devices := [ {| actuators := [0%nat] |} ];
                           command_on := Raise e; hold := Ok tt; command_off := Ok tt |};
     pause := Ok tt |}.

(** One quiet turn, then a fetch that times out, then a turn that is
    never reached. *)
Lemma exception_in_turn_ends_monitoring_witness :
  monitoring default_config
    ([turn 10 []] ++ fetch_fails (OtherException "timeout") :: [turn 10 [plain_comment]])
    (Ok tt) ∅ =
  ([GetNewComments ∅ (Ok []); Sleep 1;
    GetNewComments ∅ (Raise (OtherException "timeout"));
    Printed (RuntimeError (OtherException "timeout")); Disconnect; Printed BotShutDown],
   ∅, Done tt).
Proof.
  exact (exception_in_turn_ends_monitoring default_config [turn 10 []]
           [turn 10 [plain_comment]] (fetch_fails (OtherException "timeout")) (Ok tt)
           ∅ ∅ ∅ [GetNewComments ∅ (Ok []); Sleep 1]
           [GetNewComments ∅ (Raise (OtherException "timeout"))]
           (OtherException "timeout") eq_refl eq_refl eq_refl).
Defined.

Definition device_lost_world : world :=
  calm_world [command_fails 10 [plain_comment; second_comment]
                (OtherException "device lost"); turn 10 []].

(** The claim fails. A fetch that raises in the first turn ends the
    run, although a second turn is scripted; and a pulse that raises
    for the first comment of a turn leaves the second comment of that
    turn unhandled. *)
Lemma recoverable_error_aborts_monitoring :
  run default_config
    (calm_world [fetch_fails (OtherException "timeout"); turn 10 [plain_comment]]) =
  ([Connect; StartScanning; Sleep 1; StopScanning; FetchTitle;
    Printed (MonitoringPost "thread"); Printed (MaxUpvotes 100); Printed (MinIntensity 0.2);
    Printed (KeywordTriggers ["knot"; "puppy"; "gock"; "stupid"; "choke"]);
    Printed (KeywordMultiplier 1.5);
    GetNewComments ∅ (Raise (OtherException "timeout"));
    Printed (RuntimeError (OtherException "timeout")); Disconnect; Printed BotShutDown],
   ∅, Done tt) /\
  (outcome_of (run default_config device_lost_world) = Done tt) /\
  (SeenAdd "c1" ∈ trace_of (run default_config device_lost_world)) /\
  (SeenAdd "c2" ∉ trace_of (run default_config device_lost_world)) /\
  (Printed (RuntimeError (OtherException "device lost"))
    ∈ trace_of (run default_config device_lost_world)).
Proof.
  split; [reflexivity|]. split; [reflexivity|].
  split; [|split]; vm_compute.
  - repeat first [apply list_elem_of_here | apply list_elem_of_further].
  - intros H. repeat (apply elem_of_cons in H as [H|H]; [discriminate H|]).
    now apply elem_of_nil in H.
  - repeat first [apply list_elem_of_here | apply list_elem_of_further].
Qed.

(** C4. The disconnect is attempted on every exit of the [try]
    statement around the loop, whether an exception was handled or an
    interrupt passes through (first part). It is not attempted on the
    exits of [main] that come before that statement, although the
    session is established: when the scan cannot start, the handler
    prints and returns (second part); when the title of the thread
    cannot be fetched, the exception leaves [main] (third part). *)
Theorem session_left_open_before_loop :
  (forall (cfg : config) (turns : list cycle_io) (bye : result unit) (seen : gset string),
     outcome_of (monitoring cfg turns bye seen) <> Pending ->
     Disconnect ∈ trace_of (monitoring cfg turns bye seen)) /\
  run default_config
    {| connect := Ok tt; start_scanning := Raise (OtherException "scan");
       scan_sleep := Ok tt; stop_scanning := Ok tt; title := Ok "thread";
       cycles := []; disconnect := Ok tt |} =
  ([Connect; StartScanning; Printed (CouldNotConnect (OtherException "scan"))],
   ∅, Done tt) /\
  run default_config
    {| connect := Ok tt; start_scanning := Ok tt;
       scan_sleep := Ok tt; stop_scanning := Ok tt;
       title := Raise (OtherException "not found");
       cycles := []; disconnect := Ok tt |} =
  ([Connect; StartScanning; Sleep 1; StopScanning; FetchTitle],
   ∅, Raised (OtherException "not found")).
Proof.
  split; [exact monitoring_exit_disconnects|]. split; reflexivity.
Qed.

End Shutdown.

(** ** De-duplication *)

Section Deduplication.

(** Events that neither read nor change [seen_comment_ids]. *)
Definition quiet (e : event) : Prop :=
  match e with
  | SeenAdd _ | GetNewComments _ _ => False
  | _ => True
  end.

(** The discipline of the loop, read off a trace. A state is the set
    [seen_comment_ids] together with the comments that the last fetch
    returned and that are still due. A fetch is made with the current
    set, when nothing is due, and returns comments whose ids are not in
    the set; an addition to the set is for the next comment due. *)
Inductive follows :
  gset string * list comment -> list event -> gset string * list comment -> Prop :=
| follows_nil st :
    follows st [] st
| follows_add seen c due t st :
    follows ({[comment_id c]} ∪ seen, due) t st ->
    follows (seen, c :: due) (SeenAdd (comment_id c) :: t) st
| follows_fetch seen new t st :
    (forall c, c ∈ new -> comment_id c ∉ seen) ->
    follows (seen, new) t st ->
    follows (seen, []) (GetNewComments seen (Ok new) :: t) st
| follows_fetch_raise seen e t st :
    follows (seen, []) t st ->
    follows (seen, []) (GetNewComments seen (Raise e) :: t) st
| follows_quiet st0 e t st :
    quiet e -> follows st0 t st -> follows st0 (e :: t) st.

Lemma follows_app st0 t st1 t' st2 :
  follows st0 t st1 -> follows st1 t' st2 -> follows st0 (t ++ t') st2.
Proof.
  induction 1; intros H'; cbn [app]; try (econstructor; eauto; fail). exact H'.
Qed.


Lemma follows_grows st0 t st1 : follows st0 t st1 -> st0.1 ⊆ st1.1.
Proof. induction 1; cbn in *; set_solver. Qed.


Lemma follows_fetch_inv st0 s r t st1 :
  follows st0 (GetNewComments s r :: t) st1 ->
  st0 = (s, []) /\
  match r with
  | Ok new => (forall c, c ∈ new -> comment_id c ∉ s) /\ follows (s, new) t st1
  | Raise _ => follows (s, []) t st1
  end.
Proof.
  intros H. inversion H; subst; [now split | now split |].
  match goal with Hq : quiet _ |- _ => now destruct Hq end.
Qed.



Lemma follows_all_quiet st (t : list event) : Forall quiet t -> follows st t st.
Proof. induction 1; [constructor | now apply follows_quiet]. Qed.

(** A piece of program that leaves [seen_comment_ids] alone. *)
Definition silent {A} (m : M A) : Prop :=
  forall seen, Forall quiet (trace_of (m seen)) /\ seen_of (m seen) = seen.

Lemma silent_ret {A} (a : A) : silent (mret a).
Proof. intros seen. split; [constructor | reflexivity]. Qed.

Lemma silent_of_result {A} (r : result A) : silent (of_result r).
Proof. intros seen. destruct r; (split; [constructor | reflexivity]). Qed.

Lemma silent_emit (e : event) : quiet e -> silent (emit e).
Proof. intros H seen. split; [now repeat constructor | reflexivity]. Qed.

Lemma silent_call {A} (e : event) (answer : result A) : quiet e -> silent (call e answer).
Proof.
  intros H seen. rewrite call_unfold. split; [now repeat constructor | reflexivity].
Qed.

Lemma silent_bind {A B} (m : M A) (f : A -> M B) :
  silent m -> (forall a, silent (f a)) -> silent (m ≫= f).
Proof.
  intros Hm Hf seen. rewrite bind_unfold. destruct (Hm seen) as [Ht Hs].
  destruct (m seen) as [[t seen'] [a|e|]]; cbn in *; subst seen'; try now split.
  destruct (Hf a seen) as [Ht' Hs']. destruct (f a seen) as [[t' seen''] o]. cbn in *.
  split; [now apply Forall_app | exact Hs'].
Qed.

Ltac silent_seq :=
  repeat lazymatch goal with
         | |- silent (_ ≫= _) => apply silent_bind; [|intros ?]
         end.

Lemma send_vibration_silent (io : pulse_io) (x : float) : silent (send_vibration io x).
Proof.
  unfold send_vibration, print. destruct (client_devices io) as [|d ?].
  - now apply silent_emit.
  - destruct (actuators d) as [|a ?]; [now apply silent_emit|].
    silent_seq; first [now apply silent_call | now apply silent_emit].
Qed.

(** Handling a comment adds its id first; nothing else touches the set. *)
Lemma handle_comment_trace (cfg : config) (sub : submission) (io : pulse_io)
    (c : comment) (seen : gset string) :
  exists t, trace_of (handle_comment cfg sub io c seen) = SeenAdd (comment_id c) :: t /\
    Forall quiet t /\
    seen_of (handle_comment cfg sub io c seen) = {[comment_id c]} ∪ seen.
Proof.
  unfold handle_comment. rewrite bind_unfold.
  change (seen_add (comment_id c) seen)
    with ([SeenAdd (comment_id c)], {[comment_id c]} ∪ seen, Done tt).
  cbv beta iota.
  match goal with |- context [?rest ({[comment_id c]} ∪ seen)] =>
    assert (Hs : silent rest) end.
  { unfold print. silent_seq;
      try first [ now apply silent_emit | apply silent_of_result
                | apply send_vibration_silent ].
    destruct (any_keyword cfg _); [now apply silent_emit | apply silent_ret]. }
  destruct (Hs ({[comment_id c]} ∪ seen)) as [Hq Hseen].
  match goal with |- context [?rest ({[comment_id c]} ∪ seen)] =>
    destruct (rest ({[comment_id c]} ∪ seen)) as [[t seen'] o] end.
  cbn in *. now exists t.
Qed.

(** The loop over the new comments works the due comments off, in
    order; when it ends normally none is left. *)
Lemma for_comments_follows (cfg : config) (sub : submission) (pulses : nat -> pulse_io)
    (new_comments : list comment) : forall (k : nat) (seen : gset string),
  exists due,
    follows (seen, new_comments)
      (trace_of (for_comments cfg sub pulses k new_comments seen))
      (seen_of (for_comments cfg sub pulses k new_comments seen), due) /\
    (forall u, outcome_of (for_comments cfg sub pulses k new_comments seen) = Done u ->
       due = []).
Proof.
  induction new_comments as [|c rest IH]; intros k seen; cbn [for_comments].
  - exists []. split; [constructor | reflexivity].
  - rewrite bind_unfold.
    destruct (handle_comment_trace cfg sub (pulses k) c seen) as (t & Ht & Hq & Hs).
    destruct (handle_comment cfg sub (pulses k) c seen) as [[t0 seen0] o0].
    cbn in Ht, Hs. subst t0 seen0.
    destruct o0 as [[]|e|].
    + destruct (IH (S k) ({[comment_id c]} ∪ seen)) as (due & Hf & Hd).
      destruct (for_comments cfg sub pulses (S k) rest _) as [[t1 seen1] o1].
      cbn in *. exists due. split; [|exact Hd].
      apply follows_add. apply follows_app with (st1 := ({[comment_id c]} ∪ seen, rest));
        [now apply follows_all_quiet | exact Hf].
    + exists rest. cbn. split; [|discriminate].
      apply follows_add. now apply follows_all_quiet.
    + exists rest. cbn. split; [|discriminate].
      apply follows_add. now apply follows_all_quiet.
Qed.

Lemma filter_unseen (seen : gset string) (cs : list comment) (c : comment) :
  c ∈ filter (fun comment => comment_id comment ∉ seen) cs -> comment_id c ∉ seen.
Proof. intros H. now apply list_elem_of_filter in H as [H _]. Qed.

(** A turn starts with nothing due and, when it ends normally, leaves
    nothing due. *)
Lemma cycle_follows (cfg : config) (io : cycle_io) (seen : gset string) :
  exists due,
    follows (seen, []) (trace_of (cycle cfg io seen)) (seen_of (cycle cfg io seen), due) /\
    (forall u, outcome_of (cycle cfg io seen) = Done u -> due = []).
Proof.
  unfold cycle. rewrite bind_unfold. cbn [get_seen]. cbv beta iota.
  rewrite bind_unfold, call_unfold. unfold get_new_comments.
  destruct (fetch io) as [sub|e]; cbn [mbind result_bind fmap result_fmap snd].
  - rewrite bind_unfold.
    destruct (for_comments_follows cfg sub (pulses io)
                (filter (fun comment => comment_id comment ∉ seen) (comments sub)) 0 seen)
      as (due & Hf & Hd).
    destruct (for_comments cfg sub (pulses io) 0 _ seen) as [[t1 seen1] o1].
    cbn in Hf, Hd. destruct o1 as [[]|e|].
    + rewrite call_unfold. specialize (Hd tt eq_refl). subst due.
      exists []. cbn. split; [|reflexivity].
      apply follows_fetch; [apply filter_unseen|].
      apply follows_app with (st1 := (seen1, [])); [exact Hf|].
      apply follows_quiet; [exact I | constructor].
    + exists due. cbn. split; [|discriminate].
      apply follows_fetch; [apply filter_unseen | exact Hf].
    + exists due. cbn. split; [|discriminate].
      apply follows_fetch; [apply filter_unseen | exact Hf].
  - exists []. cbn. split; [|discriminate].
    apply follows_fetch_raise. constructor.
Qed.












Definition knot_comment : comment :=
  {| comment_id := "k9"; comment_author := Some "bob"; comment_body := "what a KNOT" |}.

(** Two turns over a thread that keeps listing its first comment: the
    second fetch is made with that comment's id and returns only the
    new one. *)
Example second_turn_skips_seen_comment :
  trace_of (monitor default_config
              [turn 10 [plain_comment]; turn 10 [plain_comment; knot_comment]] ∅) =
  [GetNewComments ∅ (Ok [plain_comment]);
   SeenAdd "c1"; Printed (NewComment (Some "ann") "first");
   CalculateIntensity 10 1; Printed (PostScore 10 0.28);
   Command 0 0.28; Printed (SentVibration 0.28 2); Sleep 2; Command 0 0; Sleep 1;
   GetNewComments {["c1"]} (Ok [knot_comment]);
   SeenAdd "k9"; Printed (NewComment (Some "bob") "what a KNOT");
   Printed (KeywordDetected 1.5);
   CalculateIntensity 10 1.5; Printed (PostScore 10 0.42000000000000004);
   Command 0 0.42000000000000004; Printed (SentVibration 0.42000000000000004 2);
   Sleep 2; Command 0 0; Sleep 1].
Proof. reflexivity. Qed.

Definition two_turns : world :=
  calm_world [turn 10 [plain_comment]; turn 10 [plain_comment; knot_comment]].


End Deduplication.

(** * Binary64 arithmetic

    What the intensity function computes rests on the rounding of the
    float operations. [SpecFloat] defines them on mantissas and
    exponents; this part relates them to the real numbers they stand
    for: each operation returns the exact result rounded to nearest,
    ties to even, and that rounding is monotone. *)

Module Binary64.

Local Open Scope Z_scope.

(** ** Powers of two with integer exponents *)

Definition bpow (e : Z) : R := powerRZ 2 e.

Lemma bpow_gt_0 (e : Z) : (0 < bpow e)%R.
Proof. apply powerRZ_lt. lra. Qed.

Lemma bpow_add (a b : Z) : bpow (a + b) = (bpow a * bpow b)%R.
Proof. apply powerRZ_add. lra. Qed.

Lemma bpow_0 : bpow 0 = 1%R.
Proof. reflexivity. Qed.

Lemma bpow_1 : bpow 1 = 2%R.
Proof. exact (powerRZ_1 2). Qed.

Lemma bpow_succ (e : Z) : bpow (e + 1) = (2 * bpow e)%R.
Proof. rewrite bpow_add, bpow_1. lra. Qed.

Lemma bpow_IZR (n : Z) : 0 <= n -> bpow n = IZR (2 ^ n).
Proof.
  intros Hn. destruct n as [|p|p]; [reflexivity| |lia].
  unfold bpow. cbn [powerRZ]. rewrite pow_IZR. now rewrite positive_nat_Z.
Qed.

Lemma bpow_ge_1 (n : Z) : 0 <= n -> (1 <= bpow n)%R.
Proof.
  intros Hn. rewrite bpow_IZR by exact Hn. apply IZR_le.
  pose proof (Z.pow_pos_nonneg 2 n). lia.
Qed.

Lemma bpow_le (a b : Z) : a <= b -> (bpow a <= bpow b)%R.
Proof.
  intros H. replace b with (a + (b - a)) by lia. rewrite bpow_add.
  pose proof (bpow_gt_0 a). pose proof (bpow_ge_1 (b - a) ltac:(lia)). nra.
Qed.

Lemma bpow_lt (a b : Z) : a < b -> (bpow a < bpow b)%R.
Proof.
  intros H. apply Rlt_le_trans with (bpow (a + 1)).
  - rewrite bpow_succ. pose proof (bpow_gt_0 a). lra.
  - apply bpow_le. lia.
Qed.

(** ** The value of a mantissa and an exponent *)

Definition F2R (m e : Z) : R := (IZR m * bpow e)%R.

Lemma F2R_0 (e : Z) : F2R 0 e = 0%R.
Proof. unfold F2R. lra. Qed.

Lemma F2R_le (m n e : Z) : m <= n -> (F2R m e <= F2R n e)%R.
Proof.
  intros H. unfold F2R. apply IZR_le in H. pose proof (bpow_gt_0 e). nra.
Qed.

Lemma F2R_lt (m n e : Z) : m < n -> (F2R m e < F2R n e)%R.
Proof.
  intros H. unfold F2R. apply IZR_lt in H. pose proof (bpow_gt_0 e). nra.
Qed.

Lemma F2R_lt_inv (m n e : Z) : (F2R m e < F2R n e)%R -> m < n.
Proof.
  intros H. destruct (Z_lt_le_dec m n) as [|Hle]; [assumption|].
  apply (F2R_le _ _ e) in Hle. lra.
Qed.

Lemma F2R_le_inv (m n e : Z) : (F2R m e <= F2R n e)%R -> m <= n.
Proof.
  intros H. destruct (Z_le_gt_dec m n) as [|Hgt]; [assumption|].
  apply Z.gt_lt, (F2R_lt _ _ e) in Hgt. lra.
Qed.

Lemma F2R_succ (m e : Z) : F2R (m + 1) e = (F2R m e + bpow e)%R.
Proof. unfold F2R. rewrite plus_IZR. lra. Qed.

(** Moving the exponent: [m * 2^k] at [e] is [m] at [e + k]. *)
Lemma F2R_shift (m e k : Z) : 0 <= k -> F2R (m * 2 ^ k) e = F2R m (e + k).
Proof.
  intros Hk. unfold F2R. rewrite mult_IZR, bpow_add, <- (bpow_IZR k) by exact Hk. lra.
Qed.

Lemma F2R_pow (n e : Z) : 0 <= n -> F2R (2 ^ n) e = bpow (n + e).
Proof. intros Hn. unfold F2R. now rewrite bpow_add, (bpow_IZR n) by exact Hn. Qed.

(** ** Number of binary digits *)

Lemma digits2_pos_bounds (p : positive) :
  2 ^ (Zpos (digits2_pos p) - 1) <= Zpos p < 2 ^ Zpos (digits2_pos p).
Proof.
  induction p as [p IH|p IH|]; cbn [digits2_pos]; [| |cbn; lia];
    rewrite Pos2Z.inj_succ;
    replace (Z.succ (Zpos (digits2_pos p)) - 1) with (Z.succ (Zpos (digits2_pos p) - 1))
      by lia;
    rewrite !Z.pow_succ_r by lia; lia.
Qed.

Lemma Zdigits2_pos (m : Z) : 0 < m -> 0 < Zdigits2 m.
Proof. destruct m; cbn; lia. Qed.

Lemma Zdigits2_nonneg (m : Z) : 0 <= m -> 0 <= Zdigits2 m.
Proof. destruct m; cbn; lia. Qed.

Lemma Zdigits2_bounds (m : Z) :
  0 < m -> 2 ^ (Zdigits2 m - 1) <= m < 2 ^ Zdigits2 m.
Proof. destruct m as [|p|p]; try lia. intros _. apply digits2_pos_bounds. Qed.

Lemma Zdigits2_unique (m d : Z) : 2 ^ (d - 1) <= m < 2 ^ d -> 0 < m -> Zdigits2 m = d.
Proof.
  intros [Hlo Hhi] Hm. destruct (Zdigits2_bounds m Hm) as [Hlo' Hhi'].
  pose proof (Zdigits2_pos m Hm) as Hd.
  assert (Hd' : 0 < d).
  { destruct (Z_lt_le_dec 0 d) as [|Hle]; [assumption|].
    destruct (Z.eq_dec d 0) as [->|Hne]; [cbn in Hhi; lia|].
    rewrite (Z.pow_neg_r 2 d) in Hhi by lia. lia. }
  destruct (Z.lt_trichotomy (Zdigits2 m) d) as [Hlt|[Heq|Hgt]]; [|exact Heq|].
  - pose proof (Z.pow_le_mono_r 2 (Zdigits2 m) (d - 1) ltac:(lia) ltac:(lia)). lia.
  - pose proof (Z.pow_le_mono_r 2 d (Zdigits2 m - 1) ltac:(lia) ltac:(lia)). lia.
Qed.

Lemma Zdigits2_le (m n : Z) : 0 < m -> m <= n -> Zdigits2 m <= Zdigits2 n.
Proof.
  intros Hm Hmn. destruct (Zdigits2_bounds m Hm) as [Hlo _].
  destruct (Zdigits2_bounds n ltac:(lia)) as [_ Hhi].
  destruct (Z_le_gt_dec (Zdigits2 m) (Zdigits2 n)) as [|Hgt]; [assumption|].
  pose proof (Zdigits2_nonneg n ltac:(lia)).
  pose proof (Z.pow_le_mono_r 2 (Zdigits2 n) (Zdigits2 m - 1) ltac:(lia) ltac:(lia)). lia.
Qed.

Lemma Zdigits2_mul_pow (m k : Z) :
  0 < m -> 0 <= k -> Zdigits2 (m * 2 ^ k) = Zdigits2 m + k.
Proof.
  intros Hm Hk. destruct (Zdigits2_bounds m Hm) as [Hlo Hhi].
  pose proof (Zdigits2_pos m Hm). pose proof (Z.pow_pos_nonneg 2 k ltac:(lia) Hk).
  apply Zdigits2_unique; [|nia].
  replace (Zdigits2 m + k - 1) with ((Zdigits2 m - 1) + k) by lia.
  rewrite !Z.pow_add_r by lia. nia.
Qed.

Lemma Zdigits2_div_pow (m n : Z) :
  0 < m -> 0 <= n < Zdigits2 m -> Zdigits2 (m / 2 ^ n) = Zdigits2 m - n /\ 0 < m / 2 ^ n.
Proof.
  intros Hm Hn. destruct (Zdigits2_bounds m Hm) as [Hlo Hhi].
  pose proof (Z.pow_pos_nonneg 2 n ltac:(lia) ltac:(lia)) as Hp.
  assert (Hlo' : 2 ^ (Zdigits2 m - n - 1) <= m / 2 ^ n).
  { apply Z.div_le_lower_bound; [exact Hp|].
    rewrite <- Z.pow_add_r by lia. now replace (n + (Zdigits2 m - n - 1)) with (Zdigits2 m - 1) by lia. }
  assert (Hhi' : m / 2 ^ n < 2 ^ (Zdigits2 m - n)).
  { apply Z.div_lt_upper_bound; [exact Hp|].
    rewrite <- Z.pow_add_r by lia. now replace (n + (Zdigits2 m - n)) with (Zdigits2 m) by lia. }
  pose proof (Z.pow_pos_nonneg 2 (Zdigits2 m - n - 1) ltac:(lia) ltac:(lia)).
  split; [|lia]. apply Zdigits2_unique; lia.
Qed.

Lemma Zdigits2_div_small (m n : Z) : 0 <= m -> Zdigits2 m <= n -> m / 2 ^ n = 0.
Proof.
  intros Hm Hn. destruct (Z.eq_dec m 0) as [->|Hne].
  - apply Z.div_0_l. pose proof (Z.pow_pos_nonneg 2 n ltac:(lia)). cbn in Hn. lia.
  - destruct (Zdigits2_bounds m ltac:(lia)) as [_ Hhi].
    pose proof (Zdigits2_pos m ltac:(lia)).
    apply Z.div_small. split; [lia|].
    pose proof (Z.pow_le_mono_r 2 (Zdigits2 m) n ltac:(lia) Hn). lia.
Qed.

(** ** Locations *)

(** [m + 1/2] at exponent [e]. *)
Definition midpoint (m e : Z) : R := (F2R m e + bpow e / 2)%R.

(** What a mantissa, an exponent and a location say about the real
    number they stand for: it lies in [[m 2^e, (m+1) 2^e)], at the
    place the location tells. *)
Definition located (x : R) (m e : Z) (l : location) : Prop :=
  match l with
  | loc_Exact => x = F2R m e
  | loc_Inexact Lt => (F2R m e < x < midpoint m e)%R
  | loc_Inexact Eq => x = midpoint m e
  | loc_Inexact Gt => (midpoint m e < x < F2R (m + 1) e)%R
  end.

Lemma located_bounds (x : R) (m e : Z) (l : location) :
  located x m e l -> (F2R m e <= x < F2R (m + 1) e)%R.
Proof.
  unfold located, midpoint. rewrite !F2R_succ. pose proof (bpow_gt_0 e).
  destruct l as [|[| |]]; intros; lra.
Qed.

Lemma shr_1_spec (m : Z) (r s : bool) :
  0 <= m ->
  shr_1 {| shr_m := m; shr_r := r; shr_s := s |} =
    {| shr_m := m / 2; shr_r := Z.odd m; shr_s := r || s |}.
Proof.
  intros Hm. destruct m as [|[p|p|]|p]; try lia; cbn [shr_1 Z.odd];
    f_equal; try reflexivity;
    [apply Z.div_unique with 1 | apply Z.div_unique with 0]; lia.
Qed.

(** One shift to the right keeps the number in place. *)
Lemma located_shr_1 (x : R) (m e : Z) (r s : bool) :
  0 <= m ->
  located x m e (loc_of_shr_record {| shr_m := m; shr_r := r; shr_s := s |}) ->
  located x (m / 2) (e + 1)
    (loc_of_shr_record {| shr_m := m / 2; shr_r := Z.odd m; shr_s := r || s |}).
Proof.
  intros Hm. pose proof (Z.div_mod m 2 ltac:(lia)) as Hdiv.
  rewrite Zmod_odd in Hdiv. set (q := m / 2) in *.
  assert (Hm' : IZR m = (2 * IZR q + (if Z.odd m then 1 else 0))%R).
  { rewrite Hdiv at 1. rewrite plus_IZR, mult_IZR. now destruct (Z.odd m). }
  unfold located, midpoint, loc_of_shr_record.
  rewrite !F2R_succ. unfold F2R. rewrite bpow_succ, Hm'.
  pose proof (bpow_gt_0 e) as Hu. set (u := bpow e) in *.
  destruct (Z.odd m), r, s; cbn [orb]; cbv beta iota; intros H;
    repeat match goal with |- _ /\ _ => split end;
    lazymatch type of H with
    | _ /\ _ => destruct H as [H1 H2]
    | _ => idtac
    end; nra.
Qed.

(** ** Shifting right *)

(** [mrs'] is [mrs] shifted right by [k] places. *)
Definition shifted (k : Z) (mrs mrs' : shr_record) : Prop :=
  shr_m mrs' = shr_m mrs / 2 ^ k /\
  forall x e, located x (shr_m mrs) e (loc_of_shr_record mrs) ->
              located x (shr_m mrs') (e + k) (loc_of_shr_record mrs').

Lemma shifted_1 (mrs : shr_record) : 0 <= shr_m mrs -> shifted 1 mrs (shr_1 mrs).
Proof.
  destruct mrs as [m r s]. cbn [shr_m]. intros Hm. rewrite shr_1_spec by exact Hm.
  split; [reflexivity|]. intros x e. now apply located_shr_1.
Qed.

Lemma shifted_trans (a b : Z) (mrs1 mrs2 mrs3 : shr_record) :
  0 <= a -> 0 <= b ->
  shifted a mrs1 mrs2 -> shifted b mrs2 mrs3 -> shifted (a + b) mrs1 mrs3.
Proof.
  intros Ha Hb [Hm12 Hl12] [Hm23 Hl23]. split.
  - rewrite Hm23, Hm12, Z.pow_add_r by assumption.
    pose proof (Z.pow_pos_nonneg 2 a ltac:(lia) Ha).
    pose proof (Z.pow_pos_nonneg 2 b ltac:(lia) Hb).
    apply Z.div_div; lia.
  - intros x e H. rewrite Z.add_assoc. now apply Hl23, Hl12.
Qed.

Lemma shifted_nonneg (k : Z) (mrs mrs' : shr_record) :
  0 <= k -> 0 <= shr_m mrs -> shifted k mrs mrs' -> 0 <= shr_m mrs'.
Proof.
  intros Hk Hm [-> _]. apply Z.div_pos; [exact Hm|]. apply Z.pow_pos_nonneg; lia.
Qed.

Lemma iter_pos_shr_1 (n : positive) : forall mrs,
  0 <= shr_m mrs -> shifted (Zpos n) mrs (SpecFloat.iter_pos shr_1 n mrs).
Proof.
  assert (Hpos : forall p, 0 <= Zpos p) by (intros; lia).
  induction n as [n IH|n IH|]; intros mrs Hm; cbn [SpecFloat.iter_pos].
  - rewrite Pos2Z.inj_xI.
    replace (2 * Zpos n + 1) with (1 + (Zpos n + Zpos n)) by lia.
    pose proof (shifted_1 mrs Hm) as H1.
    pose proof (shifted_nonneg 1 _ _ Z.le_0_1 Hm H1) as Hm1.
    pose proof (IH _ Hm1) as H2.
    pose proof (shifted_nonneg (Zpos n) _ _ (Hpos n) Hm1 H2) as Hm2.
    pose proof (IH _ Hm2) as H3.
    apply (shifted_trans 1 (Zpos n + Zpos n) _ _ _ Z.le_0_1 (Hpos (n + n)%positive) H1).
    exact (shifted_trans _ _ _ _ _ (Hpos n) (Hpos n) H2 H3).
  - rewrite Pos2Z.inj_xO. replace (2 * Zpos n) with (Zpos n + Zpos n) by lia.
    pose proof (IH _ Hm) as H1.
    pose proof (shifted_nonneg (Zpos n) _ _ (Hpos n) Hm H1) as Hm1.
    pose proof (IH _ Hm1) as H2.
    exact (shifted_trans _ _ _ _ _ (Hpos n) (Hpos n) H1 H2).
  - now apply shifted_1.
Qed.

Lemma shr_record_of_loc_m (m : Z) (l : location) : shr_m (shr_record_of_loc m l) = m.
Proof. now destruct l as [|[| |]]. Qed.

Lemma loc_of_shr_record_of_loc (m : Z) (l : location) :
  loc_of_shr_record (shr_record_of_loc m l) = l.
Proof. now destruct l as [|[| |]]. Qed.

(** [shr] by [n] places, for any [n]: nothing moves when [n <= 0]. *)
Lemma shr_spec (mrs : shr_record) (e n : Z) :
  0 <= shr_m mrs ->
  exists mrs', shr mrs e n = (mrs', e + Z.max n 0) /\ shifted (Z.max n 0) mrs mrs'.
Proof.
  intros Hm. destruct n as [|p|p]; cbn [shr].
  - exists mrs. rewrite Z.add_0_r. split; [reflexivity|]. split.
    + now rewrite Z.div_1_r.
    + intros x e'. now rewrite Z.add_0_r.
  - exists (SpecFloat.iter_pos shr_1 p mrs). split; [reflexivity|]. now apply iter_pos_shr_1.
  - exists mrs. rewrite Z.add_0_r. split; [reflexivity|]. split.
    + now rewrite Z.div_1_r.
    + intros x e'. now rewrite Z.add_0_r.
Qed.

(** ** The binary64 format *)

Lemma fexp_eq (e : Z) : fexp prec emax e = Z.max (e - 53) (-1074).
Proof. reflexivity. Qed.

(** The exponent of [m] is the one the format gives to numbers of the
    size of [m 2^e]. *)
Definition canonical (m e : Z) : Prop := e = fexp prec emax (Zdigits2 m + e).

Lemma canonical_facts (m e : Z) :
  0 <= m -> canonical m e ->
  -1074 <= e /\ Zdigits2 m <= 53 /\ m < 2 ^ 53 /\
  (-1074 < e -> Zdigits2 m = 53 /\ 2 ^ 52 <= m).
Proof.
  unfold canonical. rewrite fexp_eq. intros Hm He.
  assert (Hd : Zdigits2 m <= 53) by lia.
  split; [lia|]. split; [exact Hd|]. split.
  - destruct (Z.eq_dec m 0) as [->|Hne]; [reflexivity|].
    destruct (Zdigits2_bounds m ltac:(lia)) as [_ Hhi].
    pose proof (Zdigits2_nonneg m Hm).
    pose proof (Z.pow_le_mono_r 2 (Zdigits2 m) 53 ltac:(lia) Hd). lia.
  - intros He'. assert (Hd' : Zdigits2 m = 53) by lia. split; [exact Hd'|].
    destruct (Z.eq_dec m 0) as [->|Hne]; [cbn in Hd'; lia|].
    destruct (Zdigits2_bounds m ltac:(lia)) as [Hlo _]. now rewrite Hd' in Hlo.
Qed.

Lemma shr_fexp_spec (x : R) (m e : Z) (l : location) :
  0 <= m -> located x m e l -> e <= fexp prec emax (Zdigits2 m + e) ->
  exists mrs,
    shr_fexp prec emax m e l = (mrs, fexp prec emax (Zdigits2 m + e)) /\
    shr_m mrs = m / 2 ^ (fexp prec emax (Zdigits2 m + e) - e) /\
    0 <= shr_m mrs /\
    located x (shr_m mrs) (fexp prec emax (Zdigits2 m + e)) (loc_of_shr_record mrs) /\
    canonical (shr_m mrs) (fexp prec emax (Zdigits2 m + e)).
Proof.
  intros Hm Hx He. unfold shr_fexp.
  set (e' := fexp prec emax (Zdigits2 m + e)) in *.
  destruct (shr_spec (shr_record_of_loc m l) e (e' - e)) as (mrs & Hshr & Hm' & Hloc).
  { now rewrite shr_record_of_loc_m. }
  rewrite Z.max_l in * by lia. replace (e + (e' - e)) with e' in * by lia.
  rewrite shr_record_of_loc_m in Hm'.
  exists mrs. split; [exact Hshr|]. split; [exact Hm'|].
  assert (Hpow : 0 < 2 ^ (e' - e)) by (apply Z.pow_pos_nonneg; lia).
  split; [rewrite Hm'; now apply Z.div_pos|]. split.
  - specialize (Hloc x e). rewrite shr_record_of_loc_m, loc_of_shr_record_of_loc in Hloc.
    replace (e + (e' - e)) with e' in Hloc by lia. now apply Hloc.
  - unfold canonical. rewrite Hm'. subst e'. rewrite !fexp_eq in *.
    destruct (Z.eq_dec m 0) as [->|Hne].
    + rewrite Z.div_0_l by lia. cbn [Zdigits2] in *. lia.
    + destruct (Z_lt_le_dec (Z.max (Zdigits2 m + e - 53) (-1074) - e) (Zdigits2 m))
        as [Hlt|Hge].
      * destruct (Zdigits2_div_pow m (Z.max (Zdigits2 m + e - 53) (-1074) - e)
                    ltac:(lia) ltac:(lia)) as [-> _]. lia.
      * rewrite Zdigits2_div_small by lia. cbn [Zdigits2]. lia.
Qed.

Lemma round_nearest_even_range (m : Z) (l : location) :
  m <= round_nearest_even m l <= m + 1.
Proof. destruct l as [|[| |]]; cbn; try destruct (Z.even m); lia. Qed.

(** ** Rounding to nearest, ties to even *)

(** [v] is the value the format rounds [x] to: [x] sits at [l] above
    the canonical [m 2^e], and [v] is [m 2^e] or the next one. *)
Definition RN (x v : R) : Prop :=
  exists m e l, 0 <= m /\ canonical m e /\ located x m e l /\
    v = F2R (round_nearest_even m l) e.

Lemma RN_nonneg (x v : R) : RN x v -> (0 <= x /\ 0 <= v)%R.
Proof.
  intros (m & e & l & Hm & Hc & Hx & ->).
  pose proof (located_bounds _ _ _ _ Hx) as [Hlo _].
  pose proof (round_nearest_even_range m l) as [Hr _].
  pose proof (F2R_le 0 m e Hm) as H0. rewrite F2R_0 in H0.
  pose proof (F2R_le m _ e Hr). split; lra.
Qed.

Lemma rne_same_mantissa (x y : R) (m e : Z) (lx ly : location) :
  (x <= y)%R -> located x m e lx -> located y m e ly ->
  round_nearest_even m lx <= round_nearest_even m ly.
Proof.
  unfold located, midpoint. rewrite !F2R_succ. pose proof (bpow_gt_0 e).
  destruct lx as [|[| |]], ly as [|[| |]]; cbn [round_nearest_even];
    intros Hxy Hx Hy; try destruct (Z.even m); try lia; exfalso; lra.
Qed.

Theorem RN_monotone (x y v w : R) : (x <= y)%R -> RN x v -> RN y w -> (v <= w)%R.
Proof.
  intros Hxy (mx & ex & lx & Hmx & Hcx & Hx & ->) (my & ey & ly & Hmy & Hcy & Hy & ->).
  pose proof (located_bounds _ _ _ _ Hx) as [Hxlo Hxhi].
  pose proof (located_bounds _ _ _ _ Hy) as [Hylo Hyhi].
  pose proof (round_nearest_even_range mx lx) as [Hrx1 Hrx2].
  pose proof (round_nearest_even_range my ly) as [Hry1 Hry2].
  destruct (canonical_facts mx ex Hmx Hcx) as (Hex & Hdx & Hmx53 & Hnx).
  destruct (canonical_facts my ey Hmy Hcy) as (Hey & Hdy & Hmy53 & Hny).
  destruct (Z.lt_trichotomy ex ey) as [Hlt|[Heq|Hgt]].
  - destruct (Hny ltac:(lia)) as [_ Hmy52].
    apply Rle_trans with (F2R (2 ^ 53) ex); [apply F2R_le; lia|].
    apply Rle_trans with (F2R (2 ^ 52) ey); [|apply F2R_le; lia].
    rewrite !F2R_pow by lia. apply bpow_le. lia.
  - subst ey. apply F2R_le.
    assert (Hm : mx <= my).
    { apply Z.lt_succ_r, (F2R_lt_inv _ _ ex). unfold Z.succ. lra. }
    destruct (Z.eq_dec mx my) as [<-|Hne]; [|lia].
    now apply (rne_same_mantissa x y mx ex).
  - exfalso. destruct (Hnx ltac:(lia)) as [_ Hmx52].
    assert (H1 : (F2R (my + 1) ey <= F2R (2 ^ 53) ey)%R) by (apply F2R_le; lia).
    assert (H2 : (F2R (2 ^ 52) ex <= F2R mx ex)%R) by (apply F2R_le; lia).
    rewrite !F2R_pow in * by lia.
    pose proof (bpow_le (53 + ey) (52 + ex) ltac:(lia)). lra.
Qed.

Lemma RN_unique (x v w : R) : RN x v -> RN x w -> v = w.
Proof.
  intros Hv Hw. apply Rle_antisym; eapply RN_monotone; eauto; lra.
Qed.

(** A number of the format rounds to itself. *)
Lemma RN_exact (m e : Z) : 0 <= m -> canonical m e -> RN (F2R m e) (F2R m e).
Proof. intros Hm Hc. exists m, e, loc_Exact. repeat split; assumption. Qed.

Lemma RN_0 : RN 0 0.
Proof. rewrite <- (F2R_0 (-1074)). apply RN_exact; [lia | reflexivity]. Qed.

(** ** The rounding step of the operations *)

(** What [binary_round_aux] returns for the rounded value [v]. *)
Definition rounded_to (sx : bool) (v : R) (r : spec_float) : Prop :=
  (v = 0%R /\ r = S754_zero sx) \/
  (exists m e, r = S754_finite sx m e /\ SpecFloat.bounded prec emax m e = true /\
               v = F2R (Zpos m) e) \/
  ((bpow 1024 <= v)%R /\ r = S754_infinity sx).

Lemma bounded_iff (m : positive) (e : Z) :
  SpecFloat.bounded prec emax m e = true <-> canonical (Zpos m) e /\ e <= 971.
Proof.
  unfold SpecFloat.bounded, canonical_mantissa, canonical.
  rewrite andb_true_iff, Z.eqb_eq, Z.leb_le. cbn [Zdigits2].
  change (emax - prec) with 971. intuition congruence.
Qed.

Theorem binary_round_aux_spec (sx : bool) (x : R) (m e : Z) (l : location) :
  0 <= m -> located x m e l -> e <= fexp prec emax (Zdigits2 m + e) ->
  exists v, RN x v /\ rounded_to sx v (binary_round_aux prec emax sx m e l).
Proof.
  intros Hm Hx He. unfold binary_round_aux.
  destruct (shr_fexp_spec x m e l Hm Hx He) as (mrs1 & -> & _ & Hm1 & Hx1 & Hc1).
  set (e1 := fexp prec emax (Zdigits2 m + e)) in *.
  set (m1 := shr_m mrs1) in *.
  set (m2 := round_nearest_even m1 (loc_of_shr_record mrs1)).
  exists (F2R m2 e1). split; [now exists m1, e1, (loc_of_shr_record mrs1)|].
  pose proof (round_nearest_even_range m1 (loc_of_shr_record mrs1)) as [Hr1 Hr2].
  fold m2 in Hr1, Hr2.
  destruct (canonical_facts m1 e1 Hm1 Hc1) as (He1 & Hd1 & Hm53 & Hn1).
  assert (Hm2 : 0 <= m2) by lia.
  unfold shr_fexp.
  destruct (shr_spec (shr_record_of_loc m2 loc_Exact) e1
              (fexp prec emax (Zdigits2 m2 + e1) - e1)) as (mrs3 & -> & Hm3 & _).
  { exact Hm2. }
  cbn [shr_record_of_loc shr_m] in Hm3.
  unfold canonical in Hc1. rewrite fexp_eq in *.
  destruct (Z.eq_dec m2 0) as [H0|Hne].
  { (* the rounded mantissa is zero *)
    assert (m1 = 0) by lia. left.
    rewrite H0 in *. rewrite Z.div_0_l in Hm3
      by (apply Z.pow_nonzero; cbn [Zdigits2]; lia).
    rewrite Hm3. split; [apply F2R_0 | reflexivity]. }
  assert (Hd12 : Zdigits2 m1 <= Zdigits2 m2).
  { destruct (Z.eq_dec m1 0) as [->|]; [cbn; apply Zdigits2_nonneg; lia|].
    apply Zdigits2_le; lia. }
  destruct (Z.eq_dec m2 (2 ^ 53)) as [H53|Hn53].
  - (* the mantissa overflowed to 2^53: one more shift *)
    assert (Hd2 : Zdigits2 m2 = 54) by (rewrite H53; reflexivity).
    assert (He1' : Z.max (Zdigits2 m2 + e1 - 53) (-1074) - e1 = 1) by lia.
    rewrite He1' in *. rewrite Z.max_l in * by lia.
    rewrite H53 in Hm3. change (2 ^ 53 / 2 ^ 1) with (Zpos (2 ^ 52)) in Hm3.
    rewrite Hm3. change (emax - prec) with 971.
    assert (Hv : F2R m2 e1 = F2R (Zpos (2 ^ 52)) (e1 + 1)).
    { rewrite H53. rewrite <- (F2R_shift (Zpos (2 ^ 52)) e1 1) by lia. reflexivity. }
    right. destruct (Z.leb_spec (e1 + 1) 971) as [Hle|Hgt].
    + left. exists (2 ^ 52)%positive, (e1 + 1). split; [reflexivity|].
      split; [|exact Hv]. apply bounded_iff. split; [|exact Hle].
      unfold canonical. rewrite fexp_eq.
      change (Zdigits2 (Zpos (2 ^ 52))) with 53. lia.
    + right. split; [|reflexivity]. rewrite Hv.
      change (Zpos (2 ^ 52)) with (2 ^ 52). rewrite F2R_pow by lia.
      apply bpow_le. lia.
  - (* the mantissa still fits: no shift *)
    assert (Hd2 : Zdigits2 m2 <= 53).
    { destruct (Zdigits2_bounds m2 ltac:(lia)) as [Hlo _].
      destruct (Z_le_gt_dec (Zdigits2 m2) 53) as [|Hgt]; [assumption|].
      pose proof (Z.pow_le_mono_r 2 53 (Zdigits2 m2 - 1) ltac:(lia) ltac:(lia)). lia. }
    assert (He1' : Z.max (Z.max (Zdigits2 m2 + e1 - 53) (-1074) - e1) 0 = 0) by lia.
    rewrite He1' in *. rewrite Z.div_1_r in Hm3. rewrite Hm3, Z.add_0_r.
    change (emax - prec) with 971.
    destruct m2 as [|p|p]; try lia.
    right. destruct (Z.leb_spec e1 971) as [Hle|Hgt].
    + left. exists p, e1. split; [reflexivity|]. split; [|reflexivity].
      apply bounded_iff. split; [|exact Hle]. unfold canonical. rewrite fexp_eq. lia.
    + right. split; [|reflexivity].
      assert (Hc2 : canonical (Zpos p) e1) by (unfold canonical; rewrite fexp_eq; lia).
      destruct (canonical_facts (Zpos p) e1 ltac:(lia) Hc2) as (_ & _ & _ & Hn2).
      destruct (Hn2 ltac:(lia)) as [_ H52].
      apply Rle_trans with (F2R (2 ^ 52) e1); [|now apply F2R_le].
      rewrite F2R_pow by lia. apply bpow_le. lia.
Qed.

(** ** Values and order of the non-negative finite floats *)

Definition SF2R (f : spec_float) : R :=
  match f with
  | S754_finite s m e => F2R (cond_Zopp s (Zpos m)) e
  | _ => 0%R
  end.

(** Zero (of either sign) or a positive number of the format. *)
Definition nonneg_finite (f : spec_float) : Prop :=
  match f with
  | S754_zero _ => True
  | S754_finite false m e => SpecFloat.bounded prec emax m e = true
  | _ => False
  end.

Lemma F2R_pos (m : positive) (e : Z) : (0 < F2R (Zpos m) e)%R.
Proof. rewrite <- (F2R_0 e). apply F2R_lt. lia. Qed.

Lemma nonneg_finite_SF2R (f : spec_float) : nonneg_finite f -> (0 <= SF2R f)%R.
Proof.
  destruct f as [s|s| |[|] m e]; cbn; intros H; try lra; try easy.
  pose proof (F2R_pos m e). lra.
Qed.

(** Of two canonical numbers, the one with the smaller exponent is the
    smaller. *)
Lemma canonical_exponent_lt (m1 e1 m2 e2 : Z) :
  0 <= m1 -> 0 < m2 -> canonical m1 e1 -> canonical m2 e2 -> e1 < e2 ->
  (F2R m1 e1 < F2R m2 e2)%R.
Proof.
  intros Hm1 Hm2 Hc1 Hc2 Hlt.
  destruct (canonical_facts m1 e1 Hm1 Hc1) as (He1 & _ & Hm53 & _).
  destruct (canonical_facts m2 e2 ltac:(lia) Hc2) as (_ & _ & _ & Hn2).
  destruct (Hn2 ltac:(lia)) as [_ H52].
  apply Rlt_le_trans with (F2R (2 ^ 53) e1); [now apply F2R_lt|].
  apply Rle_trans with (F2R (2 ^ 52) e2); [|now apply F2R_le].
  rewrite !F2R_pow by lia. apply bpow_le. lia.
Qed.

Lemma SFcompare_nonneg (a b : spec_float) :
  nonneg_finite a -> nonneg_finite b ->
  match SFcompare a b with
  | Some Lt => (SF2R a < SF2R b)%R
  | Some Eq => SF2R a = SF2R b
  | Some Gt => (SF2R b < SF2R a)%R
  | None => False
  end.
Proof.
  destruct a as [sa|sa| |[|] ma ea], b as [sb|sb| |[|] mb eb]; cbn; try easy;
    intros Ha Hb; try apply F2R_pos.
  apply bounded_iff in Ha as [Hca _]. apply bounded_iff in Hb as [Hcb _].
  destruct (Z.compare_spec ea eb) as [->|Hlt|Hgt].
  - rewrite Pos.compare_cont_spec.
    destruct (Pos.compare_spec ma mb) as [->|Hlt|Hgt]; cbn [Pos.switch_Eq];
      [reflexivity | apply F2R_lt; lia | apply F2R_lt; lia].
  - apply canonical_exponent_lt; (assumption || lia).
  - apply canonical_exponent_lt; (assumption || lia).
Qed.

Lemma SFleb_nonneg (a b : spec_float) :
  nonneg_finite a -> nonneg_finite b ->
  (SFleb a b = true <-> (SF2R a <= SF2R b)%R).
Proof.
  intros Ha Hb. pose proof (SFcompare_nonneg a b Ha Hb) as H. unfold SFleb.
  destruct (SFcompare a b) as [[| |]|]; try easy; split; intros; try easy; lra.
Qed.

Lemma SFltb_nonneg (a b : spec_float) :
  nonneg_finite a -> nonneg_finite b ->
  (SFltb a b = true <-> (SF2R a < SF2R b)%R).
Proof.
  intros Ha Hb. pose proof (SFcompare_nonneg a b Ha Hb) as H. unfold SFltb.
  destruct (SFcompare a b) as [[| |]|]; try easy; split; intros; try easy; lra.
Qed.

(** A positive number of the format is determined by its value. *)
Lemma positive_finite_inj (m1 m2 : positive) (e1 e2 : Z) :
  SpecFloat.bounded prec emax m1 e1 = true -> SpecFloat.bounded prec emax m2 e2 = true ->
  F2R (Zpos m1) e1 = F2R (Zpos m2) e2 -> m1 = m2 /\ e1 = e2.
Proof.
  intros H1 H2 Heq.
  pose proof (SFcompare_nonneg (S754_finite false m1 e1) (S754_finite false m2 e2) H1 H2)
    as Hc. cbn in Hc.
  apply bounded_iff in H1 as [Hc1 _]. apply bounded_iff in H2 as [Hc2 _].
  destruct (Z.compare_spec e1 e2) as [->|Hlt|Hgt]; [|lra|lra].
  split; [|reflexivity].
  assert (Zpos m1 = Zpos m2) as Hm; [|now injection Hm].
  apply Z.le_antisymm; apply (F2R_le_inv _ _ e2); lra.
Qed.

(** The result of a rounding that does not overflow. *)
Lemma rounded_to_finite (sx : bool) (v : R) (r : spec_float) :
  rounded_to sx v r -> (v < bpow 1024)%R ->
  SF2R r = (if sx then - v else v)%R /\
  (sx = false -> nonneg_finite r) /\ valid_binary r = true.
Proof.
  intros [[-> ->]|[(m & e & -> & Hb & ->)|[Hge ->]]] Hlt; [| |lra].
  - cbn. split; [destruct sx; lra|]. now split.
  - cbn [SF2R valid_binary]. split; [|split; [now intros ->|exact Hb]].
    destruct sx; cbn [cond_Zopp]; [|reflexivity].
    unfold F2R. rewrite opp_IZR. lra.
Qed.

(** ** The operations on non-negative floats *)

(** [r] is the float the format gives for the exact result [x], as
    long as the rounded value stays below [2^1024]. *)
Definition rounds (x : R) (r : spec_float) : Prop :=
  exists v, RN x v /\ ((v < bpow 1024)%R -> nonneg_finite r /\ SF2R r = v).

Lemma rounds_of_rounded (x v : R) (r : spec_float) :
  RN x v -> rounded_to false v r -> rounds x r.
Proof.
  intros Hv Hr. exists v. split; [exact Hv|]. intros Hlt.
  destruct (rounded_to_finite false v r Hr Hlt) as (Hval & Hnn & _).
  split; [now apply Hnn | exact Hval].
Qed.

Lemma rounds_zero (s : bool) : rounds 0 (S754_zero s).
Proof. exists 0%R. split; [apply RN_0|]. now split. Qed.

Lemma rounds_exact (f : spec_float) : nonneg_finite f -> rounds (SF2R f) f.
Proof.
  destruct f as [s|s| |[|] m e]; cbn [nonneg_finite]; try easy; intros H.
  - apply rounds_zero.
  - exists (F2R (Zpos m) e). split; [|now split].
    apply bounded_iff in H as [Hc _]. apply RN_exact; [lia | exact Hc].
Qed.

Lemma F2R_mul (m1 e1 m2 e2 : Z) : (F2R m1 e1 * F2R m2 e2)%R = F2R (m1 * m2) (e1 + e2).
Proof. unfold F2R. rewrite mult_IZR, bpow_add. lra. Qed.

Lemma Zdigits2_mul_ge (m1 m2 : Z) :
  0 < m1 -> 0 < m2 -> Zdigits2 m1 + Zdigits2 m2 - 1 <= Zdigits2 (m1 * m2).
Proof.
  intros H1 H2.
  destruct (Zdigits2_bounds m1 H1) as [Hlo1 _]. destruct (Zdigits2_bounds m2 H2) as [Hlo2 _].
  pose proof (Zdigits2_pos m1 H1). pose proof (Zdigits2_pos m2 H2).
  destruct (Zdigits2_bounds (m1 * m2) ltac:(nia)) as [_ Hhi].
  pose proof (Zdigits2_pos (m1 * m2) ltac:(nia)).
  destruct (Z_le_gt_dec (Zdigits2 m1 + Zdigits2 m2 - 1) (Zdigits2 (m1 * m2)))
    as [|Hgt]; [assumption|].
  pose proof (Z.pow_le_mono_r 2 (Zdigits2 (m1 * m2)) ((Zdigits2 m1 - 1) + (Zdigits2 m2 - 1))
                ltac:(lia) ltac:(lia)) as Hp.
  rewrite Z.pow_add_r in Hp by lia.
  pose proof (Z.pow_pos_nonneg 2 (Zdigits2 m1 - 1) ltac:(lia) ltac:(lia)).
  pose proof (Z.pow_pos_nonneg 2 (Zdigits2 m2 - 1) ltac:(lia) ltac:(lia)).
  nia.
Qed.

Theorem SFmul_rounds (a b : spec_float) :
  nonneg_finite a -> nonneg_finite b ->
  rounds (SF2R a * SF2R b) (SF64mul a b).
Proof.
  destruct a as [sa|sa| |[|] ma ea], b as [sb|sb| |[|] mb eb];
    cbn [nonneg_finite]; try easy; intros Ha Hb; cbn [SF64mul SFmul SF2R cond_Zopp xorb];
    try (rewrite ?Rmult_0_l, ?Rmult_0_r; apply rounds_zero).
  unfold SF64mul. cbn [SFmul xorb]. rewrite F2R_mul.
  apply bounded_iff in Ha as [Hca _]. apply bounded_iff in Hb as [Hcb _].
  change (Zpos ma * Zpos mb) with (Zpos (ma * mb)).
  destruct (binary_round_aux_spec false (F2R (Zpos (ma * mb)) (ea + eb))
              (Zpos (ma * mb)) (ea + eb) loc_Exact) as (v & Hv & Hr);
    [lia | reflexivity | | now apply (rounds_of_rounded _ v)].
  pose proof (Zdigits2_mul_ge (Zpos ma) (Zpos mb) ltac:(lia) ltac:(lia)) as Hd.
  pose proof (Zdigits2_pos (Zpos ma) ltac:(lia)).
  pose proof (Zdigits2_pos (Zpos mb) ltac:(lia)).
  unfold canonical in Hca, Hcb. rewrite fexp_eq in *.
  change (Zpos (ma * mb)) with (Zpos ma * Zpos mb). lia.
Qed.

Lemma iter_xO (m d : positive) : Zpos (Pos.iter xO m d) = Zpos m * 2 ^ Zpos d.
Proof.
  induction d as [|d IH] using Pos.peano_ind.
  - cbn [Pos.iter]. rewrite Pos2Z.inj_xO. lia.
  - rewrite Pos.iter_succ, Pos2Z.inj_xO, IH, Pos2Z.inj_succ, Z.pow_succ_r by lia. lia.
Qed.

(** Aligning to a lower exponent multiplies the mantissa; aligning to
    a higher one does nothing. *)
Lemma shl_align_spec (m : positive) (e e' : Z) :
  exists m', shl_align m e e' = (m', Z.min e e') /\
    Zpos m' = Zpos m * 2 ^ (e - Z.min e e').
Proof.
  unfold shl_align. destruct (e' - e) as [|d|d] eqn:E.
  - exists m. rewrite Z.min_l by lia. split; [reflexivity|].
    rewrite Z.sub_diag. cbn. lia.
  - exists m. rewrite Z.min_l by lia. split; [reflexivity|].
    rewrite Z.sub_diag. cbn. lia.
  - exists (Pos.iter xO m d). rewrite Z.min_r by lia. split; [reflexivity|].
    rewrite iter_xO. f_equal. f_equal. lia.
Qed.

Lemma shl_align_value (m : positive) (e e' : Z) :
  forall m', fst (shl_align m e e') = m' ->
  F2R (Zpos m') (Z.min e e') = F2R (Zpos m) e.
Proof.
  intros m' <-. destruct (shl_align_spec m e e') as (m1 & -> & Hm1). cbn [fst].
  rewrite Hm1. rewrite F2R_shift by lia. f_equal. lia.
Qed.

Theorem binary_round_spec (sx : bool) (m : positive) (e : Z) :
  exists v, RN (F2R (Zpos m) e) v /\ rounded_to sx v (binary_round prec emax sx m e).
Proof.
  unfold binary_round.
  set (e' := fexp prec emax (Zpos (digits2_pos m) + e)).
  destruct (shl_align_spec m e e') as (mz & -> & Hmz).
  apply binary_round_aux_spec; [lia| |].
  - cbn [located]. rewrite Hmz, F2R_shift by lia. f_equal. lia.
  - rewrite Hmz, Zdigits2_mul_pow by lia. cbn [Zdigits2]. subst e'.
    rewrite !fexp_eq. lia.
Qed.

Lemma binary_normalize_rounds (m e : Z) :
  0 <= m -> rounds (F2R m e) (binary_normalize prec emax m e false).
Proof.
  intros Hm. destruct m as [|p|p]; [| |lia]; cbn [binary_normalize].
  - rewrite F2R_0. apply rounds_zero.
  - destruct (binary_round_spec false p e) as (v & Hv & Hr).
    now apply (rounds_of_rounded _ v).
Qed.

Theorem SFadd_rounds (a b : spec_float) :
  nonneg_finite a -> nonneg_finite b ->
  rounds (SF2R a + SF2R b) (SF64add a b).
Proof.
  destruct a as [sa|sa| |[|] ma ea], b as [sb|sb| |[|] mb eb];
    cbn [nonneg_finite]; try easy; intros Ha Hb; unfold SF64add; cbn [SFadd SF2R cond_Zopp].
  - rewrite Rplus_0_l. destruct sa, sb; apply rounds_zero.
  - rewrite Rplus_0_l. now apply (rounds_exact (S754_finite false mb eb)).
  - rewrite Rplus_0_r. now apply (rounds_exact (S754_finite false ma ea)).
  - rewrite <- (shl_align_value ma ea (Z.min ea eb) _ eq_refl).
    rewrite <- (shl_align_value mb eb (Z.min ea eb) _ eq_refl).
    replace (Z.min ea (Z.min ea eb)) with (Z.min ea eb) by lia.
    replace (Z.min eb (Z.min ea eb)) with (Z.min ea eb) by lia.
    unfold F2R at 1 2. rewrite <- Rmult_plus_distr_r, <- plus_IZR.
    apply binary_normalize_rounds. lia.
Qed.

Theorem SFsub_rounds (a b : spec_float) :
  nonneg_finite a -> nonneg_finite b -> (SF2R b <= SF2R a)%R ->
  rounds (SF2R a - SF2R b) (SF64sub a b).
Proof.
  destruct a as [sa|sa| |[|] ma ea], b as [sb|sb| |[|] mb eb];
    cbn [nonneg_finite]; try easy; intros Ha Hb; unfold SF64sub; cbn [SFsub SF2R cond_Zopp];
    intros Hle.
  - rewrite Rminus_0_r. destruct sa, sb; apply rounds_zero.
  - pose proof (F2R_pos mb eb). lra.
  - rewrite Rminus_0_r. now apply (rounds_exact (S754_finite false ma ea)).
  - rewrite <- (shl_align_value ma ea (Z.min ea eb) _ eq_refl) in *.
    rewrite <- (shl_align_value mb eb (Z.min ea eb) _ eq_refl) in *.
    replace (Z.min ea (Z.min ea eb)) with (Z.min ea eb) in * by lia.
    replace (Z.min eb (Z.min ea eb)) with (Z.min ea eb) in * by lia.
    apply F2R_le_inv in Hle.
    unfold F2R at 1 2. rewrite <- Rmult_minus_distr_r, <- minus_IZR.
    apply binary_normalize_rounds. lia.
Qed.

(** ** Division *)

Lemma new_location_spec (n k : Z) :
  0 < n -> 0 <= k < n ->
  match new_location n k with
  | loc_Exact => k = 0
  | loc_Inexact Lt => 0 < k /\ 2 * k < n
  | loc_Inexact Eq => 2 * k = n
  | loc_Inexact Gt => n < 2 * k
  end.
Proof.
  intros Hn Hk. unfold new_location, new_location_even, new_location_odd.
  destruct (Z.even n) eqn:Heven; destruct (Z.eqb_spec k 0) as [|Hk0]; try assumption.
  - destruct (Z.compare_spec (2 * k) n); lia.
  - assert (Hodd : n <> 2 * k).
    { intros ->. rewrite Z.even_mul in Heven. discriminate. }
    destruct (Z.compare_spec (2 * k + 1) n); lia.
Qed.

(** A quotient with its remainder, placed. *)
Lemma located_quotient (x : R) (m' m2 q r e' : Z) :
  0 < m2 -> m' = m2 * q + r -> 0 <= r < m2 ->
  (x * IZR m2 = IZR m' * bpow e')%R ->
  located x q e' (new_location m2 r).
Proof.
  intros Hm2 Hm' Hr Hx. pose proof (new_location_spec m2 r Hm2 Hr) as Hloc.
  pose proof (bpow_gt_0 e') as Hu. set (u := bpow e') in *.
  assert (HA : (0 < IZR m2)%R) by now apply IZR_lt.
  rewrite Hm', plus_IZR, mult_IZR in Hx.
  unfold located, midpoint. rewrite F2R_succ. unfold F2R. fold u.
  set (A := IZR m2) in *. set (B := IZR r) in *. set (Q := IZR q) in *.
  assert (Hx' : ((x - Q * u) * A = B * u)%R) by lra.
  destruct (new_location m2 r) as [|[| |]].
  - assert (B = 0%R) by (subst B; now rewrite Hloc). nra.
  - assert (2 * B = A)%R by (subst A B; rewrite <- Hloc, mult_IZR; lra). nra.
  - destruct Hloc as [H0 H2].
    assert (0 < B)%R by (subst B; now apply IZR_lt).
    assert (2 * B < A)%R by (subst A B; apply IZR_lt in H2; now rewrite mult_IZR in H2).
    split; nra.
  - assert (A < 2 * B)%R by (subst A B; apply IZR_lt in Hloc; now rewrite mult_IZR in Hloc).
    assert (B < A)%R by (subst A B; apply IZR_lt; lia).
    split; nra.
Qed.

Theorem SFdiv_spec (sx sy : bool) (m1 m2 : positive) (e1 e2 : Z) :
  exists v, RN (F2R (Zpos m1) e1 / F2R (Zpos m2) e2) v /\
    rounded_to (xorb sx sy) v (SF64div (S754_finite sx m1 e1) (S754_finite sy m2 e2)).
Proof.
  unfold SF64div. cbn [SFdiv]. unfold SFdiv_core_binary.
  set (d1 := Zdigits2 (Zpos m1)). set (d2 := Zdigits2 (Zpos m2)).
  set (e' := Z.min (fexp prec emax (d1 + e1 - (d2 + e2))) (e1 - e2)).
  set (s := e1 - e2 - e').
  assert (Hs : 0 <= s) by (subst s e'; lia).
  set (m' := match s with Zpos _ => Z.shiftl (Zpos m1) s | Z0 => Zpos m1 | Zneg _ => 0 end).
  assert (Hm' : m' = Zpos m1 * 2 ^ s).
  { subst m'. destruct s as [|p|p]; [cbn; lia | now rewrite Z.shiftl_mul_pow2 | lia]. }
  pose proof (Z_div_mod m' (Zpos m2) ltac:(lia)) as Hdiv.
  destruct (Z.div_eucl m' (Zpos m2)) as [q r]. destruct Hdiv as [Hqr Hr].
  pose proof (Z.pow_pos_nonneg 2 s ltac:(lia) Hs) as Hpow.
  assert (Hq : 0 <= q) by nia.
  apply binary_round_aux_spec; [exact Hq| |].
  - apply (located_quotient _ m' (Zpos m2) q r e'); [lia | exact Hqr | exact Hr |].
    pose proof (F2R_pos m2 e2). unfold Rdiv. rewrite Hm', mult_IZR.
    rewrite <- (bpow_IZR s) by exact Hs.
    unfold F2R in *. replace e1 with (s + e2 + e') by (subst s; lia).
    rewrite !bpow_add. pose proof (bpow_gt_0 e2).
    assert (0 < IZR (Zpos m2))%R by (apply IZR_lt; lia).
    field. split; lra.
  - (* enough digits in the quotient *)
    rewrite !fexp_eq in *. fold d1 d2 in e'.
    destruct (Zdigits2_bounds (Zpos m1) ltac:(lia)) as [Hlo1 _].
    destruct (Zdigits2_bounds (Zpos m2) ltac:(lia)) as [_ Hhi2].
    pose proof (Zdigits2_pos (Zpos m1) ltac:(lia)) as Hd1.
    pose proof (Zdigits2_pos (Zpos m2) ltac:(lia)) as Hd2.
    fold d1 in Hlo1, Hd1. fold d2 in Hhi2, Hd2.
    destruct (Z_le_gt_dec (d2 + 1) (d1 + s)) as [Hbig|Hsmall].
    + (* the quotient has at least [d1 + s - d2] digits *)
      assert (Hqlo : 2 ^ (d1 + s - d2 - 1) <= q).
      { assert (H1 : 2 ^ (d1 - 1 + s) <= m').
        { rewrite Hm', Z.pow_add_r by lia. nia. }
        assert (H2 : 2 ^ (d1 - 1 + s) = 2 ^ (d1 + s - d2 - 1) * 2 ^ d2).
        { rewrite <- Z.pow_add_r by lia. f_equal. lia. }
        pose proof (Z.pow_pos_nonneg 2 (d1 + s - d2 - 1) ltac:(lia) ltac:(lia)).
        nia. }
      assert (Hdq : d1 + s - d2 <= Zdigits2 q).
      { pose proof (Z.pow_pos_nonneg 2 (d1 + s - d2 - 1) ltac:(lia) ltac:(lia)).
        destruct (Zdigits2_bounds q ltac:(lia)) as [_ Hhiq].
        pose proof (Zdigits2_pos q ltac:(lia)).
        destruct (Z_le_gt_dec (d1 + s - d2) (Zdigits2 q)) as [|Hgt]; [assumption|].
        pose proof (Z.pow_le_mono_r 2 (Zdigits2 q) (d1 + s - d2 - 1) ltac:(lia) ltac:(lia)).
        lia. }
      clear Hm' Hpow Hqlo. subst m' s e'. rewrite !fexp_eq in *. lia.
    + pose proof (Zdigits2_nonneg q Hq). clear Hm' Hpow.
      subst m' s e'. rewrite !fexp_eq in *. lia.
Qed.

(** ** Some values *)

Lemma canonical_pow (n : Z) : -1022 <= n -> canonical (2 ^ 52) (n - 52).
Proof. intros Hn. unfold canonical. rewrite fexp_eq. change (Zdigits2 (2 ^ 52)) with 53. lia. Qed.

Lemma RN_bpow (n : Z) : -1022 <= n -> RN (bpow n) (bpow n).
Proof.
  intros Hn. replace (bpow n) with (F2R (2 ^ 52) (n - 52)).
  - apply RN_exact; [lia | now apply canonical_pow].
  - rewrite F2R_pow by lia. f_equal. lia.
Qed.

Lemma RN_1 : RN 1 1.
Proof. rewrite <- bpow_0. now apply RN_bpow. Qed.

Lemma RN_le_bpow (x v : R) (n : Z) :
  -1022 <= n -> RN x v -> (x <= bpow n)%R -> (v <= bpow n)%R.
Proof. intros Hn Hv Hx. exact (RN_monotone x (bpow n) v (bpow n) Hx Hv (RN_bpow n Hn)). Qed.

Lemma RN_le_1 (x v : R) : RN x v -> (x <= 1)%R -> (v <= 1)%R.
Proof. rewrite <- bpow_0. now apply RN_le_bpow. Qed.

Lemma RN_of_nonneg_finite (f : spec_float) : nonneg_finite f -> RN (SF2R f) (SF2R f).
Proof.
  destruct f as [s|s| |[|] m e]; cbn [nonneg_finite SF2R cond_Zopp]; try easy; intros H.
  - apply RN_0.
  - apply bounded_iff in H as [Hc _]. apply RN_exact; [lia | exact Hc].
Qed.

(** The rounding error is at most half a unit of the last place. *)
Lemma RN_error (x v : R) :
  RN x v -> exists m e, 0 <= m /\ canonical m e /\
    (F2R m e <= x < F2R (m + 1) e)%R /\ (- (bpow e / 2) <= v - x <= bpow e / 2)%R.
Proof.
  intros (m & e & l & Hm & Hc & Hx & ->). exists m, e.
  split; [exact Hm|]. split; [exact Hc|]. split; [now apply (located_bounds _ _ _ l)|].
  unfold located, midpoint in Hx. rewrite F2R_succ in Hx.
  pose proof (bpow_gt_0 e).
  destruct l as [|[| |]]; cbn [round_nearest_even]; try destruct (Z.even m);
    rewrite ?F2R_succ; lra.
Qed.

(** The sum of [a] and the rounded [1 - a] rounds to 1, for every [a]
    between 0 and 1. *)
Theorem RN_complement (a c v : R) :
  (0 <= a <= 1)%R -> RN (1 - a) c -> RN (a + c) v -> v = 1%R.
Proof.
  intros Ha Hc Hv. apply (RN_unique (a + c)); [exact Hv|].
  destruct (RN_error _ _ Hc) as (m & e & Hm & Hcan & Hloc & Herr).
  destruct (canonical_facts m e Hm Hcan) as (He & _ & _ & Hn).
  assert (H53 : bpow (-52) = (2 * bpow (-53))%R) by (rewrite <- bpow_succ; reflexivity).
  assert (H54 : bpow (-53) = (2 * bpow (-54))%R) by (rewrite <- bpow_succ; reflexivity).
  pose proof (bpow_gt_0 (-54)) as Hpos.
  assert (Hone : F2R (2 ^ 52) (-52) = 1%R) by (rewrite F2R_pow by lia; reflexivity).
  assert (Hdelta : (- bpow (-54) <= c - (1 - a) <= bpow (-54))%R).
  { destruct (Req_dec a 0) as [->|Hne].
    - rewrite Rminus_0_r in *. rewrite (RN_unique 1 c 1 Hc RN_1). lra.
    - assert (Hle : e <= -53).
      { destruct (Z_le_gt_dec e (-53)) as [|Hgt]; [assumption|]. exfalso.
        destruct (Hn ltac:(lia)) as [_ H52].
        assert (H1 : (F2R (2 ^ 52) e <= F2R m e)%R) by now apply F2R_le.
        rewrite F2R_pow in H1 by lia.
        pose proof (bpow_le 0 (52 + e) ltac:(lia)) as H0. rewrite bpow_0 in H0. lra. }
      pose proof (bpow_le e (-53) Hle). lra. }
  destruct (Rle_dec (1 - a) c) as [Hup|Hdown].
  - (* not below 1: at or just above the float 1 *)
    destruct (Req_dec c (1 - a)) as [Heq|Hne].
    + exists (2 ^ 52), (-52), loc_Exact.
      split; [lia|]. split; [now apply (canonical_pow 0)|].
      cbn [located round_nearest_even]. rewrite Hone. split; lra.
    + exists (2 ^ 52), (-52), (loc_Inexact Lt).
      split; [lia|]. split; [now apply (canonical_pow 0)|].
      cbn [located round_nearest_even]. unfold midpoint. rewrite Hone.
      split; [|reflexivity]. split; lra.
  - (* below 1: in the upper half of the last interval before 1 *)
    assert (Hpred : F2R (2 ^ 53 - 1) (-53) = (1 - bpow (-53))%R).
    { pose proof (F2R_succ (2 ^ 53 - 1) (-53)) as Hs.
      replace (2 ^ 53 - 1 + 1) with (2 ^ 53) in Hs by lia.
      rewrite F2R_pow in Hs by lia. change (53 + -53) with 0 in Hs.
      rewrite bpow_0 in Hs. lra. }
    assert (Hnext : F2R (2 ^ 53 - 1 + 1) (-53) = 1%R).
    { rewrite F2R_succ, Hpred. lra. }
    assert (Hcan53 : canonical (2 ^ 53 - 1) (-53)) by reflexivity.
    destruct (Req_dec (a + c) (1 - bpow (-54))) as [Heq|Hne].
    + exists (2 ^ 53 - 1), (-53), (loc_Inexact Eq).
      split; [lia|]. split; [exact Hcan53|].
      cbn [located]. unfold midpoint. rewrite Hpred.
      split; [lra|]. cbn [round_nearest_even].
      change (Z.even (2 ^ 53 - 1)) with false. cbv iota. now rewrite Hnext.
    + exists (2 ^ 53 - 1), (-53), (loc_Inexact Gt).
      split; [lia|]. split; [exact Hcan53|].
      cbn [located round_nearest_even]. unfold midpoint. rewrite Hpred, Hnext.
      split; [|reflexivity]. split; lra.
Qed.

End Binary64.

(** ** The intensity function *)

Section Intensity.
Import Binary64.

(** The primitive float [f] is zero or positive, finite, and stands
    for the real number [v]. *)
Definition represents (f : float) (v : R) : Prop :=
  nonneg_finite (Prim2SF f) /\ SF2R (Prim2SF f) = v.

Lemma bpow_1024_gt (v : R) : (v <= 2)%R -> (v < bpow 1024)%R.
Proof.
  intros H. pose proof (bpow_lt 1 1024 ltac:(lia)) as H1. rewrite bpow_1 in H1. lra.
Qed.

Lemma represents_one : represents 1.0 1%R.
Proof.
  split; [reflexivity|]. change (Prim2SF 1.0) with (S754_finite false (2 ^ 52) (-52)).
  cbn [SF2R cond_Zopp]. change (Zpos (2 ^ 52)) with (2 ^ 52)%Z.
  rewrite F2R_pow by lia. reflexivity.
Qed.

Lemma represents_RN (f : float) (v : R) : represents f v -> RN v v.
Proof. intros [Hf <-]. now apply RN_of_nonneg_finite. Qed.

Lemma represents_nonneg (f : float) (v : R) : represents f v -> (0 <= v)%R.
Proof. intros [Hf <-]. now apply nonneg_finite_SF2R. Qed.

Lemma represents_mul (f g : float) (u w : R) :
  represents f u -> represents g w ->
  exists v, RN (u * w) v /\ ((v < bpow 1024)%R -> represents (f * g) v).
Proof.
  intros [Hf <-] [Hg <-]. destruct (SFmul_rounds _ _ Hf Hg) as (v & Hv & H).
  exists v. split; [exact Hv|]. intros Hlt. unfold represents. rewrite mul_spec. auto.
Qed.

Lemma represents_add (f g : float) (u w : R) :
  represents f u -> represents g w ->
  exists v, RN (u + w) v /\ ((v < bpow 1024)%R -> represents (f + g) v).
Proof.
  intros [Hf <-] [Hg <-]. destruct (SFadd_rounds _ _ Hf Hg) as (v & Hv & H).
  exists v. split; [exact Hv|]. intros Hlt. unfold represents. rewrite add_spec. auto.
Qed.

Lemma represents_sub (f g : float) (u w : R) :
  represents f u -> represents g w -> (w <= u)%R ->
  exists v, RN (u - w) v /\ ((v < bpow 1024)%R -> represents (f - g) v).
Proof.
  intros [Hf <-] [Hg <-] Hle. destruct (SFsub_rounds _ _ Hf Hg Hle) as (v & Hv & H).
  exists v. split; [exact Hv|]. intros Hlt. unfold represents. rewrite sub_spec. auto.
Qed.

Lemma represents_leb (f g : float) (u w : R) :
  represents f u -> represents g w -> ((f <=? g)%float = true <-> (u <= w)%R).
Proof. intros [Hf <-] [Hg <-]. rewrite leb_spec. now apply SFleb_nonneg. Qed.

Lemma represents_ltb (f g : float) (u w : R) :
  represents f u -> represents g w -> ((f <? g)%float = true <-> (u < w)%R).
Proof. intros [Hf <-] [Hg <-]. rewrite ltb_spec. now apply SFltb_nonneg. Qed.

(** Two floats that stand for the same positive number are equal. *)
Lemma represents_inj (f g : float) (v : R) :
  represents f v -> represents g v -> (0 < v)%R -> f = g.
Proof.
  intros [Hf Hfv] [Hg Hgv] Hv. apply Prim2SF_inj.
  destruct (Prim2SF f) as [sf|sf| |[|] mf ef], (Prim2SF g) as [sg|sg| |[|] mg eg];
    cbn [nonneg_finite SF2R cond_Zopp] in *; try easy; try lra.
  destruct (positive_finite_inj mf mg ef eg Hf Hg) as [-> ->]; [lra | reflexivity].
Qed.

(** A float between 0 and 1, as the comparisons of floats see it. *)
Lemma represents_unit_interval (f : float) :
  (0 <=? f)%float = true -> (f <=? 1)%float = true ->
  exists a, represents f a /\ (0 <= a <= 1)%R.
Proof.
  intros H0 H1. rewrite leb_spec in H0, H1. pose proof (Prim2SF_valid f) as Hvalid.
  change (Prim2SF 0) with (S754_zero false) in H0.
  assert (Hnn : nonneg_finite (Prim2SF f)).
  { change (Prim2SF 1) with (S754_finite false (2 ^ 52) (-52)) in H1.
    destruct (Prim2SF f) as [s|[|]| |[|] m e]; cbn in *; try easy. }
  exists (SF2R (Prim2SF f)). split; [now split|].
  split; [now apply nonneg_finite_SF2R|].
  destruct represents_one as [Hone <-]. now apply SFleb_nonneg.
Qed.

Lemma Rdiv_le_1 (x y : R) : (0 < y)%R -> (x <= y)%R -> (x / y <= 1)%R.
Proof.
  intros Hy Hxy. apply (Rmult_le_reg_r y); [exact Hy|].
  unfold Rdiv. rewrite Rmult_assoc, Rinv_l by lra. lra.
Qed.

(** The true division of two positive integers is their quotient,
    rounded; it raises only when that exceeds the floats. *)
Lemma int_truediv_rounds (a b : Z) :
  (0 < a)%Z -> (0 < b)%Z ->
  exists v, RN (IZR a / IZR b) v /\
    ((v < bpow 1024)%R -> exists f, int_truediv a b = Ok f /\ represents f v).
Proof.
  intros Ha Hb. destruct a as [|pa|pa], b as [|pb|pb]; try lia.
  destruct (SFdiv_spec false false pa pb 0 0) as (v & Hv & Hr).
  unfold F2R in Hv. rewrite bpow_0, !Rmult_1_r in Hv.
  exists v. split; [exact Hv|]. intros Hlt.
  destruct (rounded_to_finite _ _ _ Hr Hlt) as (Hval & Hnn & Hvalid).
  specialize (Hnn eq_refl). unfold int_truediv. rewrite decide_False by lia.
  cbn [Z2SF xorb] in *.
  exists (SF2Prim (SF64div (S754_finite false pa 0) (S754_finite false pb 0))). split.
  - now destruct (SF64div (S754_finite false pa 0) (S754_finite false pb 0)).
  - unfold represents. rewrite Prim2SF_SF2Prim by exact Hvalid. now split.
Qed.

(** The computation of [calculate_intensity(s, 1.0)] on real numbers:
    each step is the exact operation followed by one rounding. *)
Lemma intensity_unboosted (cfg : config) (a : R) (s : Z) :
  represents (min_intensity cfg) a -> (0 <= a <= 1)%R ->
  (1 <= s <= max_upvotes cfg)%Z ->
  exists f q c p b t,
    calculate_intensity cfg s 1.0 = Ok f /\
    RN (IZR s / IZR (max_upvotes cfg)) q /\ RN (1 - a) c /\ RN c c /\ RN (c * q) p /\
    RN (a + p) b /\ RN (b * 1) t /\ represents f (Rmin t 1).
Proof.
  intros Hmin Ha Hs.
  assert (Hmax : (0 < IZR (max_upvotes cfg))%R) by (apply IZR_lt; lia).
  assert (Hquot : (0 <= IZR s / IZR (max_upvotes cfg) <= 1)%R).
  { split; [|apply Rdiv_le_1; [exact Hmax | apply IZR_le; lia]].
    unfold Rdiv. apply Rmult_le_pos; [apply IZR_le; lia|].
    now apply Rlt_le, Rinv_0_lt_compat. }
  (* scaled *)
  destruct (int_truediv_rounds s (max_upvotes cfg)) as (q & Hq & Hscaled); [lia|lia|].
  pose proof (RN_le_1 _ _ Hq (proj2 Hquot)) as Hq1.
  destruct (Hscaled (bpow_1024_gt q ltac:(lra))) as (scaled & Hdiv & Hrq).
  pose proof (represents_nonneg _ _ Hrq) as Hq0.
  (* 1.0 - MIN_INTENSITY *)
  destruct (represents_sub 1.0 (min_intensity cfg) 1 a represents_one Hmin (proj2 Ha))
    as (c & Hc & Hrc).
  pose proof (RN_le_1 _ _ Hc ltac:(lra)) as Hc1.
  specialize (Hrc (bpow_1024_gt c ltac:(lra))).
  pose proof (represents_nonneg _ _ Hrc) as Hc0.
  (* ... * scaled *)
  destruct (represents_mul _ _ _ _ Hrc Hrq) as (p & Hp & Hrp).
  pose proof (RN_le_1 _ _ Hp ltac:(nra)) as Hp1.
  specialize (Hrp (bpow_1024_gt p ltac:(lra))).
  pose proof (represents_nonneg _ _ Hrp) as Hp0.
  (* MIN_INTENSITY + ... *)
  destruct (represents_add _ _ _ _ Hmin Hrp) as (b & Hb & Hrb).
  assert (Hb2 : (b <= 2)%R).
  { rewrite <- bpow_1. apply (RN_le_bpow (a + p)); [lia | exact Hb | rewrite bpow_1; lra]. }
  specialize (Hrb (bpow_1024_gt b Hb2)).
  pose proof (represents_nonneg _ _ Hrb) as Hb0.
  (* ... * multiplier *)
  destruct (represents_mul _ _ _ _ Hrb represents_one) as (t & Ht & Hrt).
  assert (Ht2 : (t <= 2)%R).
  { rewrite <- bpow_1. apply (RN_le_bpow (b * 1)); [lia | exact Ht | rewrite bpow_1; lra]. }
  specialize (Hrt (bpow_1024_gt t Ht2)).
  (* min(..., 1.0) *)
  exists (py_min ((min_intensity cfg + (1 - min_intensity cfg) * scaled) * 1)%float 1%float),
    q, c, p, b, t.
  split; [unfold calculate_intensity; now rewrite Hdiv|].
  pose proof (represents_RN _ _ Hrc) as Hcc.
  repeat (split; [assumption|]).
  unfold py_min. pose proof (represents_ltb _ _ _ _ represents_one Hrt) as Hlt.
  destruct (1 <? _)%float.
  - rewrite Rmin_right by (apply Rlt_le; now apply Hlt). exact represents_one.
  - rewrite Rmin_left; [exact Hrt|].
    destruct (Rle_dec t 1) as [|Hn]; [assumption|].
    assert (false = true) by (apply Hlt; lra). discriminate.
Qed.

Lemma SFcompare_antisym (a b : spec_float) :
  SFcompare b a = option_map CompOpp (SFcompare a b).
Proof.
  destruct a as [sa|sa| |sa ma ea], b as [sb|sb| |sb mb eb]; cbn;
    try reflexivity; try (now destruct sa); try (now destruct sb);
    try (now destruct sa, sb).
  rewrite (Z.compare_antisym ea eb).
  pose proof (Pos.compare_cont_antisym ma mb Eq) as Hp. cbn [CompOpp] in Hp.
  rewrite <- Hp.
  now destruct sa, sb, (ea ?= eb)%Z, (Pos.compare_cont Eq ma mb).
Qed.

Lemma Prim2SF_not_nan (x : float) : is_nan x = false -> Prim2SF x <> S754_nan.
Proof.
  unfold Prim2SF. intros ->. destruct (is_zero x); [discriminate|].
  destruct (is_infinity x); [discriminate|].
  destruct (Z.frexp x) as [r e].
  destruct (shr_fexp prec emax (Uint63Axioms.to_Z (normfr_mantissa r)) (e - prec) loc_Exact)
    as [mrs e'].
  now destruct (shr_m mrs).
Qed.

(** On numbers, "not greater" is "less or equal". *)
Lemma not_ltb_leb (a b : float) :
  (a <? b)%float = false -> is_nan a = false -> is_nan b = false ->
  (b <=? a)%float = true.
Proof.
  rewrite ltb_spec, leb_spec. unfold SFltb, SFleb. intros Hlt Ha Hb.
  apply Prim2SF_not_nan in Ha, Hb. rewrite SFcompare_antisym.
  destruct (Prim2SF a) as [sa|sa| |sa ma ea], (Prim2SF b) as [sb|sb| |sb mb eb];
    try easy; cbn in *;
    repeat match goal with
           | |- context [if ?s then _ else _] => destruct s; cbn in *
           | H : context [if ?s then _ else _] |- _ => destruct s; cbn in *
           end; try easy;
    repeat match goal with
           | H : context [match ?c with Eq => _ | Lt => _ | Gt => _ end] |- _ =>
               destruct c; cbn in *
           end; easy.
Qed.

(** X2. The clamp: whatever the score and the boost, a returned intensity
    is never greater than 1.0, and it is at most 1.0 unless it is not
    a number. *)
Theorem intensity_never_exceeds_one (cfg : config) (post_score : Z) (boost r : float) :
  calculate_intensity cfg post_score boost = Ok r ->
  (1.0 <? r)%float = false /\ (is_nan r = false -> (r <=? 1.0)%float = true).
Proof.
  unfold calculate_intensity.
  destruct (int_truediv post_score (max_upvotes cfg)) as [scaled|e];
    cbn [mbind result_bind]; [|discriminate].
  set (x := ((min_intensity cfg + (1 - min_intensity cfg) * scaled) * boost)%float).
  intros H. assert (Hr : py_min x 1.0 = r) by congruence. clear H.
  assert (Hgt : (1.0 <? r)%float = false).
  { subst r. unfold py_min. destruct (1.0 <? x)%float eqn:E; [reflexivity | exact E]. }
  split; [exact Hgt|]. intros Hnan. now apply not_ltb_leb.
Qed.

Lemma intensity_never_exceeds_one_witness :
  calculate_intensity default_config 500 1.5 = Ok 1.0%float /\
  (1.0 <? 1.0)%float = false.
Proof.
  split; [reflexivity|].
  exact (proj1 (intensity_never_exceeds_one default_config 500 1.5 1.0 eq_refl)).
Defined.

(** The true division returns whenever the quotient is at most
    [2^1023] in absolute value. *)
Lemma int_truediv_returns (a b : Z) :
  b <> 0%Z -> (Z.abs a <= 2 ^ 1023 * Z.abs b)%Z ->
  int_truediv a b = Ok (SF2Prim (SF64div (Z2SF a) (Z2SF b))).
Proof.
  intros Hb Ha. unfold int_truediv. rewrite decide_False by exact Hb.
  destruct a as [|pa|pa]; [now destruct b| |];
    destruct b as [|pb|pb]; try lia; cbn [Z2SF].
  all: match goal with |- context [SF64div (S754_finite ?sx _ _) (S754_finite ?sy _ _)] =>
         destruct (SFdiv_spec sx sy pa pb 0 0) as (v & Hv & Hr) end.
  all: assert (Hle : (v <= bpow 1023)%R);
    [ apply (RN_le_bpow _ _ 1023 ltac:(lia) Hv);
      unfold F2R; rewrite bpow_0, !Rmult_1_r;
      rewrite (bpow_IZR 1023) by lia;
      apply (Rmult_le_reg_r (IZR (Zpos pb))); [apply IZR_lt; lia|];
      unfold Rdiv; rewrite Rmult_assoc, Rinv_l by (apply not_0_IZR; lia);
      rewrite Rmult_1_r, <- mult_IZR; apply IZR_le; lia
    | pose proof (bpow_lt 1023 1024 ltac:(lia));
      destruct Hr as [[_ ->]|[(m & e & -> & _)|[Hge _]]]; [reflexivity | reflexivity | lra] ].
Qed.

(** C1, as the code has it. For a non-zero full-intensity score and a
    score whose quotient by it stays within the floats,
    [calculate_intensity] returns
    [min((minIntensity + (1 - minIntensity) * scaled) * boost, 1.0)],
    where [scaled] is the quotient [score / maxScoreForFullIntensity]
    rounded to a float and every operation is the binary64 one, in
    this order; a zero full-intensity score raises. With 100 and 0.2
    the values at score 50 are the floats 0.6000000000000001 (boost
    1.0) and 0.9000000000000001 (boost 1.5): each is the float next
    above the float of the decimal 0.6, respectively 0.9. *)
Theorem calculate_intensity_formula :
  (forall (cfg : config) (post_score : Z) (boost : float),
     max_upvotes cfg <> 0%Z ->
     (Z.abs post_score <= 2 ^ 1023 * Z.abs (max_upvotes cfg))%Z ->
     exists scaled,
       int_truediv post_score (max_upvotes cfg) = Ok scaled /\
       calculate_intensity cfg post_score boost =
         Ok (py_min ((min_intensity cfg + (1.0 - min_intensity cfg) * scaled) * boost)
                    1.0)%float) /\
  (forall (cfg : config) (post_score : Z),
     (0 < post_score)%Z -> (0 < max_upvotes cfg)%Z ->
     (post_score <= 2 ^ 1023 * max_upvotes cfg)%Z ->
     exists scaled v,
       int_truediv post_score (max_upvotes cfg) = Ok scaled /\
       represents scaled v /\ RN (IZR post_score / IZR (max_upvotes cfg)) v) /\
  (forall (cfg : config) (post_score : Z) (boost : float),
     max_upvotes cfg = 0%Z ->
     calculate_intensity cfg post_score boost = Raise ZeroDivisionError) /\
  calculate_intensity default_config 50 1.0 = Ok 0.6000000000000001%float /\
  calculate_intensity default_config 50 1.5 = Ok 0.9000000000000001%float /\
  next_up 0.6 = 0.6000000000000001%float /\
  next_up 0.9 = 0.9000000000000001%float.
Proof.
  split; [|split; [|split]].
  - intros cfg post_score boost Hmax Hs. eexists. split.
    + now apply int_truediv_returns.
    + unfold calculate_intensity. now rewrite int_truediv_returns.
  - intros cfg post_score Hs Hmax Hle.
    destruct (int_truediv_rounds post_score (max_upvotes cfg) Hs Hmax) as (v & Hv & Hf).
    assert (Hv' : (v <= bpow 1023)%R).
    { apply (RN_le_bpow _ _ 1023 ltac:(lia) Hv). rewrite (bpow_IZR 1023) by lia.
      apply (Rmult_le_reg_r (IZR (max_upvotes cfg))); [apply IZR_lt; lia|].
      unfold Rdiv. rewrite Rmult_assoc, Rinv_l by (apply not_0_IZR; lia).
      rewrite Rmult_1_r, <- mult_IZR. now apply IZR_le. }
    pose proof (bpow_lt 1023 1024 ltac:(lia)).
    destruct (Hf ltac:(lra)) as (scaled & Hdiv & Hrep). now exists scaled, v.
  - intros cfg post_score boost Hmax. unfold calculate_intensity, int_truediv.
    now rewrite Hmax.
  - repeat split; reflexivity.
Qed.

(** The claim fails on its two examples: the floats returned are not
    the floats of 0.6 and 0.9, which Python's [==] tells apart. *)
Lemma intensity_examples_are_one_ulp_off :
  calculate_intensity default_config 50 1.0 = Ok 0.6000000000000001%float /\
  (0.6000000000000001 =? 0.6)%float = false /\
  calculate_intensity default_config 50 1.0 <> Ok 0.6%float /\
  calculate_intensity default_config 50 1.5 = Ok 0.9000000000000001%float /\
  (0.9000000000000001 =? 0.9)%float = false /\
  calculate_intensity default_config 50 1.5 <> Ok 0.9%float.
Proof.
  repeat split; try reflexivity; intros H;
    apply (f_equal (fun r => match r with Ok x => Prim2SF x | Raise _ => S754_nan end))
      in H; vm_compute in H; discriminate H.
Qed.

(** C9. With the minimum intensity between 0 and 1 and a positive
    full-intensity score, the intensity without boost does not
    decrease from a score [s1] to a larger score [s2], for scores from
    1 to the full-intensity score, and it is exactly [1.0] at the
    full-intensity score. Both are statements about the binary64
    values the function returns. *)
Theorem intensity_monotone_and_full_at_max (cfg : config) (s1 s2 : Z) :
  (0 <=? min_intensity cfg)%float = true ->
  (min_intensity cfg <=? 1)%float = true ->
  (0 < max_upvotes cfg)%Z ->
  (1 <= s1)%Z -> (s1 <= s2)%Z -> (s2 <= max_upvotes cfg)%Z ->
  (exists i1 i2,
     calculate_intensity cfg s1 1.0 = Ok i1 /\
     calculate_intensity cfg s2 1.0 = Ok i2 /\
     (i1 <=? i2)%float = true) /\
  calculate_intensity cfg (max_upvotes cfg) 1.0 = Ok 1.0%float.
Proof.
  intros H0 H1 Hmax Hs1 Hs12 Hs2.
  destruct (represents_unit_interval _ H0 H1) as (a & Hmin & Ha).
  assert (Hmax' : (0 < IZR (max_upvotes cfg))%R) by (apply IZR_lt; lia).
  split.
  - destruct (intensity_unboosted cfg a s1 Hmin Ha ltac:(lia))
      as (i1 & q1 & c1 & p1 & b1 & t1 & Hi1 & Hq1 & Hc1 & _ & Hp1 & Hb1 & Ht1 & Hr1).
    destruct (intensity_unboosted cfg a s2 Hmin Ha ltac:(lia))
      as (i2 & q2 & c2 & p2 & b2 & t2 & Hi2 & Hq2 & Hc2 & _ & Hp2 & Hb2 & Ht2 & Hr2).
    exists i1, i2. split; [exact Hi1|]. split; [exact Hi2|].
    apply (represents_leb _ _ _ _ Hr1 Hr2).
    pose proof (RN_unique _ _ _ Hc1 Hc2) as <-.
    destruct (RN_nonneg _ _ Hc1) as [_ Hc0].
    destruct (RN_nonneg _ _ Hq1) as [_ Hq0].
    assert (Hq : (q1 <= q2)%R).
    { apply (RN_monotone (IZR s1 / IZR (max_upvotes cfg))
                         (IZR s2 / IZR (max_upvotes cfg))); [|assumption..].
      unfold Rdiv. apply Rmult_le_compat_r; [|apply IZR_le; lia].
      now apply Rlt_le, Rinv_0_lt_compat. }
    assert (Hp : (p1 <= p2)%R) by (apply (RN_monotone (c1 * q1) (c1 * q2)); [nra|..]; assumption).
    assert (Hb : (b1 <= b2)%R) by (apply (RN_monotone (a + p1) (a + p2)); [lra|..]; assumption).
    assert (Ht : (t1 <= t2)%R) by (apply (RN_monotone (b1 * 1) (b2 * 1)); [lra|..]; assumption).
    now apply Rle_min_compat_r.
  - destruct (intensity_unboosted cfg a (max_upvotes cfg) Hmin Ha ltac:(lia))
      as (f & q & c & p & b & t & Hf & Hq & Hc & Hcc & Hp & Hb & Ht & Hr).
    rewrite Hf. f_equal.
    replace (IZR (max_upvotes cfg) / IZR (max_upvotes cfg))%R with 1%R in Hq
      by (field; lra).
    pose proof (RN_unique _ _ _ Hq RN_1) as ->.
    rewrite Rmult_1_r in Hp. pose proof (RN_unique _ _ _ Hp Hcc) as ->.
    pose proof (RN_complement a c b Ha Hc Hb) as ->.
    rewrite Rmult_1_r in Ht. pose proof (RN_unique _ _ _ Ht RN_1) as ->.
    rewrite Rmin_left in Hr by lra.
    apply (represents_inj f 1.0 1 Hr represents_one). lra.
Qed.

(** The default settings, from one vote to a larger count; and the
    full-intensity score. *)
Lemma intensity_monotone_and_full_at_max_witness :
  (exists i1 i2,
     calculate_intensity default_config 1 1.0 = Ok i1 /\
     calculate_intensity default_config 50 1.0 = Ok i2 /\
     (i1 <=? i2)%float = true) /\
  calculate_intensity default_config 100 1.0 = Ok 1.0%float.
Proof.
  exact (intensity_monotone_and_full_at_max default_config 1 50
           eq_refl eq_refl eq_refl (Z.le_refl 1) ltac:(discriminate) ltac:(discriminate)).
Defined.

End Intensity.

(** * Further properties *)

(** ** Start-up: credentials, and the order of the import *)

Section Startup.

(** X3. The credentials. Lines 79-82 succeed exactly on a
    [config.json] that holds an object with the three Reddit entries,
    and the server address is the entry of the object or, without one,
    [ws://localhost:12345]. An object that lacks one of the three
    entries raises [KeyError] for an entry it lacks; a document that
    is no object raises [AttributeError]. A missing [config.json]
    raises [FileNotFoundError] and content that is not JSON raises
    [JSONDecodeError]. *)
Theorem credentials_are_required :
  (forall (config : json) (c : credentials),
     read_credentials config = Ok c <->
     exists d client_id secret user_agent,
       config = JObj d /\
       d !! "reddit_client_id" = Some client_id /\
       d !! "reddit_secret" = Some secret /\
       d !! "reddit_user_agent" = Some user_agent /\
       c = {| BUTTPLUG_SERVER_URL :=
                default (JStr "ws://localhost:12345") (d !! "buttplug_server_url");
              REDDIT_CLIENT_ID := client_id; REDDIT_SECRET := secret;
              REDDIT_USER_AGENT := user_agent |}) /\
  (forall (d : gmap string json) (key : string),
     key ∈ ["reddit_client_id"; "reddit_secret"; "reddit_user_agent"] ->
     d !! key = None ->
     exists missing,
       read_credentials (JObj d) = Raise (KeyError missing) /\ d !! missing = None) /\
  (forall config : json,
     match config with
     | JObj _ => True
     | _ => read_credentials config = Raise AttributeError
     end) /\
  load_config Missing = Raise (FileNotFoundError "Missing config.json. Please create it.") /\
  load_config Malformed = Raise JSONDecodeError /\
  (forall doc : json, load_config (Holds doc) = Ok doc).
Proof.
  split; [|split; [|split; [|repeat split]]].
  - intros config c. unfold read_credentials. split.
    + destruct config as [| | | | | |d]; try discriminate.
      cbn [dict_get mbind result_bind subscript].
      destruct (d !! "reddit_client_id") as [i|] eqn:Ei; [|discriminate].
      destruct (d !! "reddit_secret") as [s|] eqn:Es; [|discriminate].
      destruct (d !! "reddit_user_agent") as [u|] eqn:Eu; [|discriminate].
      cbn [mbind result_bind]. intros H. injection H as <-.
      exists d, i, s, u. repeat split; assumption.
    + intros (d & i & s & u & -> & Hi & Hs & Hu & ->).
      cbn [dict_get mbind result_bind subscript]. rewrite Hi, Hs, Hu.
      cbn [mbind result_bind]. now destruct (d !! "buttplug_server_url").
  - intros d key Hkey Hnone. unfold read_credentials.
    cbn [dict_get mbind result_bind subscript].
    destruct (d !! "reddit_client_id") as [i|] eqn:Ei;
      [|now exists "reddit_client_id"].
    destruct (d !! "reddit_secret") as [s|] eqn:Es;
      [|now exists "reddit_secret"].
    destruct (d !! "reddit_user_agent") as [u|] eqn:Eu;
      [|now exists "reddit_user_agent"].
    exfalso. repeat (apply elem_of_cons in Hkey as [->|Hkey]; [congruence|]).
    now apply elem_of_nil in Hkey.
  - now intros [| | | | | |d].
Qed.

Definition reddit_only : gmap string json :=
  <["reddit_client_id" := JStr "id"]>
  (<["reddit_secret" := JStr "secret"]>
  (<["reddit_user_agent" := JStr "intibot"]> ∅)).

(** A [config.json] with the three Reddit entries and no server
    address: the credentials are read, the address is the default. *)
Lemma credentials_are_required_witness :
  read_credentials (JObj reddit_only) =
    Ok {| BUTTPLUG_SERVER_URL := JStr "ws://localhost:12345";
          REDDIT_CLIENT_ID := JStr "id"; REDDIT_SECRET := JStr "secret";
          REDDIT_USER_AGENT := JStr "intibot" |}.
Proof.
  apply (proj1 credentials_are_required).
  exists reddit_only, (JStr "id"), (JStr "secret"), (JStr "intibot").
  repeat split; reflexivity.
Defined.

(** Making the client from credentials [c] raises [e]: reading them
    raises, or the constructor does. *)
Definition client_fails (config : json) (praw_Reddit : json -> json -> json -> result unit)
    (e : exn) : Prop :=
  read_credentials config = Raise e \/
  exists c, read_credentials config = Ok c /\
    praw_Reddit (REDDIT_CLIENT_ID c) (REDDIT_SECRET c) (REDDIT_USER_AGENT c) = Raise e.

(** X4. The order of the import. When [config.json] cannot be loaded
    the cache file is left as it was, reset or not. When the settings
    resolve and the credentials or the construction of the Reddit
    client then fail, the import ends with that exception, yet the
    cache has been written: it holds the settings of this run, and a
    later run without options resolves them. The import gets past the
    construction of the client exactly when the four steps succeed:
    loading [config.json], resolving the settings, reading the
    credentials, constructing the client. *)
Theorem failed_start_and_the_cache (args : Args) (config_file cache : cache_file)
    (praw_Reddit : json -> json -> json -> result unit) :
  (forall e, load_config config_file = Raise e ->
     startup args config_file cache praw_Reddit = (cache, Raise e)) /\
  (forall config e s cache1,
     load_config config_file = Ok config ->
     load_or_reset_settings args cache = Ok (s, cache1) ->
     client_fails config praw_Reddit e ->
     startup args config_file cache praw_Reddit = (cache1, Raise e) /\
     cache1 = Holds (settings_doc s) /\
     load_or_reset_settings no_overrides cache1 = Ok (s, cache1)) /\
  (forall s c cache1,
     startup args config_file cache praw_Reddit = (cache1, Ok (s, c)) <->
     exists config,
       load_config config_file = Ok config /\
       load_or_reset_settings args cache = Ok (s, cache1) /\
       read_credentials config = Ok c /\
       praw_Reddit (REDDIT_CLIENT_ID c) (REDDIT_SECRET c) (REDDIT_USER_AGENT c) = Ok tt).
Proof.
  unfold startup. split; [|split].
  - now intros e ->.
  - intros config e s cache1 -> Hs Hfail. rewrite Hs. split.
    + destruct Hfail as [->|(c & -> & Hc)]; [reflexivity|].
      cbn [mbind result_bind]. now rewrite Hc.
    + apply load_or_reset_settings_saves in Hs as ->.
      split; [reflexivity | apply load_or_reset_settings_reload].
  - intros s c cache1. split.
    + destruct (load_config config_file) as [config|e]; [|discriminate].
      destruct (load_or_reset_settings args cache) as [[s' cache']|e]; [|discriminate].
      destruct (read_credentials config) as [c'|e] eqn:Ec; cbn [mbind result_bind];
        [|discriminate].
      destruct (praw_Reddit _ _ _) as [[]|e] eqn:Er; cbn [mbind result_bind];
        [|discriminate].
      intros H. injection H as <- <- <-. now exists config.
    + intros (config & -> & -> & -> & Hr). cbn [mbind result_bind]. now rewrite Hr.
Qed.

(** A constructor that refuses a client id that is [null]. *)
Definition refuses_null (client_id secret user_agent : json) : result unit :=
  match client_id with
  | JNull => Raise (OtherException "MissingRequiredAttributeException")
  | _ => Ok tt
  end.

Definition null_client_id : gmap string json :=
  <["reddit_client_id" := JNull]>
  (<["reddit_secret" := JStr "secret"]>
  (<["reddit_user_agent" := JStr "intibot"]> ∅)).

(** A first run with [--minimum 0.3] and a [config.json] whose client
    id is [null]: the credentials are read, the import fails when the
    client is made, the cache is written, and the next run resolves
    0.3. *)
Lemma failed_start_and_the_cache_witness :
  exists s cache1,
    startup minimum_0_3 (Holds (JObj null_client_id)) Missing refuses_null
      = (cache1, Raise (OtherException "MissingRequiredAttributeException")) /\
    cache1 = Holds (settings_doc s) /\
    load_or_reset_settings no_overrides cache1 = Ok (s, cache1) /\
    MIN_INTENSITY s = JFloat 0.3.
Proof.
  eexists _, _.
  pose proof (proj1 (proj2 (failed_start_and_the_cache
                              minimum_0_3 (Holds (JObj null_client_id)) Missing
                              refuses_null))
                (JObj null_client_id) (OtherException "MissingRequiredAttributeException")
                _ _ eq_refl eq_refl
                (or_intror (ex_intro _ _ (conj eq_refl eq_refl))))
    as (H1 & H2 & H3).
  split; [exact H1|]. split; [exact H2|]. split; [exact H3 | reflexivity].
Defined.

End Startup.

(** ** Settings: precedence of the sources *)

Section Precedence.

(** Every field has an override that counts. *)
Definition fully_overridden (args : Args) : bool :=
  bool_decide (is_Some (truthy_str (arg_id args))) &&
  bool_decide (is_Some (arg_minimum args)) &&
  bool_decide (is_Some (arg_max_upvotes args)) &&
  bool_decide (is_Some (truthy_str (arg_keywords args))) &&
  bool_decide (is_Some (arg_multiplier args)).

Definition is_object (doc : json) : bool :=
  match doc with JObj _ => true | _ => false end.

(** The dictionary the resolution reads: empty after a reset. *)
Definition cached_dict (args : Args) (d : gmap string json) : gmap string json :=
  if arg_reset args then ∅ else d.

Lemma resolve_object (args : Args) (d : gmap string json) :
  exists s,
    load_or_reset_settings args (Holds (JObj d)) = Ok (s, Holds (settings_doc s)) /\
    POST_ID s = from_option JStr
                  (default (JStr "gxvdih") (cached_dict args d !! "post_id"))
                  (truthy_str (arg_id args)) /\
    MIN_INTENSITY s = from_option JFloat
                        (default (JFloat 0.2) (cached_dict args d !! "min_intensity"))
                        (arg_minimum args) /\
    MAX_UPVOTES s = from_option JInt
                      (default (JInt 100) (cached_dict args d !! "max_upvotes"))
                      (arg_max_upvotes args) /\
    KEYWORD_LIST s = from_option (fun k => JArr (JStr <$> Str.split "," k))
                       (default default_keywords (cached_dict args d !! "keywords"))
                       (truthy_str (arg_keywords args)) /\
    KEYWORD_INTENSITY_MULTIPLIER s =
      from_option JFloat (default (JFloat 1.5) (cached_dict args d !! "multiplier"))
        (arg_multiplier args).
Proof.
  destruct args as [i m u r k x]. unfold load_or_reset_settings, cached_dict.
  cbn [arg_reset arg_id arg_minimum arg_max_upvotes arg_keywords arg_multiplier].
  assert (Hload : load_cached_settings (if r then Missing else Holds (JObj d))
                  = Ok (JObj (if r then ∅ else d))) by now destruct r.
  rewrite Hload. cbn [mbind result_bind]. set (d' := if r then ∅ else d).
  destruct (truthy_str i), m, u, (truthy_str k), x;
    cbn [dict_get mbind result_bind from_option];
    eexists; (split; [reflexivity|]);
    cbn [POST_ID MIN_INTENSITY MAX_UPVOTES KEYWORD_LIST KEYWORD_INTENSITY_MULTIPLIER];
    repeat split;
    match goal with |- context [d' !! ?key] => now destruct (d' !! key) end.
Qed.

(** X5. Precedence. Against a cache that holds an object, the
    resolution never raises, saves what it resolved, and takes every
    field from the override when one is given, else from the cached
    entry when the object has one (whatever its value), else from the
    built-in default; after a reset the object counts as empty. The
    overrides of [--id] and [--keywords] count only when they are not
    the empty string; a numeric override counts whatever its value,
    zero included. *)
Theorem settings_precedence (args : Args) (d : gmap string json) :
  (exists s,
     load_or_reset_settings args (Holds (JObj d)) = Ok (s, Holds (settings_doc s)) /\
     POST_ID s = from_option JStr
                   (default (JStr "gxvdih") (cached_dict args d !! "post_id"))
                   (truthy_str (arg_id args)) /\
     MIN_INTENSITY s = from_option JFloat
                         (default (JFloat 0.2) (cached_dict args d !! "min_intensity"))
                         (arg_minimum args) /\
     MAX_UPVOTES s = from_option JInt
                       (default (JInt 100) (cached_dict args d !! "max_upvotes"))
                       (arg_max_upvotes args) /\
     KEYWORD_LIST s = from_option (fun k => JArr (JStr <$> Str.split "," k))
                        (default default_keywords (cached_dict args d !! "keywords"))
                        (truthy_str (arg_keywords args)) /\
     KEYWORD_INTENSITY_MULTIPLIER s =
       from_option JFloat (default (JFloat 1.5) (cached_dict args d !! "multiplier"))
         (arg_multiplier args)) /\
  truthy_str (Some "") = None /\
  (forall p : string, p <> "" -> truthy_str (Some p) = Some p).
Proof.
  split; [apply resolve_object|]. split; [reflexivity|].
  intros [|c p] Hp; [now destruct Hp | reflexivity].
Qed.

(** X6. A cache file that holds JSON which is no object (a list, a
    number, ...). Without a reset, the resolution raises
    [AttributeError] as soon as one field has no override that
    counts, and it resolves and overwrites the file when all five
    have. *)
Theorem cache_that_is_no_object (args : Args) (doc : json) :
  is_object doc = false -> arg_reset args = false ->
  (fully_overridden args = false ->
     load_or_reset_settings args (Holds doc) = Raise AttributeError) /\
  (fully_overridden args = true ->
     exists s, load_or_reset_settings args (Holds doc) = Ok (s, Holds (settings_doc s))).
Proof.
  intros Hdoc Hreset. destruct args as [i m u r k x]. cbn [arg_reset] in Hreset. subst r.
  unfold fully_overridden, load_or_reset_settings.
  cbn [arg_reset arg_id arg_minimum arg_max_upvotes arg_keywords arg_multiplier
       load_cached_settings mbind result_bind].
  assert (Hget : forall key default, dict_get doc key default = Raise AttributeError).
  { intros key default. now destruct doc. }
  split.
  - intros Hnot.
    rewrite !Hget.
    destruct (truthy_str i); [|reflexivity].
    destruct m; [|reflexivity].
    destruct u; [|reflexivity].
    destruct (truthy_str k); [|reflexivity].
    destruct x; [|reflexivity].
    exfalso. revert Hnot. rewrite !bool_decide_eq_true_2 by (now eexists). discriminate.
  - intros Hall.
    destruct (truthy_str i); [|discriminate Hall].
    destruct m; [|discriminate Hall].
    destruct u; [|discriminate Hall].
    destruct (truthy_str k); [|discriminate Hall].
    destruct x; [|discriminate Hall].
    eexists. reflexivity.
Qed.

(** A cache file that holds the JSON list [[]]: a run without options
    stops on it. *)
Lemma cache_that_is_no_object_witness :
  load_or_reset_settings no_overrides (Holds (JArr [])) = Raise AttributeError.
Proof.
  exact (proj1 (cache_that_is_no_object no_overrides (JArr []) eq_refl eq_refl) eq_refl).
Defined.

End Precedence.

(** ** Triggers as they are written on the command line *)

Section Triggers.
Import Str StrFacts.


(** The pieces written one after the other, [sep] between them:
    [sep.join(pieces)]. *)
Fixpoint join (sep : ascii) (pieces : list string) : string :=
  match pieces with
  | [] => ""
  | [piece] => piece
  | piece :: rest => piece +:+ String sep (join sep rest)
  end.

(** [sep] does not occur in [s]. *)
Fixpoint free_of (sep : ascii) (s : string) : bool :=
  match s with
  | EmptyString => true
  | String c rest => negb (bool_decide (c = sep)) && free_of sep rest
  end.









Lemma split_nonempty (sep : ascii) (s : string) : split sep s <> [].
Proof.
  destruct s as [|c s]; cbn [split]; [discriminate|].
  destruct (decide (c = sep)); [discriminate|]. now destruct (split sep s).
Qed.

Lemma join_cons (sep : ascii) (piece : string) (rest : list string) :
  rest <> [] -> join sep (piece :: rest) = piece +:+ String sep (join sep rest).
Proof. now destruct rest. Qed.

Lemma join_split (sep : ascii) (s : string) : join sep (split sep s) = s.
Proof.
  induction s as [|c s IH]; [reflexivity|]. cbn [split].
  pose proof (split_nonempty sep s) as Hne.
  destruct (decide (c = sep)) as [->|Hc].
  - rewrite join_cons by exact Hne. now rewrite append_nil_l, IH.
  - destruct (split sep s) as [|piece pieces]; [now destruct Hne|].
    destruct pieces as [|p ps].
    + cbn [join] in *. now rewrite IH.
    + rewrite join_cons in * by discriminate. now rewrite append_cons, IH.
Qed.

Lemma split_free (sep : ascii) (s : string) :
  Forall (fun p => free_of sep p = true) (split sep s).
Proof.
  induction s as [|c s IH]; cbn [split]; [now repeat constructor|].
  destruct (decide (c = sep)) as [->|Hc]; [now constructor|].
  pose proof (split_nonempty sep s) as Hne.
  destruct (split sep s) as [|piece pieces]; [now destruct Hne|].
  inversion IH as [|? ? Hp Hps]; subst. constructor; [|exact Hps].
  cbn [free_of]. now rewrite bool_decide_eq_false_2, Hp.
Qed.

Lemma split_free_piece (sep : ascii) (p : string) : free_of sep p = true -> split sep p = [p].
Proof.
  induction p as [|c p IH]; [reflexivity|]. cbn [free_of split].
  intros H. apply andb_true_iff in H as [Hc Hp].
  apply negb_true_iff, bool_decide_eq_false in Hc.
  rewrite decide_False by exact Hc. now rewrite IH.
Qed.

Lemma split_app_sep (sep : ascii) (p rest : string) :
  free_of sep p = true -> split sep (p +:+ String sep rest) = p :: split sep rest.
Proof.
  induction p as [|c p IH]; cbn [free_of].
  - intros _. rewrite append_nil_l. cbn [split]. now rewrite decide_True.
  - intros H. apply andb_true_iff in H as [Hc Hp].
    apply negb_true_iff, bool_decide_eq_false in Hc.
    rewrite append_cons. cbn [split]. rewrite decide_False by exact Hc. now rewrite IH.
Qed.

Lemma split_join (sep : ascii) (pieces : list string) :
  pieces <> [] -> Forall (fun p => free_of sep p = true) pieces ->
  split sep (join sep pieces) = pieces.
Proof.
  intros Hne Hall. induction Hall as [|p ps Hp Hps IH]; [now destruct Hne|].
  destruct ps as [|q qs].
  - cbn [join]. now apply split_free_piece.
  - rewrite join_cons by discriminate. rewrite split_app_sep by exact Hp.
    now rewrite IH.
Qed.

(** X8. The keyword override is cut at every comma and nowhere
    else: for a non-empty override the resolved triggers are the
    pieces of [split]; the pieces, written with commas between them,
    give the override back, there is at least one piece and no piece
    holds a comma; and [split] gives back any non-empty list of
    comma-free pieces from their joined text. Spaces and letter case
    are kept. *)
Theorem keyword_override_is_cut_at_commas :
  (forall (args : Args) (fs fs1 : cache_file) (s : settings) (k : string),
     arg_keywords args = Some k -> k <> "" ->
     load_or_reset_settings args fs = Ok (s, fs1) ->
     KEYWORD_LIST s = JArr (JStr <$> split "," k)) /\
  (forall k : string,
     join "," (split "," k) = k /\
     split "," k <> [] /\
     Forall (fun p => free_of "," p = true) (split "," k)) /\
  (forall pieces : list string,
     pieces <> [] -> Forall (fun p => free_of "," p = true) pieces ->
     split "," (join "," pieces) = pieces).
Proof.
  split; [|split].
  - intros args fs fs1 s k Hk Hne Hrun.
    assert (Ht : truthy_str (Some k) = Some k) by (destruct k; [now destruct Hne | reflexivity]).
    unfold load_or_reset_settings in Hrun. rewrite Hk, Ht in Hrun.
    repeat match type of Hrun with
           | (?m ≫= _) = _ => destruct m; [cbn [mbind result_bind] in Hrun | discriminate Hrun]
           end.
    now injection Hrun as <- _.
  - intros k. split; [apply join_split|]. split; [apply split_nonempty | apply split_free].
  - intros pieces. apply split_join.
Qed.

(** The override [knot, Choke,]: three pieces, the space and the
    capital kept, the last one empty. *)
Lemma keyword_override_is_cut_at_commas_witness :
  split "," "knot, Choke," = ["knot"; " Choke"; ""] /\
  join "," (split "," "knot, Choke,") = "knot, Choke,".
Proof.
  split; [reflexivity|].
  exact (proj1 (proj1 (proj2 keyword_override_is_cut_at_commas) "knot, Choke,")).
Defined.

End Triggers.

(** ** What reaches the device *)

Section Actuation.

(** The events of a turn of the loop outside the handling of a
    comment, and those of [main]. *)
Definition turn_event (e : event) : Prop :=
  match e with
  | GetNewComments _ _ | Sleep _ => True
  | _ => False
  end.

Definition loop_event (e : event) : Prop :=
  match e with
  | Connect | StartScanning | StopScanning | Sleep _ | FetchTitle
  | GetNewComments _ _ | Disconnect => True
  | Printed l =>
      match l with
      | CouldNotConnect _ | MonitoringPost _ | MaxUpvotes _ | MinIntensity _
      | KeywordTriggers _ | KeywordMultiplier _ | RuntimeError _ | BotShutDown => True
      | _ => False
      end
  | _ => False
  end.

(** A property of events holds along the loop, and along every run,
    as soon as it holds of the events outside the handling of a
    comment and along the handling of each comment. *)
Section AlongTheLoop.

Context (P : event -> Prop) (cfg : config).
Hypothesis Hhandle : forall sub io c, always P (handle_comment cfg sub io c).

Lemma always_for_comments (sub : submission) (pulses : nat -> pulse_io)
    (new_comments : list comment) (k : nat) :
  always P (for_comments cfg sub pulses k new_comments).
Proof.
  revert k. induction new_comments as [|c rest IH]; intros k; cbn [for_comments].
  - apply always_ret.
  - apply always_bind; [apply Hhandle | intros ? ? _; apply IH].
Qed.

Lemma always_cycle (io : cycle_io) :
  (forall e, turn_event e -> P e) -> always P (cycle cfg io).
Proof.
  intros Hturn. unfold cycle.
  apply always_bind; [apply always_get_seen | intros seen_ids ? _].
  apply always_bind; [apply always_call; now apply Hturn | intros [sub new_comments] ? _].
  apply always_bind; [apply always_for_comments | intros ? ? _].
  apply always_call. now apply Hturn.
Qed.

Lemma always_monitor (turns : list cycle_io) :
  (forall e, turn_event e -> P e) -> always P (monitor cfg turns).
Proof.
  intros Hturn. induction turns as [|io rest IH]; cbn [monitor].
  - apply always_pending.
  - apply always_bind; [now apply always_cycle | intros ? ? _; exact IH].
Qed.

Lemma always_main (w : world) :
  (forall e, loop_event e -> P e) -> always P (main cfg w).
Proof.
  intros Hloop. unfold main. apply always_bind.
  - apply always_try_except.
    + always_seq; first [apply always_call; now apply Hloop | apply always_ret].
    + intros e. apply always_bind;
        [apply always_print; now apply Hloop | intros ? ? _; apply always_ret].
  - intros [|] ? _; [|apply always_ret].
    always_seq;
      try first [apply always_call; now apply Hloop | apply always_print; now apply Hloop].
    unfold monitoring. apply always_try_finally.
    + apply always_try_except.
      * apply always_monitor. intros e He. apply Hloop. now destruct e.
      * intros e. apply always_print. now apply Hloop.
    + apply always_bind;
        [apply always_call; now apply Hloop
        | intros ? ? _; apply always_print; now apply Hloop].
Qed.

End AlongTheLoop.

Lemma of_result_done {A} (r : result A) (seen : gset string) (a : A) :
  outcome_of (of_result r seen) = Done a -> r = Ok a.
Proof. destruct r; cbn; congruence. Qed.

(** The handling of a comment, as far as a property of events sees it:
    the events before the intensity is known, then the pulse at an
    intensity that [calculate_intensity] returned. *)
Lemma always_handle_comment (P : event -> Prop) (cfg : config) (sub : submission)
    (io : pulse_io) (c : comment) :
  P (SeenAdd (comment_id c)) ->
  P (Printed (NewComment (comment_author c) (Str.take 80 (comment_body c)))) ->
  P (Printed (KeywordDetected (classify cfg (comment_body c)))) ->
  P (CalculateIntensity (or_1 (score sub)) (classify cfg (comment_body c))) ->
  (forall intensity,
     calculate_intensity cfg (or_1 (score sub)) (classify cfg (comment_body c))
       = Ok intensity ->
     P (Printed (PostScore (or_1 (score sub)) intensity)) /\
     always P (send_vibration io intensity)) ->
  always P (handle_comment cfg sub io c).
Proof.
  intros Hadd Hnew Hkey Hcalc Hrest. unfold handle_comment.
  apply always_bind; [now apply always_seen_add | intros ? ? _].
  apply always_bind; [now apply always_print | intros ? ? _].
  apply always_bind.
  { destruct (any_keyword cfg _); [now apply always_print | apply always_ret]. }
  intros ? ? _.
  apply always_bind; [now apply always_emit | intros ? ? _].
  apply always_bind; [apply always_of_result | intros intensity s Hdone].
  apply of_result_done in Hdone. destruct (Hrest intensity Hdone) as [Hp Hs].
  apply always_bind; [now apply always_print | intros ? ? _; exact Hs].
Qed.

Lemma always_send_vibration (P : event -> Prop) (io : pulse_io) (x : float) :
  (forall a, P (Command a x)) -> (forall a, P (Command a 0.0)) ->
  P (Printed (SentVibration x VIBRATION_DURATION)) -> P (Sleep VIBRATION_DURATION) ->
  P (Printed NoActuators) -> P (Printed NoDevices) ->
  always P (send_vibration io x).
Proof.
  intros Hon Hoff Hsent Hsleep Hna Hnd. unfold send_vibration.
  destruct (client_devices io) as [|d ?]; [now apply always_print|].
  destruct (actuators d) as [|a ?]; [now apply always_print|].
  always_seq; first [now apply always_call | now apply always_print].
Qed.

Lemma py_min_clamps (a : float) : (1.0 <? py_min a 1.0)%float = false.
Proof. unfold py_min. destruct (1.0 <? a)%float eqn:E; [reflexivity | exact E]. Qed.

Lemma calculate_intensity_clamps (cfg : config) (post_score : Z) (boost r : float) :
  calculate_intensity cfg post_score boost = Ok r -> (1.0 <? r)%float = false.
Proof.
  unfold calculate_intensity.
  destruct (int_truediv post_score (max_upvotes cfg)) as [scaled|e];
    cbn [mbind result_bind]; [|discriminate].
  intros H. injection H as <-. apply py_min_clamps.
Qed.

(** A level sent to the device: the stop level, or an intensity that
    [calculate_intensity] returned; never above the full scale. *)
Definition within_full_scale (cfg : config) (e : event) : Prop :=
  match e with
  | Command _ level =>
      (1.0 <? level)%float = false /\
      (level = 0.0%float \/
       exists post_score boost, calculate_intensity cfg post_score boost = Ok level)
  | _ => True
  end.

Lemma main_within_full_scale (cfg : config) (w : world) :
  always (within_full_scale cfg) (main cfg w).
Proof.
  apply always_main.
  - intros sub io c. apply always_handle_comment; try exact I.
    intros intensity Hcalc. split; [exact I|].
    apply always_send_vibration; try exact I.
    + intros a. split; [exact (calculate_intensity_clamps _ _ _ _ Hcalc)|].
      right. eauto.
    + intros a. split; [reflexivity | now left].
  - intros e He. destruct e; try exact I. now destruct He.
Qed.

(** X9. Every level sent to the device in a run is the stop level
    0.0 or an intensity that [calculate_intensity] returned for the
    settings of the run, and no level is greater than 1.0. *)
Theorem device_never_driven_above_full_scale (cfg : config) (w : world)
    (a : actuator) (level : float) :
  Command a level ∈ trace_of (run cfg w) ->
  (1.0 <? level)%float = false /\
  (level = 0.0%float \/
   exists post_score boost, calculate_intensity cfg post_score boost = Ok level).
Proof.
  intros Hin. pose proof (main_within_full_scale cfg w ∅) as Hall.
  rewrite Forall_forall in Hall. exact (Hall _ Hin).
Qed.

(** A thread far above the full-intensity score, with a keyword in
    the comment: the level sent is 1.0. *)
Lemma device_never_driven_above_full_scale_witness :
  Command 0 1.0 ∈ trace_of (run default_config (calm_world [turn 5000 [knot_comment]])) /\
  (1.0 <? 1.0)%float = false.
Proof.
  assert (Hin : Command 0%nat 1.0
      ∈ trace_of (run default_config (calm_world [turn 5000 [knot_comment]]))).
  { vm_compute. repeat first [apply list_elem_of_here | apply list_elem_of_further]. }
  split; [exact Hin|].
  exact (proj1 (device_never_driven_above_full_scale _ _ _ _ Hin)).
Defined.

Definition not_a_command (e : event) : Prop :=
  match e with Command _ _ => False | _ => True end.

Lemma main_zero_max_upvotes (cfg : config) (w : world) :
  max_upvotes cfg = 0%Z -> always not_a_command (main cfg w).
Proof.
  intros Hmax. apply always_main.
  - intros sub io c. apply always_handle_comment; try exact I.
    intros intensity Hcalc. unfold calculate_intensity, int_truediv in Hcalc.
    rewrite Hmax in Hcalc. discriminate Hcalc.
  - intros e He. now destruct e.
Qed.

Lemma handle_comment_zero_max_upvotes (cfg : config) (sub : submission) (io : pulse_io)
    (c : comment) (seen : gset string) :
  max_upvotes cfg = 0%Z ->
  outcome_of (handle_comment cfg sub io c seen) = Raised ZeroDivisionError.
Proof.
  intros Hmax. unfold handle_comment.
  assert (Hcalc : forall s m, calculate_intensity cfg s m = Raise ZeroDivisionError).
  { intros s m. unfold calculate_intensity, int_truediv. now rewrite Hmax. }
  rewrite Hcalc. cbn. now destruct (any_keyword cfg _).
Qed.

(** X10. A full-intensity score of 0. The override
    [--max-upvotes 0] is accepted by the resolution and is the value
    the loop then uses; with it the handling of every comment ends
    with [ZeroDivisionError], and no run sends any command to the
    device. *)
Theorem zero_max_upvotes_never_actuates :
  (forall (args : Args) (fs fs1 : cache_file) (s : settings),
     arg_max_upvotes args = Some 0%Z ->
     load_or_reset_settings args fs = Ok (s, fs1) ->
     MAX_UPVOTES s = JInt 0 /\
     forall cfg, as_config s = Some cfg -> max_upvotes cfg = 0%Z) /\
  (forall (cfg : config) (sub : submission) (io : pulse_io) (c : comment)
          (seen : gset string),
     max_upvotes cfg = 0%Z ->
     outcome_of (handle_comment cfg sub io c seen) = Raised ZeroDivisionError) /\
  (forall (cfg : config) (w : world) (a : actuator) (level : float),
     max_upvotes cfg = 0%Z -> Command a level ∉ trace_of (run cfg w)).
Proof.
  split; [|split].
  - intros args fs fs1 s Hu Hrun.
    assert (Hs : MAX_UPVOTES s = JInt 0).
    { unfold load_or_reset_settings in Hrun. rewrite Hu in Hrun.
      repeat match type of Hrun with
             | (?m ≫= _) = _ =>
                 destruct m; [cbn [mbind result_bind] in Hrun | discriminate Hrun]
             end.
      now injection Hrun as <- _. }
    split; [exact Hs|]. intros cfg Hcfg. unfold as_config in Hcfg. rewrite Hs in Hcfg.
    destruct (POST_ID s), (MIN_INTENSITY s), (KEYWORD_LIST s),
      (KEYWORD_INTENSITY_MULTIPLIER s); try discriminate Hcfg.
    match type of Hcfg with (?m ≫= _) = _ => destruct m; [|discriminate Hcfg] end.
    now injection Hcfg as <-.
  - exact handle_comment_zero_max_upvotes.
  - intros cfg w a level Hmax Hin. pose proof (main_zero_max_upvotes cfg w Hmax ∅) as Hall.
    rewrite Forall_forall in Hall. exact (Hall _ Hin).
Qed.


Definition zero_max_config : config :=
  {| post_id := "gxvdih"; min_intensity := 0.2; max_upvotes := 0;
     keywords := ["knot"]; multiplier := 1.5 |}.

(** With a full-intensity score of 0, the first new comment ends the
    run before anything is sent. *)
Lemma zero_max_upvotes_never_actuates_witness :
  run zero_max_config (calm_world [turn 10 [plain_comment]]) =
  ([Connect; StartScanning; Sleep 1; StopScanning; FetchTitle;
    Printed (MonitoringPost "thread"); Printed (MaxUpvotes 0); Printed (MinIntensity 0.2);
    Printed (KeywordTriggers ["knot"]); Printed (KeywordMultiplier 1.5);
    GetNewComments ∅ (Ok [plain_comment]);
    SeenAdd "c1"; Printed (NewComment (Some "ann") "first"); CalculateIntensity 10 1;
    Printed (RuntimeError ZeroDivisionError); Disconnect; Printed BotShutDown],
   {["c1"]}, Done tt) /\
  (Command 0 0.28 ∉ trace_of (run zero_max_config (calm_world [turn 10 [plain_comment]]))).
Proof.
  split; [reflexivity|].
  exact (proj2 (proj2 zero_max_upvotes_never_actuates) zero_max_config
           (calm_world [turn 10 [plain_comment]]) 0%nat 0.28%float eq_refl).
Defined.

(** ** The text printed for a comment *)

Lemma str_take_length (n : nat) (s : string) :
  String.length (Str.take n s) = Nat.min n (String.length s).
Proof.
  unfold Str.take. revert s. induction n as [|n IH]; intros [|c s]; cbn; try reflexivity.
  now rewrite IH.
Qed.

Lemma str_take_prefix (n : nat) (s : string) : exists rest, s = Str.take n s +:+ rest.
Proof.
  unfold Str.take. revert s. induction n as [|n IH]; intros [|c s]; cbn.
  - now exists "".
  - now exists (String c s).
  - now exists "".
  - destruct (IH s) as (rest & Hrest). exists rest.
    rewrite StrFacts.append_cons. now rewrite <- Hrest.
Qed.

(** The body shown for a comment: the first 80 characters of the body
    of some comment. *)
Definition shows_at_most_80 (e : event) : Prop :=
  match e with
  | Printed (NewComment _ shown) =>
      (String.length shown <= 80)%nat
  | _ => True
  end.

(** X11. The body printed for a comment. [body[:n]] has the length
    [min n (len body)] and is a prefix of the body; so every body
    printed in a run is at most 80 characters long. *)
Theorem printed_body_is_cut_at_80 :
  (forall (n : nat) (body : string),
     String.length (Str.take n body) = Nat.min n (String.length body) /\
     exists rest, body = Str.take n body +:+ rest) /\
  (forall (cfg : config) (w : world) (author : option string) (shown : string),
     Printed (NewComment author shown) ∈ trace_of (run cfg w) ->
     (String.length shown <= 80)%nat).
Proof.
  split.
  - intros n body. split; [apply str_take_length | apply str_take_prefix].
  - intros cfg w author shown Hin.
    assert (Hall : always shows_at_most_80 (main cfg w)).
    { apply always_main.
      - intros sub io c. apply always_handle_comment; try exact I.
        + cbn. rewrite str_take_length. lia.
        + intros intensity _. split; [exact I|].
          now apply always_send_vibration.
      - intros e He. destruct e as [| | | | | | | | | |l]; try exact I. now destruct l. }
    specialize (Hall ∅). rewrite Forall_forall in Hall. exact (Hall _ Hin).
Qed.

End Actuation.

(** ** Interrupts, and the start of a run *)

Section Interrupts.

(** The end of a run whose loop was left by [e], not an [Exception]. *)
Definition shutdown_on_interrupt (bye : result unit) : list event :=
  Disconnect :: match bye with Ok _ => [Printed BotShutDown] | Raise _ => [] end.

(** X12. An interrupt in the loop. When a turn is left by an
    exception that is no [Exception] ([KeyboardInterrupt], a cancelled
    task), after earlier turns that ran through, no runtime error is
    printed, the disconnect is attempted, and the exception leaves
    [main] (replaced by the exception of the disconnect when that
    fails); the turns scripted after it never run. *)
Theorem interrupt_in_turn_disconnects_and_propagates (cfg : config)
    (before after : list cycle_io) (io : cycle_io) (bye : result unit)
    (seen seen1 seen2 : gset string) (t0 t1 : list event) (e : exn) :
  monitor cfg before seen = (t0, seen1, Pending) ->
  cycle cfg io seen1 = (t1, seen2, Raised e) ->
  is_Exception e = false ->
  monitoring cfg (before ++ io :: after) bye seen =
    (t0 ++ t1 ++ shutdown_on_interrupt bye, seen2,
     Raised match bye with Ok _ => e | Raise e' => e' end).
Proof.
  intros Hbefore Hio He. unfold monitoring, try_finally, try_except.
  rewrite (monitor_app _ _ _ _ _ _ Hbefore), (monitor_raises _ _ _ _ _ _ _ Hio), He.
  unfold shutdown_on_interrupt. rewrite bind_unfold, call_unfold.
  destruct bye as [[]|e']; cbn; rewrite <- ?app_assoc; reflexivity.
Qed.

(** One quiet turn, then the task is cancelled while the thread is
    fetched. *)
Lemma interrupt_in_turn_disconnects_and_propagates_witness :
  monitoring default_config
    ([turn 10 []] ++ fetch_fails CancelledError :: [turn 10 [plain_comment]])
    (Ok tt) ∅ =
  ([GetNewComments ∅ (Ok []); Sleep 1;
    GetNewComments ∅ (Raise CancelledError); Disconnect; Printed BotShutDown],
   ∅, Raised CancelledError).
Proof.
  exact (interrupt_in_turn_disconnects_and_propagates default_config [turn 10 []]
           [turn 10 [plain_comment]] (fetch_fails CancelledError) (Ok tt)
           ∅ ∅ ∅ [GetNewComments ∅ (Ok []); Sleep 1]
           [GetNewComments ∅ (Raise CancelledError)]
           CancelledError eq_refl eq_refl eq_refl).
Defined.

(** The four calls that set the session up (lines 127-130), as the
    outside answers them: the first exception, if any. *)
Definition handshake (w : world) : result unit :=
  connect w;; start_scanning w;; scan_sleep w;; stop_scanning w.

Definition handshake_calls : list event := [Connect; StartScanning; Sleep 1; StopScanning].

(** X13. The thread is not touched before the session is set up.
    When one of the four calls of lines 127-130 raises, the run
    consists of the calls made so far, followed by the line "Could
    not connect" and a normal return when the exception is an
    [Exception], and ends with the exception otherwise; no title is
    fetched and no disconnect is attempted. When the four calls
    succeed, the run continues with the fetch of the title. *)
Theorem no_thread_access_without_session (cfg : config) (w : world) :
  (forall e, handshake w = Raise e ->
     exists calls, calls `prefix_of` handshake_calls /\ calls <> [] /\
       run cfg w =
         if is_Exception e
         then (calls ++ [Printed (CouldNotConnect e)], ∅, Done tt)
         else (calls, ∅, Raised e)) /\
  (handshake w = Ok tt ->
     exists t, trace_of (run cfg w) = handshake_calls ++ FetchTitle :: t).
Proof.
  unfold handshake, handshake_calls, run, main, try_except.
  destruct w as [c s sl st ti cy di]. cbn [connect start_scanning scan_sleep stop_scanning
    title cycles disconnect].
  rewrite !bind_unfold, !call_unfold.
  split.
  - intros e He.
    destruct c as [[]|e1]; cbn in He |- *.
    2:{ injection He as ->. exists [Connect]. split; [now eexists|]. split; [discriminate|].
        now destruct (is_Exception e). }
    rewrite !bind_unfold, !call_unfold.
    destruct s as [[]|e2]; cbn in He |- *.
    2:{ injection He as ->. exists [Connect; StartScanning].
        split; [now eexists|]. split; [discriminate|]. now destruct (is_Exception e). }
    rewrite !bind_unfold, !call_unfold.
    destruct sl as [[]|e3]; cbn in He |- *.
    2:{ injection He as ->. exists [Connect; StartScanning; Sleep 1].
        split; [now eexists|]. split; [discriminate|]. now destruct (is_Exception e). }
    rewrite !bind_unfold, !call_unfold.
    destruct st as [[]|e4]; cbn in He |- *; [discriminate He|].
    injection He as ->. exists [Connect; StartScanning; Sleep 1; StopScanning].
    split; [now exists []|]. split; [discriminate|]. now destruct (is_Exception e).
  - intros He.
    destruct c as [[]|e1]; cbn in He |- *; [|discriminate He].
    rewrite !bind_unfold, !call_unfold.
    destruct s as [[]|e2]; cbn in He |- *; [|discriminate He].
    rewrite !bind_unfold, !call_unfold.
    destruct sl as [[]|e3]; cbn in He |- *; [|discriminate He].
    rewrite !bind_unfold, !call_unfold.
    destruct st as [[]|e4]; cbn in He |- *; [|discriminate He].
    rewrite !bind_unfold, !call_unfold.
    destruct ti as [submission_title|e5]; cbn.
    + match goal with |- context [let (_, _) := ?m ∅ in _] =>
        destruct (m ∅) as [[t' seen'] o'] end.
      cbn. eauto.
    + now exists [].
Qed.

(** The user interrupts while the client connects. *)
Lemma no_thread_access_without_session_witness :
  exists calls, calls `prefix_of` handshake_calls /\ calls <> [] /\
    run default_config
      {| connect := Raise KeyboardInterrupt; start_scanning := Ok tt; scan_sleep := Ok tt;
         stop_scanning := Ok tt; title := Ok "thread"; cycles := []; disconnect := Ok tt |}
    = (calls, ∅, Raised KeyboardInterrupt).
Proof.
  exact (proj1 (no_thread_access_without_session default_config
                  {| connect := Raise KeyboardInterrupt; start_scanning := Ok tt;
                     scan_sleep := Ok tt; stop_scanning := Ok tt; title := Ok "thread";
                     cycles := []; disconnect := Ok tt |})
           KeyboardInterrupt eq_refl).
Defined.

End Interrupts.

(** ** A turn, once completed *)

Section Turns.

(** When nothing is due at the end, what was due at the start has
    been added. *)
Lemma follows_worked_off st0 t st1 :
  follows st0 t st1 -> st1.2 = [] -> forall c, c ∈ st0.2 -> comment_id c ∈ st1.1.
Proof.
  induction 1 as [ st | seen c due t st Hf IH | seen new t st Hnew Hf IH
                 | seen e t st Hf IH | st0 e t st Hq Hf IH ];
    cbn [fst snd] in *; intros Hend c' Hc'.
  - rewrite Hend in Hc'. now apply elem_of_nil in Hc'.
  - apply elem_of_cons in Hc' as [->|Hc']; [|now apply IH].
    apply follows_grows in Hf. cbn in Hf. set_solver.
  - now apply elem_of_nil in Hc'.
  - now apply elem_of_nil in Hc'.
  - now apply IH.
Qed.

Lemma filter_all_seen (seen : gset string) (cs : list comment) :
  (forall c, c ∈ cs -> comment_id c ∈ seen) ->
  filter (fun comment => comment_id comment ∉ seen) cs = [].
Proof.
  induction cs as [|c cs IH]; intros Hall; [reflexivity|].
  rewrite filter_cons, decide_False.
  - apply IH. intros c' Hc'. apply Hall. now right.
  - intros Hout. apply Hout, Hall. now left.
Qed.

(** X14. A turn that completes has handled the whole thread: the
    fetch succeeded, the id of every comment of the fetched thread is
    in [seen_comment_ids], and [get_new_comments] on the same thread
    with that set returns nothing. *)
Theorem completed_turn_leaves_nothing_new (cfg : config) (io : cycle_io)
    (seen seen' : gset string) (t : list event) :
  cycle cfg io seen = (t, seen', Done tt) ->
  exists sub,
    fetch io = Ok sub /\
    (forall c, c ∈ comments sub -> comment_id c ∈ seen') /\
    get_new_comments (fetch io) seen' = Ok (sub, []).
Proof.
  intros Hcycle.
  destruct (cycle_follows cfg io seen) as (due & Hf & Hd).
  rewrite Hcycle in Hf, Hd. cbn in Hf, Hd. specialize (Hd tt eq_refl). subst due.
  unfold cycle in Hcycle. rewrite bind_unfold in Hcycle. cbn [get_seen] in Hcycle.
  cbv beta iota in Hcycle. rewrite bind_unfold, call_unfold in Hcycle.
  unfold get_new_comments in Hcycle |- *.
  destruct (fetch io) as [sub|e]; cbn [mbind result_bind fmap result_fmap snd] in *;
    [|discriminate Hcycle].
  exists sub. split; [reflexivity|].
  assert (Ht : exists t', t = GetNewComments seen
                 (Ok (filter (fun comment => comment_id comment ∉ seen) (comments sub)))
                 :: t').
  { match type of Hcycle with context [let (_, _) := ?m seen in _] =>
      destruct (m seen) as [[t1 seen1] o1] end.
    cbn in Hcycle. injection Hcycle as <- _ _. eauto. }
  destruct Ht as (t' & ->).
  apply follows_fetch_inv in Hf as (_ & _ & Hf).
  pose proof (follows_grows _ _ _ Hf) as Hgrow. cbn in Hgrow.
  assert (Hall : forall c, c ∈ comments sub -> comment_id c ∈ seen').
  { intros c Hc. destruct (decide (comment_id c ∈ seen)) as [Hin|Hout]; [set_solver|].
    apply (follows_worked_off _ _ _ Hf eq_refl). cbn.
    apply list_elem_of_filter. now split. }
  split; [exact Hall|]. now rewrite filter_all_seen.
Qed.

(** A turn over a thread of two comments: both ids are in the set,
    and the thread holds nothing new. *)
Lemma completed_turn_leaves_nothing_new_witness :
  exists sub,
    fetch (turn 10 [plain_comment; knot_comment]) = Ok sub /\
    (forall c, c ∈ comments sub -> comment_id c ∈ ({["k9"; "c1"]} : gset string)) /\
    get_new_comments (fetch (turn 10 [plain_comment; knot_comment])) {["k9"; "c1"]}
      = Ok (sub, []).
Proof.
  refine (completed_turn_leaves_nothing_new default_config
            (turn 10 [plain_comment; knot_comment]) ∅ _ _ _).
  vm_compute. reflexivity.
Defined.

End Turns.

(** ** Pulses *)

Section Pulses.

(** A pulse whose wait is interrupted: the level has been sent, the
    stop has not. *)
Lemma send_vibration_hold_raises (io : pulse_io) (x : float) (seen : gset string)
    (d : device) (ds : list device) (a : actuator) (acts : list actuator) (e : exn) :
  client_devices io = d :: ds -> actuators d = a :: acts ->
  command_on io = Ok tt -> hold io = Raise e ->
  send_vibration io x seen =
    ([Command a x; Printed (SentVibration x VIBRATION_DURATION); Sleep VIBRATION_DURATION],
     seen, Raised e).
Proof.
  intros Hd Ha Hon Hhold. unfold send_vibration. rewrite Hd, Ha.
  rewrite bind_unfold, call_unfold, Hon. cbv beta iota.
  rewrite bind_unfold. change (print ?l seen) with ([Printed l], seen, Done tt).
  cbv beta iota. rewrite bind_unfold, call_unfold, Hhold. reflexivity.
Qed.

(** X15. A pulse that is interrupted is not stopped. When, after
    turns that ran through, the first new comment of a turn gets the
    intensity [x], the device takes the command and the wait of
    [VIBRATION_DURATION] raises, then the run sends no further
    command: after the command at level [x] come the line of the
    pulse, the wait, the runtime error (for an [Exception]) and the
    shutdown, without a command at level 0. *)
Theorem interrupted_pulse_is_not_stopped (cfg : config) (before after : list cycle_io)
    (io : cycle_io) (bye : result unit) (seen seen1 : gset string) (t0 : list event)
    (sub : submission) (c : comment) (rest : list comment) (x : float)
    (d : device) (ds : list device) (a : actuator) (acts : list actuator) (e : exn) :
  monitor cfg before seen = (t0, seen1, Pending) ->
  get_new_comments (fetch io) seen1 = Ok (sub, c :: rest) ->
  calculate_intensity cfg (or_1 (score sub)) (classify cfg (comment_body c)) = Ok x ->
  client_devices (pulses io 0) = d :: ds -> actuators d = a :: acts ->
  command_on (pulses io 0) = Ok tt -> hold (pulses io 0) = Raise e ->
  exists t,
    trace_of (monitoring cfg (before ++ io :: after) bye seen) =
      t ++ [Command a x; Printed (SentVibration x VIBRATION_DURATION);
            Sleep VIBRATION_DURATION]
        ++ (if is_Exception e then [Printed (RuntimeError e)] else [])
        ++ shutdown_on_interrupt bye.
Proof.
  intros Hbefore Hnew Hcalc Hd Ha Hon Hhold.
  assert (Hcycle : exists t1,
            cycle cfg io seen1 =
              (t1 ++ [Command a x; Printed (SentVibration x VIBRATION_DURATION);
                      Sleep VIBRATION_DURATION],
               {[comment_id c]} ∪ seen1, Raised e)).
  { unfold cycle. rewrite bind_unfold. cbn [get_seen]. cbv beta iota.
    rewrite bind_unfold, call_unfold, Hnew. cbv beta iota.
    rewrite bind_unfold. cbn [for_comments]. rewrite bind_unfold.
    unfold handle_comment. rewrite bind_unfold.
    change (seen_add ?i seen1) with ([SeenAdd i], {[i]} ∪ seen1, Done tt).
    cbv beta iota. rewrite bind_unfold.
    change (print ?l ?s) with ([Printed l], s, Done tt).
    cbv beta iota. rewrite bind_unfold.
    set (key := if any_keyword cfg (Str.lower (comment_body c))
                then print (KeywordDetected (classify cfg (comment_body c)))
                else mret tt).
    assert (Hkey : exists tk, key ({[comment_id c]} ∪ seen1)
                              = (tk, {[comment_id c]} ∪ seen1, Done tt)).
    { subst key. destruct (any_keyword cfg _); eexists; reflexivity. }
    destruct Hkey as (tk & ->). cbv beta iota.
    rewrite bind_unfold.
    change (emit ?ev ?s) with ([ev], s, Done tt). cbv beta iota.
    rewrite bind_unfold, Hcalc. cbn [of_result]. cbv beta iota.
    rewrite bind_unfold.
    change (print ?l ?s) with ([Printed l], s, Done tt). cbv beta iota.
    rewrite (send_vibration_hold_raises _ _ _ _ _ _ _ _ Hd Ha Hon Hhold).
    exists (GetNewComments seen1 (Ok (c :: rest))
              :: SeenAdd (comment_id c)
              :: Printed (NewComment (comment_author c) (Str.take 80 (comment_body c)))
              :: tk ++ [CalculateIntensity (or_1 (score sub))
                          (classify cfg (comment_body c));
                        Printed (PostScore (or_1 (score sub)) x)]).
    cbn [app fmap result_fmap snd]. rewrite <- !app_assoc. reflexivity. }
  destruct Hcycle as (t1 & Hcycle).
  unfold monitoring, try_finally, try_except.
  rewrite (monitor_app _ _ _ _ _ _ Hbefore), (monitor_raises _ _ _ _ _ _ _ Hcycle).
  exists (t0 ++ t1). unfold shutdown_on_interrupt.
  destruct (is_Exception e).
  - change (print ?l ?s) with ([Printed l], s, Done tt). cbv beta iota.
    rewrite bind_unfold, call_unfold.
    destruct bye as [[]|e']; cbn [trace_of fst]; cbn; rewrite <- !app_assoc; reflexivity.
  - rewrite bind_unfold, call_unfold.
    destruct bye as [[]|e']; cbn; rewrite <- !app_assoc; reflexivity.
Qed.


(** A turn whose first pulse is interrupted while the level is held. *)
Definition hold_fails (s : Z) (cs : list comment) (e : exn) : cycle_io :=
  {| fetch := Ok {| score := s; comments := cs |};
     pulses := fun _ => {| client_devices := [ {| actuators := [0%nat] |} ];
                           command_on := Ok tt; hold := Raise e; command_off := Ok tt |};
     pause := Ok tt |}.

Lemma interrupted_pulse_is_not_stopped_witness :
  exists t,
    trace_of (monitoring default_config
                ([] ++ hold_fails 10 [plain_comment] (OtherException "timer") :: [])
                (Ok tt) ∅) =
      t ++ [Command 0 0.28; Printed (SentVibration 0.28 VIBRATION_DURATION);
            Sleep VIBRATION_DURATION]
        ++ [Printed (RuntimeError (OtherException "timer"))]
        ++ [Disconnect; Printed BotShutDown].
Proof.
  exact (interrupted_pulse_is_not_stopped default_config [] []
           (hold_fails 10 [plain_comment] (OtherException "timer")) (Ok tt) ∅ ∅ []
           {| score := 10; comments := [plain_comment] |} plain_comment [] 0.28%float
           {| actuators := [0%nat] |} [] 0%nat [] (OtherException "timer")
           eq_refl eq_refl eq_refl eq_refl eq_refl eq_refl eq_refl).
Defined.

(** The number of events of a trace that satisfy [p]. *)
Fixpoint count (p : event -> bool) (t : list event) : nat :=
  match t with
  | [] => 0
  | e :: rest => (if p e then 1 else 0) + count p rest
  end.

Definition is_command (e : event) : bool :=
  match e with Command _ _ => true | _ => false end.

Definition is_handling (e : event) : bool :=
  match e with SeenAdd _ => true | _ => false end.

Lemma count_app (p : event -> bool) (t t' : list event) :
  count p (t ++ t') = (count p t + count p t')%nat.
Proof. induction t as [|e t IH]; cbn; [reflexivity | rewrite IH; lia]. Qed.

Lemma count_quiet (t : list event) : Forall quiet t -> count is_handling t = 0%nat.
Proof.
  induction 1 as [|e t He _ IH]; [reflexivity|]. cbn. rewrite IH.
  now destruct e.
Qed.

(** A piece of program that sends at most [n] commands. *)
Definition sends_at_most (n : nat) {A} (m : M A) : Prop :=
  forall seen, (count is_command (trace_of (m seen)) <= n)%nat.

Lemma sends_bind {A B} (a b : nat) (m : M A) (f : A -> M B) :
  sends_at_most a m -> (forall x, sends_at_most b (f x)) ->
  sends_at_most (a + b) (m ≫= f).
Proof.
  intros Hm Hf seen. rewrite bind_unfold. specialize (Hm seen).
  destruct (m seen) as [[t seen'] [x| |]]; cbn in *; try lia.
  specialize (Hf x seen'). destruct (f x seen') as [[t' seen''] o]. cbn in *.
  rewrite count_app. lia.
Qed.

Lemma sends_call {A} (e : event) (answer : result A) :
  sends_at_most (if is_command e then 1 else 0) (call e answer).
Proof. intros seen. rewrite call_unfold. cbn. lia. Qed.

Lemma sends_emit (e : event) : sends_at_most (if is_command e then 1 else 0) (emit e).
Proof. intros seen. cbn. lia. Qed.

Lemma sends_weaken {A} (a b : nat) (m : M A) :
  (a <= b)%nat -> sends_at_most a m -> sends_at_most b m.
Proof. intros Hab Hm seen. specialize (Hm seen). lia. Qed.

Lemma send_vibration_sends (io : pulse_io) (x : float) :
  sends_at_most 2 (send_vibration io x).
Proof.
  unfold send_vibration, print.
  destruct (client_devices io) as [|d ?];
    [apply (sends_weaken 0); [lia | apply (sends_emit (Printed NoDevices))]|].
  destruct (actuators d) as [|a ?];
    [apply (sends_weaken 0); [lia | apply (sends_emit (Printed NoActuators))]|].
  apply (sends_bind 1 1); [apply (sends_call (Command a x)) | intros _].
  apply (sends_bind 0 1); [apply (sends_emit (Printed _)) | intros _].
  apply (sends_bind 0 1); [apply (sends_call (Sleep _)) | intros _].
  apply (sends_call (Command a 0)).
Qed.

Lemma handle_comment_sends (cfg : config) (sub : submission) (io : pulse_io) (c : comment) :
  sends_at_most 2 (handle_comment cfg sub io c).
Proof.
  unfold handle_comment, print.
  apply (sends_bind 0 2); [intros seen; cbn; lia | intros _].
  apply (sends_bind 0 2); [apply (sends_emit (Printed _)) | intros _].
  apply (sends_bind 0 2); [|intros _].
  { destruct (any_keyword cfg _); [apply (sends_emit (Printed _)) | intros seen; cbn; lia]. }
  apply (sends_bind 0 2); [apply (sends_emit (CalculateIntensity _ _)) | intros _].
  apply (sends_bind 0 2); [intros seen; destruct (calculate_intensity _ _ _); cbn; lia|].
  intros intensity.
  apply (sends_bind 0 2); [apply (sends_emit (Printed _)) | intros _].
  apply send_vibration_sends.
Qed.

(** A piece of program that sends at most two commands for each
    comment it starts to handle. *)
Definition thrifty {A} (m : M A) : Prop :=
  forall seen,
    (count is_command (trace_of (m seen)) <= 2 * count is_handling (trace_of (m seen)))%nat.

Lemma thrifty_bind {A B} (m : M A) (f : A -> M B) :
  thrifty m -> (forall x, thrifty (f x)) -> thrifty (m ≫= f).
Proof.
  intros Hm Hf seen. rewrite bind_unfold. specialize (Hm seen).
  destruct (m seen) as [[t seen'] [x| |]]; cbn in *; try lia.
  specialize (Hf x seen'). destruct (f x seen') as [[t' seen''] o]. cbn in *.
  rewrite !count_app. lia.
Qed.

Lemma thrifty_sends_nothing {A} (m : M A) : sends_at_most 0 m -> thrifty m.
Proof. intros Hm seen. specialize (Hm seen). lia. Qed.

Lemma thrifty_call {A} (e : event) (answer : result A) :
  is_command e = false -> thrifty (call e answer).
Proof.
  intros He. apply thrifty_sends_nothing. pose proof (sends_call e answer) as H.
  now rewrite He in H.
Qed.

Lemma thrifty_print (l : line) : thrifty (print l).
Proof. apply thrifty_sends_nothing. apply (sends_emit (Printed l)). Qed.

Lemma thrifty_ret {A} (a : A) : thrifty (mret a).
Proof. intros seen. cbn. lia. Qed.

Lemma thrifty_try_except {A} (body : M A) (handler : exn -> M A) :
  thrifty body -> (forall e, thrifty (handler e)) -> thrifty (try_except body handler).
Proof.
  intros Hb Hh seen. unfold try_except. specialize (Hb seen).
  destruct (body seen) as [[t seen'] [a|e|]]; cbn in *; try assumption.
  destruct (is_Exception e); cbn; [|assumption].
  specialize (Hh e seen'). destruct (handler e seen') as [[t' seen''] o]. cbn in *.
  rewrite !count_app. lia.
Qed.

Lemma thrifty_try_finally {A} (body : M A) (cleanup : M unit) :
  thrifty body -> thrifty cleanup -> thrifty (try_finally body cleanup).
Proof.
  intros Hb Hc seen. unfold try_finally. specialize (Hb seen).
  destruct (body seen) as [[t seen'] [a|e|]]; cbn in *; try assumption;
    specialize (Hc seen'); destruct (cleanup seen') as [[t' seen''] [[]|e'|]]; cbn in *;
    rewrite !count_app; lia.
Qed.

Lemma handle_comment_thrifty (cfg : config) (sub : submission) (io : pulse_io)
    (c : comment) : thrifty (handle_comment cfg sub io c).
Proof.
  intros seen. pose proof (handle_comment_sends cfg sub io c seen) as Hsends.
  destruct (handle_comment_trace cfg sub io c seen) as (t & Ht & _ & _).
  rewrite Ht in *. cbn in *. lia.
Qed.

Lemma main_thrifty (cfg : config) (w : world) : thrifty (main cfg w).
Proof.
  assert (Hfor : forall sub pulses new_comments k,
            thrifty (for_comments cfg sub pulses k new_comments)).
  { intros sub pulses new_comments.
    induction new_comments as [|c rest IH]; intros k; cbn [for_comments].
    - apply thrifty_ret.
    - apply thrifty_bind; [apply handle_comment_thrifty | intros _; apply IH]. }
  assert (Hcycle : forall io, thrifty (cycle cfg io)).
  { intros io. unfold cycle.
    apply thrifty_bind; [intros seen; cbn; lia | intros seen_ids].
    apply thrifty_bind; [now apply thrifty_call | intros [sub new_comments]].
    apply thrifty_bind; [apply Hfor | intros _; now apply thrifty_call]. }
  assert (Hmonitor : forall turns, thrifty (monitor cfg turns)).
  { induction turns as [|io rest IH]; cbn [monitor].
    - intros seen. cbn. lia.
    - apply thrifty_bind; [apply Hcycle | intros _; exact IH]. }
  unfold main. apply thrifty_bind.
  - apply thrifty_try_except.
    + repeat (apply thrifty_bind; [now apply thrifty_call | intros _]).
      apply thrifty_ret.
    + intros e. apply thrifty_bind; [apply thrifty_print | intros _; apply thrifty_ret].
  - intros [|]; [|apply thrifty_ret].
    apply thrifty_bind; [now apply thrifty_call | intros submission_title].
    repeat (apply thrifty_bind; [apply thrifty_print | intros _]).
    unfold monitoring. apply thrifty_try_finally.
    + apply thrifty_try_except; [apply Hmonitor | intros e; apply thrifty_print].
    + apply thrifty_bind; [now apply thrifty_call | intros _; apply thrifty_print].
Qed.

(** X16. At most one pulse for each comment handled: in every run
    the number of commands sent to the device is at most twice the
    number of comments whose handling started, and the handling of
    one comment adds one id and sends at most two commands. *)
Theorem at_most_one_pulse_per_comment (cfg : config) (w : world) :
  (count is_command (trace_of (run cfg w))
   <= 2 * count is_handling (trace_of (run cfg w)))%nat /\
  (forall (sub : submission) (io : pulse_io) (c : comment) (seen : gset string),
     count is_handling (trace_of (handle_comment cfg sub io c seen)) = 1%nat /\
     (count is_command (trace_of (handle_comment cfg sub io c seen)) <= 2)%nat).
Proof.
  split; [apply main_thrifty|].
  intros sub io c seen. split; [|apply handle_comment_sends].
  destruct (handle_comment_trace cfg sub io c seen) as (t & -> & Hq & _).
  cbn. now rewrite count_quiet.
Qed.

End Pulses.

(** ** The intensity over all positive scores *)

Section Saturation.
Import Binary64.

(** The largest float. *)
Definition Omega : R := F2R (2 ^ 53 - 1) 971.

Lemma Omega_lt : (Omega < bpow 1024)%R.
Proof.
  unfold Omega. pose proof (F2R_lt (2 ^ 53 - 1) (2 ^ 53) 971 ltac:(lia)) as H.
  rewrite F2R_pow in H by lia. exact H.
Qed.

Lemma Omega_ge_1 : (1 <= Omega)%R.
Proof.
  unfold Omega. pose proof (F2R_le (2 ^ 52) (2 ^ 53 - 1) 971 ltac:(lia)) as H.
  rewrite F2R_pow in H by lia. pose proof (bpow_ge_1 (52 + 971) ltac:(lia)). lra.
Qed.

Lemma bounded_le_Omega (m : positive) (e : Z) :
  SpecFloat.bounded prec emax m e = true -> (F2R (Zpos m) e <= Omega)%R.
Proof.
  intros H. apply bounded_iff in H as [Hc He].
  destruct (canonical_facts (Zpos m) e ltac:(lia) Hc) as (_ & _ & Hm & _).
  apply Rle_trans with (F2R (2 ^ 53 - 1) e); [apply F2R_le; lia|].
  unfold Omega, F2R. apply Rmult_le_compat_l; [apply IZR_le; lia | now apply bpow_le].
Qed.

Lemma represents_le_Omega (f : float) (v : R) : represents f v -> (v <= Omega)%R.
Proof.
  intros [Hf <-]. pose proof Omega_ge_1.
  destruct (Prim2SF f) as [s|s| |[|] m e]; cbn [nonneg_finite SF2R cond_Zopp] in *;
    try easy; try lra.
  now apply bounded_le_Omega.
Qed.

Lemma RN_Omega_plus (a : R) : (0 <= a <= 1)%R -> RN (Omega + a) Omega.
Proof.
  intros Ha. assert (Hcan : canonical (2 ^ 53 - 1) 971) by reflexivity.
  pose proof (bpow_lt 1 971 ltac:(lia)) as H971. rewrite bpow_1 in H971.
  destruct (Req_dec a 0) as [->|Hne].
  - rewrite Rplus_0_r. apply RN_exact; [lia | exact Hcan].
  - exists (2 ^ 53 - 1)%Z, 971%Z, (loc_Inexact Lt).
    split; [lia|]. split; [exact Hcan|].
    cbn [located round_nearest_even]. unfold midpoint. fold Omega.
    split; [|reflexivity]. split; lra.
Qed.

(** Adding at most 1 to a float does not leave the floats. *)
Lemma RN_stays_finite (x v : R) : RN x v -> (x <= Omega + 1)%R -> (v <= Omega)%R.
Proof.
  intros Hv Hx. apply (RN_monotone x (Omega + 1) v Omega Hx Hv).
  apply RN_Omega_plus. lra.
Qed.

(** The product of two non-negative floats: the exact product
    rounded, or [+infinity] when that exceeds the floats. *)
Lemma SFmul_rounded (a b : spec_float) :
  nonneg_finite a -> nonneg_finite b ->
  exists v, RN (SF2R a * SF2R b) v /\
    ((v < bpow 1024)%R -> nonneg_finite (SF64mul a b) /\ SF2R (SF64mul a b) = v) /\
    ((bpow 1024 <= v)%R -> SF64mul a b = S754_infinity false).
Proof.
  pose proof (bpow_gt_0 1024) as Hpos.
  destruct a as [sa|sa| |[|] ma ea], b as [sb|sb| |[|] mb eb];
    cbn [nonneg_finite]; try easy; intros Ha Hb; cbn [SF64mul SFmul SF2R cond_Zopp xorb];
    try (rewrite ?Rmult_0_l, ?Rmult_0_r; exists 0%R;
         split; [apply RN_0|]; split; [now split | intros; lra]).
  unfold SF64mul. cbn [SFmul xorb]. rewrite F2R_mul.
  apply bounded_iff in Ha as [Hca _]. apply bounded_iff in Hb as [Hcb _].
  change (Zpos ma * Zpos mb)%Z with (Zpos (ma * mb)).
  destruct (binary_round_aux_spec false (F2R (Zpos (ma * mb)) (ea + eb))
              (Zpos (ma * mb)) (ea + eb) loc_Exact) as (v & Hv & Hr);
    [lia | reflexivity | |].
  - pose proof (Zdigits2_mul_ge (Zpos ma) (Zpos mb) ltac:(lia) ltac:(lia)) as Hd.
    pose proof (Zdigits2_pos (Zpos ma) ltac:(lia)).
    pose proof (Zdigits2_pos (Zpos mb) ltac:(lia)).
    unfold canonical in Hca, Hcb. rewrite fexp_eq in *.
    change (Zpos (ma * mb)) with (Zpos ma * Zpos mb)%Z. lia.
  - exists v. split; [exact Hv|]. split.
    + intros Hlt. destruct (rounded_to_finite false v _ Hr Hlt) as (Hval & Hnn & _).
      split; [now apply Hnn | exact Hval].
    + intros Hge. destruct Hr as [[-> _]|[(m & e & Hm & Hbd & ->)|[_ ->]]];
        [lra | | reflexivity].
      pose proof (bounded_le_Omega m e Hbd). pose proof Omega_lt. lra.
Qed.

Lemma represents_mul_or_overflow (f g : float) (u w : R) :
  represents f u -> represents g w ->
  exists v, RN (u * w) v /\
    ((v < bpow 1024)%R -> represents (f * g) v) /\
    ((bpow 1024 <= v)%R -> Prim2SF (f * g) = S754_infinity false).
Proof.
  intros [Hf <-] [Hg <-]. destruct (SFmul_rounded _ _ Hf Hg) as (v & Hv & Hfin & Hinf).
  exists v. split; [exact Hv|]. unfold represents. rewrite mul_spec. now split.
Qed.

(** The true division of two positive integers, when it returns. *)
Lemma int_truediv_ok (a b : Z) (f : float) :
  (0 < a)%Z -> (0 < b)%Z -> int_truediv a b = Ok f ->
  exists q, RN (IZR a / IZR b) q /\ represents f q.
Proof.
  intros Ha Hb. destruct a as [|pa|pa], b as [|pb|pb]; try lia.
  unfold int_truediv. rewrite decide_False by lia. cbn [Z2SF].
  destruct (SFdiv_spec false false pa pb 0 0) as (v & Hv & Hr).
  unfold F2R in Hv. rewrite bpow_0, !Rmult_1_r in Hv. cbn [xorb] in Hr.
  intros Hdiv. exists v. split; [exact Hv|].
  assert (Hlt : (v < bpow 1024)%R).
  { destruct Hr as [[-> _]|[(m & e & _ & Hbd & ->)|[_ Hinf]]].
    - apply bpow_gt_0.
    - pose proof (bounded_le_Omega m e Hbd). pose proof Omega_lt. lra.
    - rewrite Hinf in Hdiv. discriminate Hdiv. }
  destruct (rounded_to_finite _ _ _ Hr Hlt) as (Hval & Hnn & Hvalid).
  assert (Hf : f = SF2Prim (SF64div (S754_finite false pa 0) (S754_finite false pb 0))).
  { destruct (SF64div (S754_finite false pa 0) (S754_finite false pb 0));
      try (now injection Hdiv as <-). discriminate Hdiv. }
  subst f. unfold represents. rewrite Prim2SF_SF2Prim by exact Hvalid.
  split; [now apply Hnn | exact Hval].
Qed.

(** A finite float that is at least 1, as the comparisons of floats
    see it. *)
Lemma represents_at_least_one (f : float) :
  (1 <=? f)%float = true -> (f <? infinity)%float = true ->
  exists u, represents f u /\ (1 <= u)%R.
Proof.
  intros H1 Hfin. pose proof (Prim2SF_valid f) as Hvalid.
  pose proof H1 as H1'. rewrite leb_spec in H1'. rewrite ltb_spec in Hfin.
  change (Prim2SF infinity) with (S754_infinity false) in Hfin.
  change (Prim2SF 1) with (S754_finite false (2 ^ 52) (-52)) in H1'.
  assert (Hnn : nonneg_finite (Prim2SF f)).
  { destruct (Prim2SF f) as [s|[|]| |[|] m e]; cbn in *; try easy. }
  exists (SF2R (Prim2SF f)). split; [now split|].
  destruct represents_one as [Hone <-]. apply SFleb_nonneg; assumption.
Qed.

(** [MIN_INTENSITY + (1.0 - MIN_INTENSITY) * scaled] for a positive
    score: a float between the minimum and, from the full-intensity
    score on, at least 1. *)
Lemma base_intensity_value (cfg : config) (a : R) (s : Z) (scaled : float) :
  represents (min_intensity cfg) a -> (0 <= a <= 1)%R ->
  (1 <= s)%Z -> (0 < max_upvotes cfg)%Z ->
  int_truediv s (max_upvotes cfg) = Ok scaled ->
  exists b,
    represents (min_intensity cfg + (1.0 - min_intensity cfg) * scaled)%float b /\
    (a <= b)%R /\ ((max_upvotes cfg <= s)%Z -> (1 <= b)%R).
Proof.
  intros Hmin Ha Hs Hmax Hdiv. pose proof Omega_lt as HO.
  destruct (int_truediv_ok s (max_upvotes cfg) scaled ltac:(lia) Hmax Hdiv)
    as (q & Hq & Hrq).
  pose proof (represents_nonneg _ _ Hrq) as Hq0.
  pose proof (represents_le_Omega _ _ Hrq) as HqO.
  (* 1.0 - MIN_INTENSITY *)
  destruct (represents_sub 1.0 (min_intensity cfg) 1 a represents_one Hmin (proj2 Ha))
    as (c & Hc & Hrc).
  pose proof (RN_le_1 _ _ Hc ltac:(lra)) as Hc1.
  specialize (Hrc (bpow_1024_gt c ltac:(lra))).
  pose proof (represents_nonneg _ _ Hrc) as Hc0.
  (* ... * scaled *)
  destruct (represents_mul _ _ _ _ Hrc Hrq) as (p & Hp & Hrp).
  assert (Hpq : (p <= q)%R).
  { apply (RN_monotone (c * q) q p q); [nra | exact Hp | exact (represents_RN _ _ Hrq)]. }
  specialize (Hrp ltac:(lra)).
  pose proof (represents_nonneg _ _ Hrp) as Hp0.
  (* MIN_INTENSITY + ... *)
  destruct (represents_add _ _ _ _ Hmin Hrp) as (b & Hb & Hrb).
  pose proof (RN_stays_finite _ _ Hb ltac:(lra)) as HbO.
  specialize (Hrb ltac:(lra)).
  exists b. split; [exact Hrb|]. split.
  - apply (RN_monotone a (a + p) a b); [lra | exact (represents_RN _ _ Hmin) | exact Hb].
  - intros Hfull.
    assert (Hq1 : (1 <= q)%R).
    { apply (RN_monotone 1 (IZR s / IZR (max_upvotes cfg)) 1 q); [|exact RN_1 | exact Hq].
      assert (Hm : (0 < IZR (max_upvotes cfg))%R) by (apply IZR_lt; lia).
      apply (Rmult_le_reg_r (IZR (max_upvotes cfg))); [exact Hm|].
      unfold Rdiv. rewrite Rmult_assoc, Rinv_l by lra. rewrite Rmult_1_l, Rmult_1_r.
      now apply IZR_le. }
    assert (Hcp : (c <= p)%R).
    { apply (RN_monotone c (c * q) c p); [nra | exact (represents_RN _ _ Hrc) | exact Hp]. }
    destruct (represents_add _ _ _ _ Hmin Hrc) as (one & Hone & _).
    pose proof (RN_complement a c one Ha Hc Hone) as ->.
    apply (RN_monotone (a + c) (a + p) 1 b); [lra | exact Hone | exact Hb].
Qed.

(** [min(base_intensity * multiplier, 1.0)] for a base and a finite
    multiplier that are not negative: 1.0 as soon as the rounded
    product reaches 1, the rounded product below. *)
Lemma clamp_value (base boost : float) (b u : R) :
  represents base b -> represents boost u ->
  exists t, RN (b * u) t /\
    (((1 <= t)%R /\ py_min (base * boost) 1.0 = 1.0%float) \/
     ((t < 1)%R /\ represents (py_min (base * boost) 1.0) t)).
Proof.
  intros Hb Hu. destruct (represents_mul_or_overflow _ _ _ _ Hb Hu) as (t & Ht & Hfin & Hinf).
  exists t. split; [exact Ht|]. unfold py_min.
  destruct (Rlt_dec t (bpow 1024)) as [Hlt|Hge].
  - specialize (Hfin Hlt).
    pose proof (represents_ltb _ _ _ _ represents_one Hfin) as Hcmp.
    destruct (1 <? base * boost)%float.
    + left. split; [|reflexivity]. apply Rlt_le. now apply Hcmp.
    + destruct (Rlt_dec t 1) as [Hlt1|Hge1]; [now right|]. left.
      assert (Ht1 : t = 1%R).
      { destruct (Rle_lt_or_eq_dec 1 t ltac:(lra)) as [Hgt|Heq]; [|now symmetry].
        assert (false = true) by now apply Hcmp. discriminate. }
      subst t. split; [lra|]. apply (represents_inj _ _ 1 Hfin represents_one). lra.
  - assert (Hprod : Prim2SF (base * boost) = S754_infinity false) by (apply Hinf; lra).
    assert (Hcmp : (1 <? base * boost)%float = true).
    { rewrite ltb_spec, Hprod. reflexivity. }
    rewrite Hcmp. left. split; [|reflexivity].
    pose proof (bpow_ge_1 1024 ltac:(lia)). lra.
Qed.

(** The intensity of a positive score under a finite multiplier that
    is at least 1: the base it is computed from, and the value. *)
Lemma intensity_value (cfg : config) (s : Z) (boost r : float) :
  (0 <=? min_intensity cfg)%float = true -> (min_intensity cfg <=? 1)%float = true ->
  (0 < max_upvotes cfg)%Z -> (1 <= s)%Z ->
  (1 <=? boost)%float = true -> (boost <? infinity)%float = true ->
  calculate_intensity cfg s boost = Ok r ->
  exists a scaled b u t,
    represents (min_intensity cfg) a /\ (0 <= a <= 1)%R /\
    int_truediv s (max_upvotes cfg) = Ok scaled /\
    represents (min_intensity cfg + (1.0 - min_intensity cfg) * scaled)%float b /\
    (a <= b)%R /\ ((max_upvotes cfg <= s)%Z -> (1 <= b)%R) /\
    represents boost u /\ (1 <= u)%R /\ RN (b * u) t /\ (b <= t)%R /\
    (((1 <= t)%R /\ r = 1.0%float) \/ ((t < 1)%R /\ represents r t)).
Proof.
  intros H0 H1 Hmax Hs Hb1 Hbfin Hcalc.
  destruct (represents_unit_interval _ H0 H1) as (a & Hmin & Ha).
  destruct (represents_at_least_one _ Hb1 Hbfin) as (u & Hu & Hu1).
  unfold calculate_intensity in Hcalc.
  destruct (int_truediv s (max_upvotes cfg)) as [scaled|e] eqn:Hdiv;
    cbn [mbind result_bind] in Hcalc; [|discriminate Hcalc].
  injection Hcalc as <-.
  destruct (base_intensity_value cfg a s scaled Hmin Ha Hs Hmax Hdiv) as (b & Hb & Hab & Hfull).
  destruct (clamp_value _ _ _ _ Hb Hu) as (t & Ht & Hval).
  exists a, scaled, b, u, t.
  split; [exact Hmin|]. split; [exact Ha|]. split; [reflexivity|].
  split; [exact Hb|]. split; [exact Hab|]. split; [exact Hfull|].
  split; [exact Hu|]. split; [exact Hu1|]. split; [exact Ht|].
  split; [|exact Hval].
  pose proof (represents_nonneg _ _ Hb).
  apply (RN_monotone b (b * u) b t); [nra | exact (represents_RN _ _ Hb) | exact Ht].
Qed.

(** X17. From the full-intensity score on, the intensity is exactly
    1.0. With a minimum between 0 and 1, a positive full-intensity
    score, a score at least as large and a finite multiplier of at
    least 1 (the 1.0 of a plain comment, a keyword multiplier), every
    value that [calculate_intensity] returns is the float 1.0; and it
    returns as long as the score is at most [2^1023] times the
    full-intensity score. *)
Theorem intensity_is_full_from_max_upvotes_on (cfg : config) (s : Z) (boost : float) :
  (0 <=? min_intensity cfg)%float = true -> (min_intensity cfg <=? 1)%float = true ->
  (0 < max_upvotes cfg)%Z -> (max_upvotes cfg <= s)%Z ->
  (1 <=? boost)%float = true -> (boost <? infinity)%float = true ->
  (forall r, calculate_intensity cfg s boost = Ok r -> r = 1.0%float) /\
  ((s <= 2 ^ 1023 * max_upvotes cfg)%Z -> calculate_intensity cfg s boost = Ok 1.0%float).
Proof.
  intros H0 H1 Hmax Hs Hb1 Hbfin.
  assert (Hall : forall r, calculate_intensity cfg s boost = Ok r -> r = 1.0%float).
  { intros r Hcalc.
    destruct (intensity_value cfg s boost r H0 H1 Hmax ltac:(lia) Hb1 Hbfin Hcalc)
      as (a & scaled & b & u & t & _ & _ & _ & _ & _ & Hfull & _ & _ & _ & Hbt & Hval).
    specialize (Hfull Hs). destruct Hval as [[_ ->]|[Hlt _]]; [reflexivity | lra]. }
  split; [exact Hall|]. intros Hle.
  assert (Hret : exists r, calculate_intensity cfg s boost = Ok r).
  { unfold calculate_intensity.
    rewrite (int_truediv_returns s (max_upvotes cfg)) by lia. eexists. reflexivity. }
  destruct Hret as (r & Hr). now rewrite Hr, (Hall r Hr).
Qed.

(** The default settings, a thread at 250 votes, a comment with a
    keyword. *)
Lemma intensity_is_full_from_max_upvotes_on_witness :
  calculate_intensity default_config 250 1.5 = Ok 1.0%float.
Proof.
  exact (proj2 (intensity_is_full_from_max_upvotes_on default_config 250 1.5
                  eq_refl eq_refl eq_refl ltac:(discriminate) eq_refl eq_refl)
           ltac:(discriminate)).
Defined.

(** X18. A positive score never gets less than the minimum. With a
    minimum between 0 and 1, a positive full-intensity score, a score
    of at least 1 and a finite multiplier of at least 1, the
    intensity returned is at least [MIN_INTENSITY]. *)
Theorem intensity_is_at_least_the_minimum (cfg : config) (s : Z) (boost r : float) :
  (0 <=? min_intensity cfg)%float = true -> (min_intensity cfg <=? 1)%float = true ->
  (0 < max_upvotes cfg)%Z -> (1 <= s)%Z ->
  (1 <=? boost)%float = true -> (boost <? infinity)%float = true ->
  calculate_intensity cfg s boost = Ok r ->
  (min_intensity cfg <=? r)%float = true.
Proof.
  intros H0 H1 Hmax Hs Hb1 Hbfin Hcalc.
  destruct (intensity_value cfg s boost r H0 H1 Hmax Hs Hb1 Hbfin Hcalc)
    as (a & scaled & b & u & t & Hmin & Ha & _ & _ & Hab & _ & _ & _ & _ & Hbt & Hval).
  destruct Hval as [[_ ->]|[Hlt Hr]]; [exact H1|].
  apply (represents_leb _ _ _ _ Hmin Hr). lra.
Qed.

(** The default settings, a thread with one vote. *)
Lemma intensity_is_at_least_the_minimum_witness :
  calculate_intensity default_config 1 1.0 = Ok 0.20800000000000002%float /\
  (min_intensity default_config <=? 0.20800000000000002)%float = true.
Proof.
  split; [reflexivity|].
  exact (intensity_is_at_least_the_minimum default_config 1 1.0 0.20800000000000002
           eq_refl eq_refl eq_refl ltac:(discriminate) eq_refl eq_refl eq_refl).
Defined.

(** X19. A keyword never lowers the intensity. With a minimum
    between 0 and 1, a positive full-intensity score and a score of at
    least 1, the intensity under a finite multiplier of at least 1 is
    at least the intensity of the same score under the multiplier
    1.0. *)
Theorem keyword_boost_never_lowers (cfg : config) (s : Z) (boost plain boosted : float) :
  (0 <=? min_intensity cfg)%float = true -> (min_intensity cfg <=? 1)%float = true ->
  (0 < max_upvotes cfg)%Z -> (1 <= s)%Z ->
  (1 <=? boost)%float = true -> (boost <? infinity)%float = true ->
  calculate_intensity cfg s 1.0 = Ok plain ->
  calculate_intensity cfg s boost = Ok boosted ->
  (plain <=? boosted)%float = true.
Proof.
  intros H0 H1 Hmax Hs Hb1 Hbfin Hplain Hboosted.
  destruct (intensity_value cfg s 1.0 plain H0 H1 Hmax Hs eq_refl eq_refl Hplain)
    as (a & scaled & b & u & t & Hmin & Ha & Hdiv & Hb & _ & _ & Hu & _ & Ht & _ & Hval).
  destruct (intensity_value cfg s boost boosted H0 H1 Hmax Hs Hb1 Hbfin Hboosted)
    as (a' & scaled' & b' & u' & t' & _ & _ & Hdiv' & Hb' & _ & _ & _ & _ & _ & Hbt' & Hval').
  rewrite Hdiv in Hdiv'. injection Hdiv' as <-.
  assert (Hbb : b' = b).
  { destruct Hb as [_ <-], Hb' as [_ <-]. reflexivity. }
  subst b'.
  assert (Hu1 : u = 1%R).
  { destruct Hu as [_ <-]. now destruct represents_one as [_ ->]. }
  subst u. rewrite Rmult_1_r in Ht.
  pose proof (RN_unique _ _ _ Ht (represents_RN _ _ Hb)) as ->.
  assert (Hp1 : exists v, represents plain v /\ (v <= 1)%R /\ (v <= b)%R).
  { destruct Hval as [[Hge ->]|[Hlt Hr]].
    - exists 1%R. split; [exact represents_one | lra].
    - exists b. split; [exact Hr | lra]. }
  destruct Hp1 as (v & Hv & Hv1 & Hvb).
  destruct Hval' as [[_ ->]|[Hlt' Hr']].
  - apply (represents_leb _ _ _ _ Hv represents_one). exact Hv1.
  - apply (represents_leb _ _ _ _ Hv Hr'). lra.
Qed.

(** The default settings, a thread at 10 votes, with and without a
    keyword. *)
Lemma keyword_boost_never_lowers_witness :
  calculate_intensity default_config 10 1.0 = Ok 0.28%float /\
  calculate_intensity default_config 10 1.5 = Ok 0.42000000000000004%float /\
  (0.28 <=? 0.42000000000000004)%float = true.
Proof.
  split; [reflexivity|]. split; [reflexivity|].
  exact (keyword_boost_never_lowers default_config 10 1.5 0.28 0.42000000000000004
           eq_refl eq_refl eq_refl ltac:(discriminate) eq_refl eq_refl eq_refl eq_refl).
Defined.

End Saturation.

(** ** The order of the calls in a run *)

Section Order.

(** Where an event that the first part of a trace cannot hold is
    found in the trace. *)
Lemma app_split_at {A} (Q : A -> Prop) (pre rest t1 t2 : list A) (x : A) :
  Forall Q pre -> ~ Q x -> pre ++ rest = t1 ++ x :: t2 ->
  exists t1', t1 = pre ++ t1' /\ rest = t1' ++ x :: t2.
Proof.
  intros Hpre Hx. revert t1. induction Hpre as [|p pre Hp _ IH]; intros t1 Heq.
  - now exists t1.
  - destruct t1 as [|y t1]; cbn in Heq; injection Heq as -> Heq; [now destruct Hx|].
    destruct (IH _ Heq) as (t1' & -> & ->). now exists t1'.
Qed.

Definition not_a_fetch (e : event) : Prop :=
  match e with GetNewComments _ _ => False | _ => True end.

Definition not_a_disconnect (e : event) : Prop :=
  match e with Disconnect => False | _ => True end.

Lemma handle_comment_no_fetch (cfg : config) (sub : submission) (io : pulse_io)
    (c : comment) : always not_a_fetch (handle_comment cfg sub io c).
Proof.
  apply always_handle_comment; try exact I.
  intros intensity _. split; [exact I|]. now apply always_send_vibration.
Qed.

Lemma handle_comment_no_disconnect (cfg : config) (sub : submission) (io : pulse_io)
    (c : comment) : always not_a_disconnect (handle_comment cfg sub io c).
Proof.
  apply always_handle_comment; try exact I.
  intros intensity _. split; [exact I|]. now apply always_send_vibration.
Qed.

(** The trace of the loop: turns that start with a fetch and end with
    the pause of one second, the last of them possibly cut short. *)
Inductive turns_trace : list event -> Prop :=
| turns_quiet t :
    Forall not_a_fetch t -> turns_trace t
| turns_cut s r t :
    Forall not_a_fetch t -> turns_trace (GetNewComments s r :: t)
| turns_turn s r t rest :
    Forall not_a_fetch t -> turns_trace rest ->
    turns_trace (GetNewComments s r :: t ++ Sleep 1 :: rest).

Lemma turns_trace_app (t tail : list event) :
  turns_trace t -> Forall not_a_fetch tail -> turns_trace (t ++ tail).
Proof.
  intros Ht Htail. induction Ht as [t Hq | s r t Hq | s r t rest Hq _ IH].
  - apply turns_quiet. now apply Forall_app.
  - cbn [app]. apply turns_cut. now apply Forall_app.
  - cbn [app]. rewrite <- app_assoc. cbn [app]. now apply turns_turn.
Qed.

Lemma turns_trace_paced (t : list event) :
  turns_trace t ->
  forall t1 s r t2, t = t1 ++ GetNewComments s r :: t2 ->
    t1 = [] \/ last t1 = Some (Sleep 1).
Proof.
  induction 1 as [t Hq | s0 r0 t Hq | s0 r0 t rest Hq _ IH]; intros t1 s r t2 Heq.
  - exfalso. rewrite Heq in Hq. apply Forall_app in Hq as [_ Hq].
    now inversion Hq.
  - destruct t1 as [|y t1]; [now left|]. exfalso.
    cbn in Heq. injection Heq as _ Heq. rewrite Heq in Hq.
    apply Forall_app in Hq as [_ Hq]. now inversion Hq.
  - destruct t1 as [|y t1]; [now left|]. right.
    cbn in Heq. injection Heq as _ Heq.
    apply (app_split_at not_a_fetch) in Heq as (t1' & -> & Heq); [|exact Hq|now intros []].
    destruct t1' as [|z t1']; [discriminate Heq|].
    cbn in Heq. injection Heq as <- Heq.
    destruct (IH _ _ _ _ Heq) as [->|Hlast].
    + rewrite app_comm_cons. now rewrite last_app.
    + rewrite app_comm_cons, last_app. cbn [last].
      destruct t1' as [|z' t1']; [discriminate Hlast|]. cbn [last] in *.
      now rewrite Hlast.
Qed.

Lemma cycle_trace (cfg : config) (io : cycle_io) (seen : gset string) :
  exists r t,
    trace_of (cycle cfg io seen) = GetNewComments seen r :: t /\
    Forall not_a_fetch t /\
    (outcome_of (cycle cfg io seen) = Done tt -> exists t', t = t' ++ [Sleep 1]).
Proof.
  unfold cycle. rewrite bind_unfold. cbn [get_seen]. cbv beta iota.
  rewrite bind_unfold, call_unfold.
  destruct (get_new_comments (fetch io) seen) as [[sub new_comments]|e];
    cbn [fmap result_fmap snd].
  - rewrite bind_unfold.
    pose proof (always_for_comments not_a_fetch cfg (handle_comment_no_fetch cfg)
                  sub (pulses io) new_comments 0 seen) as Hfor.
    destruct (for_comments cfg sub (pulses io) 0 new_comments seen)
      as [[t1 seen1] [[]|e|]]; cbn in Hfor.
    + rewrite call_unfold. cbn. eexists _, _. split; [reflexivity|]. split.
      * apply Forall_app. split; [exact Hfor | now repeat constructor].
      * intros _. now exists t1.
    + cbn. eexists _, _. split; [reflexivity|]. split; [exact Hfor | discriminate].
    + cbn. eexists _, _. split; [reflexivity|]. split; [exact Hfor | discriminate].
  - cbn. eexists _, _. split; [reflexivity|]. split; [constructor | discriminate].
Qed.

Lemma monitor_trace (cfg : config) (turns : list cycle_io) : forall seen : gset string,
  turns_trace (trace_of (monitor cfg turns seen)).
Proof.
  induction turns as [|io rest IH]; intros seen; cbn [monitor].
  - apply turns_quiet. constructor.
  - rewrite bind_unfold. destruct (cycle_trace cfg io seen) as (r & t & Ht & Hq & Hend).
    destruct (cycle cfg io seen) as [[tc seen'] [[]|e|]]; cbn in Ht, Hend |- *; subst tc.
    + destruct (Hend eq_refl) as (t' & ->). specialize (IH seen').
      destruct (monitor cfg rest seen') as [[tm seen''] o]. cbn in *.
      apply Forall_app in Hq as [Hq _].
      rewrite <- app_assoc. cbn [app]. now apply turns_turn.
    + now apply turns_cut.
    + now apply turns_cut.
Qed.

(** The loop with its handler: the trace of the loop, then the line
    of the handler if an [Exception] was caught. *)
Lemma handled_loop_trace (cfg : config) (turns : list cycle_io) (seen : gset string) :
  turns_trace (trace_of (try_except (monitor cfg turns)
                           (fun e => print (RuntimeError e)) seen)) /\
  Forall not_a_disconnect (trace_of (try_except (monitor cfg turns)
                                       (fun e => print (RuntimeError e)) seen)).
Proof.
  split.
  - unfold try_except. pose proof (monitor_trace cfg turns seen) as Hturns.
    destruct (monitor cfg turns seen) as [[t seen'] [[]|e|]]; cbn in Hturns |- *;
      try exact Hturns.
    destruct (is_Exception e); cbn; [|exact Hturns].
    apply turns_trace_app; [exact Hturns | now repeat constructor].
  - apply always_try_except.
    + apply always_monitor; [apply handle_comment_no_disconnect|].
      intros e He. now destruct e.
    + intros e. now apply always_print.
Qed.

(** What the [try] statement of the loop adds to the trace of the
    loop: the handler's line, the disconnect and the last line. *)
Lemma monitoring_trace (cfg : config) (turns : list cycle_io) (bye : result unit)
    (seen : gset string) :
  exists body closing,
    trace_of (monitoring cfg turns bye seen) = body ++ closing /\
    turns_trace body /\ Forall not_a_disconnect body /\
    (closing = [] \/ closing = [Disconnect] \/ closing = [Disconnect; Printed BotShutDown]).
Proof.
  unfold monitoring, try_finally.
  destruct (handled_loop_trace cfg turns seen) as [Hturns Hnd].
  destruct (try_except _ _ seen) as [[t seen'] o]. cbn in Hturns, Hnd.
  exists t. rewrite bind_unfold, call_unfold.
  destruct o as [[]|e|]; destruct bye as [[]|e']; cbn;
    first [ exists [Disconnect; Printed BotShutDown]; split; [reflexivity|]
          | exists [Disconnect]; split; [reflexivity|]
          | exists []; split; [now rewrite app_nil_r|] ];
    repeat split; auto.
Qed.

(** The trace of a run: calls and lines that are neither a fetch of
    the comments nor the disconnect, then the loop, then the
    closing. *)
Lemma run_trace (cfg : config) (w : world) :
  exists opening body closing,
    trace_of (run cfg w) = opening ++ body ++ closing /\
    Forall not_a_fetch opening /\ Forall not_a_disconnect opening /\
    turns_trace body /\ Forall not_a_disconnect body /\
    (closing = [] \/ closing = [Disconnect] \/ closing = [Disconnect; Printed BotShutDown]).
Proof.
  unfold run, main. rewrite bind_unfold.
  set (setup := try_except _ _).
  assert (Hsetup : Forall not_a_fetch (trace_of (setup ∅)) /\
                   Forall not_a_disconnect (trace_of (setup ∅))).
  { split; subst setup.
    - apply always_try_except.
      + always_seq; first [now apply always_call | apply always_ret].
      + intros e. apply always_bind; [now apply always_print | intros ? ? _; apply always_ret].
    - apply always_try_except.
      + always_seq; first [now apply always_call | apply always_ret].
      + intros e. apply always_bind; [now apply always_print | intros ? ? _; apply always_ret]. }
  destruct Hsetup as [Hf Hd].
  assert (Hquiet : forall t : list event,
            Forall not_a_fetch t -> Forall not_a_disconnect t ->
            exists opening body closing,
              t = opening ++ body ++ closing /\
              Forall not_a_fetch opening /\ Forall not_a_disconnect opening /\
              turns_trace body /\ Forall not_a_disconnect body /\
              (closing = [] \/ closing = [Disconnect]
               \/ closing = [Disconnect; Printed BotShutDown])).
  { intros t H1 H2. exists t, [], []. rewrite app_nil_r.
    repeat split; try assumption; [apply turns_quiet; constructor | constructor | now left]. }
  destruct (setup ∅) as [[t0 seen0] [[|]| |]]; cbn in Hf, Hd |- *;
    try (rewrite app_nil_r); try now apply Hquiet.
  rewrite bind_unfold, call_unfold.
  destruct (title w) as [submission_title|e]; cbn.
  2:{ apply Hquiet; apply Forall_app; (split; [assumption | now repeat constructor]). }
  repeat (rewrite bind_unfold; change (print ?l ?s) with ([Printed l], s, Done tt);
          cbv beta iota).
  destruct (monitoring_trace cfg (cycles w) (disconnect w) seen0)
    as (body & closing & Ht & Hturns & Hnd & Hclosing).
  destruct (monitoring cfg (cycles w) (disconnect w) seen0) as [[tm seen1] o].
  cbn in Ht |- *. subst tm.
  exists (t0 ++ [FetchTitle; Printed (MonitoringPost submission_title);
                 Printed (MaxUpvotes (max_upvotes cfg));
                 Printed (MinIntensity (min_intensity cfg));
                 Printed (KeywordTriggers (keywords cfg));
                 Printed (KeywordMultiplier (multiplier cfg))]), body, closing.
  split; [now rewrite <- !app_assoc|].
  split; [apply Forall_app; split; [assumption | now repeat constructor]|].
  split; [apply Forall_app; split; [assumption | now repeat constructor]|].
  now repeat split.
Qed.

(** X20. The thread is polled once per pause. In every run, each
    fetch of the comments is the first one of the run or comes
    directly after the pause of one second that ends a turn. *)
Theorem every_fetch_but_the_first_follows_the_pause (cfg : config) (w : world)
    (t1 t2 : list event) (s : gset string) (r : result (list comment)) :
  trace_of (run cfg w) = t1 ++ GetNewComments s r :: t2 ->
  Forall not_a_fetch t1 \/ last t1 = Some (Sleep 1).
Proof.
  intros Heq.
  destruct (run_trace cfg w) as (opening & body & closing & Ht & Hf & _ & Hturns & _ & Hc).
  rewrite Ht in Heq.
  apply (app_split_at not_a_fetch) in Heq as (t1' & -> & Heq); [|exact Hf|now intros []].
  assert (Hall : turns_trace (body ++ closing)).
  { apply turns_trace_app; [exact Hturns|].
    destruct Hc as [->|[->| ->]]; now repeat constructor. }
  destruct (turns_trace_paced _ Hall _ _ _ _ Heq) as [->|Hlast].
  - left. now rewrite app_nil_r.
  - right. rewrite last_app.
    destruct t1' as [|z t1']; [discriminate Hlast|]. now rewrite Hlast.
Qed.

(** The run of two turns, up to its second fetch. *)
Definition first_of_two_turns : list event :=
  [Connect; StartScanning; Sleep 1; StopScanning; FetchTitle;
   Printed (MonitoringPost "thread"); Printed (MaxUpvotes 100); Printed (MinIntensity 0.2);
   Printed (KeywordTriggers ["knot"; "puppy"; "gock"; "stupid"; "choke"]);
   Printed (KeywordMultiplier 1.5);
   GetNewComments ∅ (Ok [plain_comment]);
   SeenAdd "c1"; Printed (NewComment (Some "ann") "first");
   CalculateIntensity 10 1; Printed (PostScore 10 0.28);
   Command 0 0.28; Printed (SentVibration 0.28 2); Sleep 2; Command 0 0; Sleep 1].

Lemma every_fetch_but_the_first_follows_the_pause_witness :
  Forall not_a_fetch first_of_two_turns \/ last first_of_two_turns = Some (Sleep 1).
Proof.
  exact (every_fetch_but_the_first_follows_the_pause default_config two_turns
           first_of_two_turns
           [SeenAdd "k9"; Printed (NewComment (Some "bob") "what a KNOT");
            Printed (KeywordDetected 1.5);
            CalculateIntensity 10 1.5; Printed (PostScore 10 0.42000000000000004);
            Command 0 0.42000000000000004;
            Printed (SentVibration 0.42000000000000004 2);
            Sleep 2; Command 0 0; Sleep 1]
           {["c1"]} (Ok [knot_comment]) eq_refl).
Defined.

(** X21. Nothing follows the disconnect. In every run the
    disconnect is attempted at most once, and what follows it is at
    most the line "Bot shut down.": no fetch and no command. *)
Theorem nothing_follows_the_disconnect (cfg : config) (w : world)
    (t1 t2 : list event) :
  trace_of (run cfg w) = t1 ++ Disconnect :: t2 ->
  Forall not_a_disconnect t1 /\ (t2 = [] \/ t2 = [Printed BotShutDown]).
Proof.
  intros Heq.
  destruct (run_trace cfg w) as (opening & body & closing & Ht & _ & Hd & _ & Hb & Hc).
  rewrite Ht, app_assoc in Heq.
  apply (app_split_at not_a_disconnect) in Heq as (t1' & -> & Heq);
    [|now apply Forall_app|now intros []].
  destruct Hc as [->|[->| ->]].
  - now destruct t1'.
  - destruct t1' as [|z [|z' t1']]; try discriminate Heq.
    injection Heq as <-. rewrite app_nil_r. split; [now apply Forall_app | now left].
  - destruct t1' as [|z [|z' [|z'' t1']]]; try discriminate Heq.
    injection Heq as <-. rewrite app_nil_r. split; [now apply Forall_app | now right].
Qed.

(** A run whose first fetch times out. *)
Lemma nothing_follows_the_disconnect_witness :
  Forall not_a_disconnect
    [Connect; StartScanning; Sleep 1; StopScanning; FetchTitle;
     Printed (MonitoringPost "thread"); Printed (MaxUpvotes 100); Printed (MinIntensity 0.2);
     Printed (KeywordTriggers ["knot"; "puppy"; "gock"; "stupid"; "choke"]);
     Printed (KeywordMultiplier 1.5);
     GetNewComments ∅ (Raise (OtherException "timeout"));
     Printed (RuntimeError (OtherException "timeout"))] /\
  ([Printed BotShutDown] = [] \/ [Printed BotShutDown] = [Printed BotShutDown]).
Proof.
  exact (nothing_follows_the_disconnect default_config
           (calm_world [fetch_fails (OtherException "timeout")])
           [Connect; StartScanning; Sleep 1; StopScanning; FetchTitle;
            Printed (MonitoringPost "thread"); Printed (MaxUpvotes 100);
            Printed (MinIntensity 0.2);
            Printed (KeywordTriggers ["knot"; "puppy"; "gock"; "stupid"; "choke"]);
            Printed (KeywordMultiplier 1.5);
            GetNewComments ∅ (Raise (OtherException "timeout"));
            Printed (RuntimeError (OtherException "timeout"))]
           [Printed BotShutDown] eq_refl).
Defined.

End Order.
